(** * mud: a multipath authenticated UDP tunnel (src/mud.c)

    A shallow embedding of the tunnel engine of [mud.c]: the 48-bit wire
    codec, the crypto envelope with its ring of four key slots, the path
    table, the control protocol, the receive entry point, the control tick
    and the egress selector, followed by the properties of the engine.

    Conventions.  A [uint64_t] is a [Z] with its wrap-around written out
    ([u64]); an [int] is a [Z] ([int32] is the cast); an [unsigned char] is
    a [Byte.byte]; a buffer is a [list byte].  The engine ([struct mud]) is
    threaded through a small state monad together with the [world]: how many
    times the clock, the entropy source, the allocator and [sendmsg] have
    been used, and the datagrams handed to [sendmsg].  The functions of
    libsodium and the system calls are not part of the repository: they
    are collected in the records [sodium] and [env]. *)

From Stdlib Require Import ZArith Lia Bool Strings.Byte.
From stdpp Require Import base list.

Local Open Scope Z_scope.

(** ** Machine integers and bytes *)

Definition u64 (x : Z) : Z := x mod 2 ^ 64.

(** [(int64_t)x] for a 64-bit pattern [x]. *)
Definition s64 (x : Z) : Z :=
  let y := u64 x in if y <? 2 ^ 63 then y else y - 2 ^ 64.

(** [(int)x]: the low 32 bits, read as a signed number. *)
Definition int32 (x : Z) : Z :=
  let y := x mod 2 ^ 32 in if y <? 2 ^ 31 then y else y - 2 ^ 32.

Definition INT64_MAX : Z := 2 ^ 63 - 1.

Definition Z_of_byte (b : byte) : Z := Z.of_N (Byte.to_N b).

(** [(unsigned char)z]. *)
Definition byte_of_Z (z : Z) : byte :=
  match Byte.of_N (Z.to_N (Z.land z 255)) with
  | Some b => b
  | None => x00
  end.

#[global] Instance byte_eq_decision : EqDecision byte := Byte.byte_eq_dec.

Definition zeros (n : nat) : list byte := replicate n x00.

(** [memcpy (dst, src, n)]: the first [n] bytes of [dst] are replaced. *)
Definition memcpy (dst src : list byte) (n : nat) : list byte :=
  take n src ++ drop n dst.

(** [memcmp (a, b, n)]: zero iff the first [n] bytes agree, otherwise the
    difference of the first pair of bytes that differ. *)
Fixpoint memcmp (a b : list byte) (n : nat) : Z :=
  match n with
  | O => 0
  | S n' =>
      let x := Z_of_byte (hd x00 a) in
      let y := Z_of_byte (hd x00 b) in
      if x =? y then memcmp (tl a) (tl b) n' else x - y
  end.

(** ** Constants *)

Definition MUD_ONE_MSEC : Z := 1000.
Definition MUD_ONE_SEC : Z := 1000 * MUD_ONE_MSEC.
Definition MUD_ONE_MIN : Z := 60 * MUD_ONE_SEC.

Definition MUD_U48_SIZE : Z := 6.
Definition MUD_KEY_SIZE : Z := 32.
Definition MUD_MAC_SIZE : Z := 16.

Definition MUD_PACKET_MIN_SIZE : Z := MUD_U48_SIZE + MUD_MAC_SIZE.
Definition MUD_PACKET_MAX_SIZE : Z := 1500.
Definition MUD_PACKET_SIZEOF (x : Z) : Z := x + MUD_PACKET_MIN_SIZE.

Definition crypto_scalarmult_BYTES : Z := 32.

Definition MUD_PONG_SIZE : Z := MUD_PACKET_SIZEOF (MUD_U48_SIZE * 4).
Definition MUD_PKEY_SIZE : Z := crypto_scalarmult_BYTES + 1.
Definition MUD_KEYX_SIZE : Z := MUD_PACKET_SIZEOF (MUD_U48_SIZE + 2 * MUD_PKEY_SIZE).
Definition MUD_MTUX_SIZE : Z := MUD_PACKET_SIZEOF (MUD_U48_SIZE * 2).
Definition MUD_BAKX_SIZE : Z := MUD_PACKET_SIZEOF (MUD_U48_SIZE + 1).

Definition MUD_PONG_TIMEOUT : Z := 100 * MUD_ONE_MSEC.
Definition MUD_KEYX_TIMEOUT : Z := 60 * MUD_ONE_MIN.
Definition MUD_SEND_TIMEOUT : Z := MUD_ONE_SEC.
Definition MUD_TIME_TOLERANCE : Z := 10 * MUD_ONE_MIN.

(** The values of [errno] the engine sets. *)
Inductive errno := EINVAL | ENOMEM | EMSGSIZE.

Inductive mud_msg := mud_ping | mud_pong | mud_keyx | mud_mtux | mud_bakx.

(** ** Wire codec *)

Definition mud_write48 (src : Z) : list byte :=
  [ byte_of_Z (Z.land 255 src);
    byte_of_Z (Z.land 255 (Z.shiftr src 8));
    byte_of_Z (Z.land 255 (Z.shiftr src 16));
    byte_of_Z (Z.land 255 (Z.shiftr src 24));
    byte_of_Z (Z.land 255 (Z.shiftr src 32));
    byte_of_Z (Z.land 255 (Z.shiftr src 40)) ].

(** Byte [i] of a buffer; past its end the model reads zero (every read
    of the source is guarded by a size test). *)
Definition byte_at (src : list byte) (i : nat) : Z :=
  Z_of_byte (nth i src x00).

Definition mud_read48 (src : list byte) : Z :=
  Z.lor (Z.lor (Z.lor (Z.lor (Z.lor
    (byte_at src 0)
    (Z.shiftl (byte_at src 1) 8))
    (Z.shiftl (byte_at src 2) 16))
    (Z.shiftl (byte_at src 3) 24))
    (Z.shiftl (byte_at src 4) 32))
    (Z.shiftl (byte_at src 5) 40).

(** ** Clock arithmetic *)

Definition mask48 : Z := Z.shiftl 1 48 - 1.

Definition mud_abs_diff (a b : Z) : Z :=
  if a >=? b then u64 (a - b) else u64 (b - a).

Definition mud_timeout (now last timeout : Z) : bool :=
  (last =? 0) || ((now >? last) && (u64 (now - last) >=? timeout)).

(** ** Addresses and ancillary data *)

Inductive sa_family := AF_INET | AF_INET6 | AF_UNSPEC.

#[global] Instance sa_family_eq_decision : EqDecision sa_family.
Proof. solve_decision. Defined.

(** [struct ipaddr]: the union holds 4 or 16 bytes. *)
Record ipaddr := {
  family : sa_family;
  ip : list byte;
}.

(** [struct sockaddr_storage], read as [sockaddr_in] or [sockaddr_in6]:
    the port is kept as the 16 bits found in the structure. *)
Record sockaddr := {
  sa_family_of : sa_family;
  sin_port : Z;
  sin_addr : list byte;
}.

(** Protocol levels and option names of the socket interface; the engine
    only compares them. *)
Inductive cmsg_level := IPPROTO_IP | IPPROTO_IPV6 | SOL_OTHER.
Inductive cmsg_type := MUD_PKTINFO | IP_TOS | IPV6_PKTINFO | IPV6_TCLASS | CMSG_OTHER.

#[global] Instance cmsg_level_eq_decision : EqDecision cmsg_level.
Proof. solve_decision. Defined.
#[global] Instance cmsg_type_eq_decision : EqDecision cmsg_type.
Proof. solve_decision. Defined.

Record cmsghdr := {
  cmsg_level_of : cmsg_level;
  cmsg_type_of : cmsg_type;
  cmsg_data : list byte;
}.

(** [struct in_pktinfo] is [ifindex (4) ; spec_dst (4) ; addr (4)];
    [struct in6_pktinfo] is [addr (16) ; ifindex (4)]. *)
Definition MUD_PKTINFO_SRC (x : list byte) : list byte := take 4 (drop 8 x).
Definition in_pktinfo_with_dst (a : list byte) : list byte :=
  zeros 4 ++ take 4 (a ++ zeros 4) ++ zeros 4.
Definition in6_pktinfo_with_addr (a : list byte) : list byte :=
  take 16 (a ++ zeros 16) ++ zeros 4.

(** An [int] as it lies in memory (four bytes, low byte first). *)
Definition int_bytes (v : Z) : list byte :=
  [ byte_of_Z v; byte_of_Z (Z.shiftr v 8);
    byte_of_Z (Z.shiftr v 16); byte_of_Z (Z.shiftr v 24) ].

(** ** The path *)

Record bak_t := {
  bak_send_time : Z;
  bak_remote : Z;
  bak_local : Z;
}.

(** [struct path].  [ctrl] is the ancillary data prepared for [sendmsg];
    [tc] points into it: here the index of the message whose data is the
    traffic class, [None] for a null pointer. *)
Record path := {
  active : bool;
  local_addr : ipaddr;
  addr : sockaddr;
  ctrl : list cmsghdr;
  bak : bak_t;
  tc : option nat;
  rdt : Z;
  rtt : Z;
  sdt : Z;
  rst : Z;
  r_sdt : Z;
  r_rdt : Z;
  r_rst : Z;
  r_dt : Z;
  limit : Z;
  recv_time : Z;
  send_time : Z;
  pong_time : Z;
}.

Definition zero_ipaddr : ipaddr := {| family := AF_UNSPEC; ip := zeros 16 |}.
Definition zero_sockaddr : sockaddr :=
  {| sa_family_of := AF_UNSPEC; sin_port := 0; sin_addr := zeros 16 |}.

(** [calloc (1, sizeof (struct path))]. *)
Definition zero_path : path := {|
  active := false; local_addr := zero_ipaddr; addr := zero_sockaddr;
  ctrl := []; bak := {| bak_send_time := 0; bak_remote := 0; bak_local := 0 |};
  tc := None; rdt := 0; rtt := 0; sdt := 0; rst := 0; r_sdt := 0; r_rdt := 0;
  r_rst := 0; r_dt := 0; limit := 0; recv_time := 0; send_time := 0;
  pong_time := 0 |}.

(** Assignments to the fields of a path. *)
Definition set_active (v : bool) (p : path) : path :=
  {| active := v; local_addr := local_addr p; addr := addr p; ctrl := ctrl p;
     bak := bak p; tc := tc p; rdt := rdt p; rtt := rtt p; sdt := sdt p;
     rst := rst p; r_sdt := r_sdt p; r_rdt := r_rdt p; r_rst := r_rst p;
     r_dt := r_dt p; limit := limit p; recv_time := recv_time p;
     send_time := send_time p; pong_time := pong_time p |}.
Definition set_endpoints (l : ipaddr) (a : sockaddr) (c : list cmsghdr)
    (t : option nat) (p : path) : path :=
  {| active := active p; local_addr := l; addr := a; ctrl := c;
     bak := bak p; tc := t; rdt := rdt p; rtt := rtt p; sdt := sdt p;
     rst := rst p; r_sdt := r_sdt p; r_rdt := r_rdt p; r_rst := r_rst p;
     r_dt := r_dt p; limit := limit p; recv_time := recv_time p;
     send_time := send_time p; pong_time := pong_time p |}.
Definition set_ctrl (c : list cmsghdr) (p : path) : path :=
  set_endpoints (local_addr p) (addr p) c (tc p) p.
Definition set_bak (v : bak_t) (p : path) : path :=
  {| active := active p; local_addr := local_addr p; addr := addr p;
     ctrl := ctrl p; bak := v; tc := tc p; rdt := rdt p; rtt := rtt p;
     sdt := sdt p; rst := rst p; r_sdt := r_sdt p; r_rdt := r_rdt p;
     r_rst := r_rst p; r_dt := r_dt p; limit := limit p;
     recv_time := recv_time p; send_time := send_time p;
     pong_time := pong_time p |}.
Definition set_bak_send_time (v : Z) (p : path) : path :=
  set_bak {| bak_send_time := v; bak_remote := bak_remote (bak p);
             bak_local := bak_local (bak p) |} p.
Definition set_bak_remote (v : Z) (p : path) : path :=
  set_bak {| bak_send_time := bak_send_time (bak p); bak_remote := v;
             bak_local := bak_local (bak p) |} p.
Definition set_bak_local (v : Z) (p : path) : path :=
  set_bak {| bak_send_time := bak_send_time (bak p);
             bak_remote := bak_remote (bak p); bak_local := v |} p.
(** The received samples [rdt], [sdt], [rst] and [recv_time]. *)
Definition set_samples (rdt' sdt' rst' recv_time' : Z) (p : path) : path :=
  {| active := active p; local_addr := local_addr p; addr := addr p;
     ctrl := ctrl p; bak := bak p; tc := tc p; rdt := rdt'; rtt := rtt p;
     sdt := sdt'; rst := rst'; r_sdt := r_sdt p; r_rdt := r_rdt p;
     r_rst := r_rst p; r_dt := r_dt p; limit := limit p;
     recv_time := recv_time'; send_time := send_time p;
     pong_time := pong_time p |}.
Definition set_rdt (v : Z) (p : path) := set_samples v (sdt p) (rst p) (recv_time p) p.
Definition set_sdt (v : Z) (p : path) := set_samples (rdt p) v (rst p) (recv_time p) p.
Definition set_rst (v : Z) (p : path) := set_samples (rdt p) (sdt p) v (recv_time p) p.
Definition set_recv_time (v : Z) (p : path) := set_samples (rdt p) (sdt p) (rst p) v p.
(** What a pong reports: [r_sdt], [r_rdt], [r_rst], [r_dt] and [rtt]. *)
Definition set_remote_samples (sdt' rdt' rst' dt' rtt' : Z) (p : path) : path :=
  {| active := active p; local_addr := local_addr p; addr := addr p;
     ctrl := ctrl p; bak := bak p; tc := tc p; rdt := rdt p; rtt := rtt';
     sdt := sdt p; rst := rst p; r_sdt := sdt'; r_rdt := rdt';
     r_rst := rst'; r_dt := dt'; limit := limit p;
     recv_time := recv_time p; send_time := send_time p;
     pong_time := pong_time p |}.
Definition set_limit (v : Z) (p : path) : path :=
  {| active := active p; local_addr := local_addr p; addr := addr p;
     ctrl := ctrl p; bak := bak p; tc := tc p; rdt := rdt p; rtt := rtt p;
     sdt := sdt p; rst := rst p; r_sdt := r_sdt p; r_rdt := r_rdt p;
     r_rst := r_rst p; r_dt := r_dt p; limit := v;
     recv_time := recv_time p; send_time := send_time p;
     pong_time := pong_time p |}.
Definition set_send_time (v : Z) (p : path) : path :=
  {| active := active p; local_addr := local_addr p; addr := addr p;
     ctrl := ctrl p; bak := bak p; tc := tc p; rdt := rdt p; rtt := rtt p;
     sdt := sdt p; rst := rst p; r_sdt := r_sdt p; r_rdt := r_rdt p;
     r_rst := r_rst p; r_dt := r_dt p; limit := limit p;
     recv_time := recv_time p; send_time := v; pong_time := pong_time p |}.
Definition set_pong_time (v : Z) (p : path) : path :=
  {| active := active p; local_addr := local_addr p; addr := addr p;
     ctrl := ctrl p; bak := bak p; tc := tc p; rdt := rdt p; rtt := rtt p;
     sdt := sdt p; rst := rst p; r_sdt := r_sdt p; r_rdt := r_rdt p;
     r_rst := r_rst p; r_dt := r_dt p; limit := limit p;
     recv_time := recv_time p; send_time := send_time p; pong_time := v |}.

(** ** Keys and the engine *)

Record public := {
  pub_send : list byte;
  pub_recv : list byte;
}.

(** One direction of a [struct crypto_key]: the key and the AES-GCM state
    computed from it. *)
Record key_half := {
  key : list byte;
  state : list byte;
}.

Record crypto_key := {
  encrypt : key_half;
  decrypt : key_half;
  aes : Z;
}.

Record crypto_opt := {
  src : list byte;
  ad : list byte;
  npub : list byte;
}.

Record crypto_t := {
  crypto_recv_time : Z;
  crypto_send_time : Z;
  secret : list byte;
  crypto_public : public;
  private : crypto_key;
  last : crypto_key;
  next : crypto_key;
  current : crypto_key;
  use_next : Z;
  crypto_aes : Z;
  bad_key : Z;
}.

Record mtu_t := {
  mtu_send_time : Z;
  mtu_remote : Z;
  mtu_local : Z;
}.

(** [struct mud]; the linked list of paths is a list, its head first. *)
Record mud := {
  fd : Z;
  send_timeout : Z;
  time_tolerance : Z;
  paths : list path;
  crypto : crypto_t;
  mtu : mtu_t;
}.

Definition set_paths (v : list path) (m : mud) : mud :=
  {| fd := fd m; send_timeout := send_timeout m;
     time_tolerance := time_tolerance m; paths := v; crypto := crypto m;
     mtu := mtu m |}.
Definition set_crypto (v : crypto_t) (m : mud) : mud :=
  {| fd := fd m; send_timeout := send_timeout m;
     time_tolerance := time_tolerance m; paths := paths m; crypto := v;
     mtu := mtu m |}.
Definition set_mtu_t (v : mtu_t) (m : mud) : mud :=
  {| fd := fd m; send_timeout := send_timeout m;
     time_tolerance := time_tolerance m; paths := paths m;
     crypto := crypto m; mtu := v |}.
Definition set_send_timeout (v : Z) (m : mud) : mud :=
  {| fd := fd m; send_timeout := v; time_tolerance := time_tolerance m;
     paths := paths m; crypto := crypto m; mtu := mtu m |}.
Definition set_time_tolerance (v : Z) (m : mud) : mud :=
  {| fd := fd m; send_timeout := send_timeout m; time_tolerance := v;
     paths := paths m; crypto := crypto m; mtu := mtu m |}.

(** Assignments to the fields of [mud->crypto] and [mud->mtu]. *)
Definition set_crypto_times (r s : Z) (c : crypto_t) : crypto_t :=
  {| crypto_recv_time := r; crypto_send_time := s; secret := secret c;
     crypto_public := crypto_public c; private := private c; last := last c;
     next := next c; current := current c; use_next := use_next c;
     crypto_aes := crypto_aes c; bad_key := bad_key c |}.
Definition set_crypto_recv_time (v : Z) (c : crypto_t) : crypto_t :=
  set_crypto_times v (crypto_send_time c) c.
Definition set_crypto_send_time (v : Z) (c : crypto_t) : crypto_t :=
  set_crypto_times (crypto_recv_time c) v c.
Definition set_keypair (s : list byte) (p : public) (c : crypto_t) : crypto_t :=
  {| crypto_recv_time := crypto_recv_time c;
     crypto_send_time := crypto_send_time c; secret := s;
     crypto_public := p; private := private c; last := last c;
     next := next c; current := current c; use_next := use_next c;
     crypto_aes := crypto_aes c; bad_key := bad_key c |}.
Definition set_public_recv (v : list byte) (c : crypto_t) : crypto_t :=
  set_keypair (secret c)
    {| pub_send := pub_send (crypto_public c); pub_recv := v |} c.
Definition set_ring (priv lst nxt cur : crypto_key) (c : crypto_t) : crypto_t :=
  {| crypto_recv_time := crypto_recv_time c;
     crypto_send_time := crypto_send_time c; secret := secret c;
     crypto_public := crypto_public c; private := priv; last := lst;
     next := nxt; current := cur; use_next := use_next c;
     crypto_aes := crypto_aes c; bad_key := bad_key c |}.
Definition set_private (v : crypto_key) (c : crypto_t) : crypto_t :=
  set_ring v (last c) (next c) (current c) c.
Definition set_last (v : crypto_key) (c : crypto_t) : crypto_t :=
  set_ring (private c) v (next c) (current c) c.
Definition set_next (v : crypto_key) (c : crypto_t) : crypto_t :=
  set_ring (private c) (last c) v (current c) c.
Definition set_current (v : crypto_key) (c : crypto_t) : crypto_t :=
  set_ring (private c) (last c) (next c) v c.
Definition set_flags (un ae bk : Z) (c : crypto_t) : crypto_t :=
  {| crypto_recv_time := crypto_recv_time c;
     crypto_send_time := crypto_send_time c; secret := secret c;
     crypto_public := crypto_public c; private := private c; last := last c;
     next := next c; current := current c; use_next := un;
     crypto_aes := ae; bad_key := bk |}.
Definition set_use_next (v : Z) (c : crypto_t) : crypto_t :=
  set_flags v (crypto_aes c) (bad_key c) c.
Definition set_crypto_aes (v : Z) (c : crypto_t) : crypto_t :=
  set_flags (use_next c) v (bad_key c) c.
Definition set_bad_key (v : Z) (c : crypto_t) : crypto_t :=
  set_flags (use_next c) (crypto_aes c) v c.

Definition set_mtu_send_time (v : Z) (t : mtu_t) : mtu_t :=
  {| mtu_send_time := v; mtu_remote := mtu_remote t; mtu_local := mtu_local t |}.
Definition set_mtu_remote (v : Z) (t : mtu_t) : mtu_t :=
  {| mtu_send_time := mtu_send_time t; mtu_remote := v; mtu_local := mtu_local t |}.
Definition set_mtu_local (v : Z) (t : mtu_t) : mtu_t :=
  {| mtu_send_time := mtu_send_time t; mtu_remote := mtu_remote t; mtu_local := v |}.

(** ** The world outside the engine *)

(** libsodium.  Every function returns what it writes through its output
    pointer, together with its [int] result where the engine looks at it or
    passes it on.  The arguments come in the order of the C prototypes,
    without the lengths and the unused ones. *)
Record sodium := {
  crypto_scalarmult_base : list byte -> list byte;
  crypto_scalarmult : list byte -> list byte -> Z * list byte;
  crypto_generichash : nat -> list byte -> list byte -> list byte;
  crypto_aead_aes256gcm_is_available : Z;
  crypto_aead_aes256gcm_beforenm : list byte -> list byte;
  crypto_aead_aes256gcm_encrypt_afternm :
    list byte -> list byte -> list byte -> list byte -> Z * list byte;
  crypto_aead_aes256gcm_decrypt_afternm :
    list byte -> list byte -> list byte -> list byte -> Z * list byte;
  crypto_aead_chacha20poly1305_encrypt :
    list byte -> list byte -> list byte -> list byte -> Z * list byte;
  crypto_aead_chacha20poly1305_decrypt :
    list byte -> list byte -> list byte -> list byte -> Z * list byte;
}.

(** The system: the [k]-th reading of the clock as [(tv_sec, tv_nsec)],
    the [k]-th draw of [n] random bytes, whether the [k]-th [calloc] fails
    and whether the [k]-th [sendmsg] fails. *)
Record env := {
  clock_gettime : nat -> Z * Z;
  randombytes_buf : nat -> nat -> list byte;
  calloc_fails : nat -> bool;
  sendmsg_fails : nat -> bool;
}.

(** One call of [sendmsg]: the path used (its position in the list), the
    destination, the ancillary data and the datagram. *)
Record sent := {
  via : nat;
  msg_name : sockaddr;
  msg_control : list cmsghdr;
  msg_data : list byte;
}.

(** What has been consumed and produced so far; the newest datagram is at
    the head of [wire]. *)
Record world := {
  clock_reads : nat;
  draws : nat;
  allocs : nat;
  wire : list sent;
}.

Definition world0 : world :=
  {| clock_reads := 0; draws := 0; allocs := 0; wire := [] |}.

(** One more reading of the clock, draw or allocation; one more datagram. *)
Definition tick (w : world) : world :=
  {| clock_reads := Datatypes.S (clock_reads w); draws := draws w;
     allocs := allocs w; wire := wire w |}.
Definition drawn (w : world) : world :=
  {| clock_reads := clock_reads w; draws := Datatypes.S (draws w);
     allocs := allocs w; wire := wire w |}.
Definition allocated (w : world) : world :=
  {| clock_reads := clock_reads w; draws := draws w;
     allocs := Datatypes.S (allocs w); wire := wire w |}.
Definition log (e : sent) (w : world) : world :=
  {| clock_reads := clock_reads w; draws := draws w; allocs := allocs w;
     wire := e :: wire w |}.

(** What [recvmsg] hands back: a failure, or a datagram with its source
    address and its ancillary data. *)
Record datagram := {
  packet : list byte;
  msg_from : sockaddr;
  msg_cmsgs : list cmsghdr;
}.

Inductive recvmsg_result :=
  | recvmsg_error
  | recvmsg_ok (d : datagram).

(** ** The state monad of the engine *)

Definition M (A : Type) : Type := mud * world -> A * (mud * world).

#[global] Instance M_ret : MRet M := fun A a s => (a, s).
#[global] Instance M_bind : MBind M :=
  fun A B f c s => let (a, s') := c s in f a s'.

Definition get_mud : M mud := fun s => (fst s, s).
Definition modify_mud (f : mud -> mud) : M unit :=
  fun s => (tt, (f (fst s), snd s)).
Definition get_world : M world := fun s => (snd s, s).
Definition modify_world (f : world -> world) : M unit :=
  fun s => (tt, (fst s, f (snd s))).

Definition modify_crypto (f : crypto_t -> crypto_t) : M unit :=
  modify_mud (fun m => set_crypto (f (crypto m)) m).
Definition modify_mtu (f : mtu_t -> mtu_t) : M unit :=
  modify_mud (fun m => set_mtu_t (f (mtu m)) m).

(** [path->field = ...] for the path at position [i]. *)
Definition modify_path (i : nat) (f : path -> path) : M unit :=
  modify_mud (fun m => set_paths (alter f i (paths m)) m).

(** The path at position [i]; positions are only taken from the list
    itself, so the default is never read. *)
Definition get_path (i : nat) : M path :=
  fun s => (default zero_path (paths (fst s) !! i), s).

(** [for (path = mud->path; path; path = path->next)] *)
Fixpoint for_each (l : list nat) (body : nat -> M unit) : M unit :=
  match l with
  | [] => mret tt
  | i :: l' => body i;; for_each l' body
  end.

Definition len (l : list byte) : Z := Z.of_nat (length l).

(** A function of libsodium writes [out] at the start of the buffer [dst]. *)
Definition store (dst out : list byte) : list byte :=
  out ++ drop (length out) dst.

Section engine.

Context (S : sodium) (E : env).

(** ** Crypto envelope *)

Definition mud_encrypt_opt (k : crypto_key) (c : crypto_opt) : Z * list byte :=
  if negb (aes k =? 0) then
    crypto_aead_aes256gcm_encrypt_afternm S (src c) (ad c) (npub c)
      (state (encrypt k))
  else
    crypto_aead_chacha20poly1305_encrypt S (src c) (ad c) (npub c)
      (key (encrypt k)).

Definition mud_decrypt_opt (k : crypto_key) (c : crypto_opt) : Z * list byte :=
  if negb (aes k =? 0) then
    crypto_aead_aes256gcm_decrypt_afternm S (src c) (ad c) (npub c)
      (state (decrypt k))
  else
    crypto_aead_chacha20poly1305_decrypt S (src c) (ad c) (npub c)
      (key (decrypt k)).

(** ** Clock *)

(** The value of the [k]-th call of [mud_now]. *)
Definition clock_value (k : nat) : Z :=
  let tv := clock_gettime E k in
  let now := u64 (u64 (fst tv) * MUD_ONE_SEC + u64 (snd tv) / MUD_ONE_MSEC) in
  Z.land now mask48.

Definition mud_now : M Z := fun s =>
  let w := snd s in
  (clock_value (clock_reads w), (fst s, tick w)).

(** ** Addresses *)

Definition IN6_IS_ADDR_V4MAPPED (a : list byte) : bool :=
  bool_decide (take 12 a = zeros 10 ++ [xff; xff]).

Definition mud_unmapv4 (a : sockaddr) : sockaddr :=
  if negb (bool_decide (sa_family_of a = AF_INET6)) then a
  else if negb (IN6_IS_ADDR_V4MAPPED (sin_addr a)) then a
  else {| sa_family_of := AF_INET; sin_port := sin_port a;
          sin_addr := take 4 (drop 12 (sin_addr a)) |}.

(** The two arguments are never the same object in the engine, so the
    comparison of the pointers is left out. *)
Definition mud_cmp_ipaddr (a b : ipaddr) : Z :=
  if negb (bool_decide (family a = family b)) then 1
  else match family a with
       | AF_INET => memcmp (ip a) (ip b) 4
       | AF_INET6 => memcmp (ip a) (ip b) 16
       | AF_UNSPEC => 1
       end.

Definition mud_cmp_addr (a b : sockaddr) : Z :=
  if negb (bool_decide (sa_family_of a = sa_family_of b)) then 1
  else match sa_family_of a with
       | AF_INET =>
           if negb (sin_port a =? sin_port b)
              || negb (memcmp (sin_addr a) (sin_addr b) 4 =? 0)
           then 1 else 0
       | AF_INET6 =>
           if negb (sin_port a =? sin_port b)
              || negb (memcmp (sin_addr a) (sin_addr b) 16 =? 0)
           then 1 else 0
       | AF_UNSPEC => 1
       end.

(** ** Path table *)

Definition mud_set_path (p : path) (l : ipaddr) (a : sockaddr) : path :=
  let p := set_endpoints l (addr p) [] (tc p) p in
  match sa_family_of a with
  | AF_INET =>
      set_endpoints l a
        [ {| cmsg_level_of := IPPROTO_IP; cmsg_type_of := MUD_PKTINFO;
             cmsg_data := in_pktinfo_with_dst (ip l) |};
          {| cmsg_level_of := IPPROTO_IP; cmsg_type_of := IP_TOS;
             cmsg_data := zeros 4 |} ]
        (Some 1%nat) p
  | AF_INET6 =>
      set_endpoints l a
        [ {| cmsg_level_of := IPPROTO_IPV6; cmsg_type_of := IPV6_PKTINFO;
             cmsg_data := in6_pktinfo_with_addr (ip l) |};
          {| cmsg_level_of := IPPROTO_IPV6; cmsg_type_of := IPV6_TCLASS;
             cmsg_data := zeros 4 |} ]
        (Some 1%nat) p
  | AF_UNSPEC => p
  end.

(** The search of [mud_path]: the position of the first path with these
    two addresses. *)
Fixpoint find_path (l : ipaddr) (a : sockaddr) (ps : list path) : option nat :=
  match ps with
  | [] => None
  | p :: ps' =>
      if negb (mud_cmp_ipaddr l (local_addr p) =? 0) then
        Datatypes.S <$> find_path l a ps'
      else if negb (mud_cmp_addr a (addr p) =? 0) then
        Datatypes.S <$> find_path l a ps'
      else Some 0%nat
  end.

Definition calloc : M bool := fun s =>
  let w := snd s in
  (negb (calloc_fails E (allocs w)), (fst s, allocated w)).

(** [mud_path]: [None] is the null pointer.  A new path is put at the
    head of the list, which moves the others one position down. *)
Definition mud_path (l : ipaddr) (a : sockaddr) (create : bool)
    : M (option nat) :=
  if negb (bool_decide (family l = sa_family_of a)) then mret None
  else
    m ← get_mud;
    match find_path l a (paths m) with
    | Some i => mret (Some i)
    | None =>
        if negb create then mret None
        else
          ok ← calloc;
          if negb ok then mret None
          else
            modify_mud (fun m => set_paths (mud_set_path zero_path l a :: paths m) m);;
            mret (Some 0%nat)
    end.

(** ** Sending on a path *)

Definition write_tc (t : Z) (p : path) : path :=
  match tc p with
  | Some j =>
      set_ctrl (alter (fun c => {| cmsg_level_of := cmsg_level_of c;
                                   cmsg_type_of := cmsg_type_of c;
                                   cmsg_data := memcpy (cmsg_data c) (int_bytes t) 4 |})
                      j (ctrl p)) p
  | None => p
  end.

(** [sendmsg]: the datagram is recorded; the result is its size or -1. *)
Definition sendmsg (i : nat) (p : path) (data : list byte) : M Z := fun s =>
  let w := snd s in
  let failed := sendmsg_fails E (length (wire w)) in
  (if failed then -1 else len data,
   (fst s, log {| via := i; msg_name := addr p; msg_control := ctrl p;
                  msg_data := data |} w)).

Definition mud_send_path (i : nat) (now : Z) (data : list byte) (size : Z)
    (t : Z) : M Z :=
  if size =? 0 then mret 0
  else
    modify_path i (write_tc t);;
    p ← get_path i;
    r ← sendmsg i p (take (Z.to_nat size) data);
    modify_path i (set_send_time now);;
    mret r.

(** ** Configuration *)

Definition mud_set_key (k : list byte) (size : Z) (m : mud) : Z * option errno * mud :=
  if size <? MUD_KEY_SIZE then (-1, Some EINVAL, m)
  else
    let c := crypto m in
    let half h := {| key := memcpy (key h) k 32; state := state h |} in
    let priv := {| encrypt := half (encrypt (private c));
                   decrypt := half (decrypt (private c));
                   aes := aes (private c) |} in
    (0, None, set_crypto (set_ring priv priv priv priv c) m).

Definition mud_get_mtu (m : mud) : Z :=
  if (mtu_remote (mtu m) =? 0) || (mtu_local (mtu m) <? mtu_remote (mtu m))
  then mtu_local (mtu m)
  else mtu_remote (mtu m).

Definition mud_set_mtu (v : Z) (m : mud) : Z * option errno * mud :=
  if (v <? 500) || (v >? MUD_PACKET_MAX_SIZE - 50) then (-1, Some EINVAL, m)
  else if negb (mtu_local (mtu m) =? v) then
    (0, None, set_mtu_t (set_mtu_send_time 0 (set_mtu_local v (mtu m))) m)
  else (0, None, m).

Definition mud_set_send_timeout_msec (msec : Z) (m : mud) : Z * option errno * mud :=
  if msec =? 0 then (-1, Some EINVAL, m)
  else (0, None, set_send_timeout (u64 (msec * MUD_ONE_MSEC)) m).

Definition mud_set_time_tolerance_sec (sec : Z) (m : mud) : Z * option errno * mud :=
  if sec =? 0 then (-1, Some EINVAL, m)
  else (0, None, set_time_tolerance (u64 (sec * MUD_ONE_SEC)) m).

(** ** Key exchange: a fresh key pair *)

Definition draw (n : nat) : M (list byte) := fun s =>
  let w := snd s in
  (randombytes_buf E (draws w) n, (fst s, drawn w)).

Definition mud_keyx_init : M unit :=
  r ← draw 32;
  modify_crypto (fun c =>
    let sec := store (secret c) r in
    let snd0 := store (pub_send (crypto_public c)) (crypto_scalarmult_base S sec) in
    set_keypair sec
      {| pub_send := <[32%nat := byte_of_Z (crypto_aes c)]> snd0;
         pub_recv := zeros 33 |} c).

(** ** Data frames *)

(** [mud_encrypt]: [dst] is the buffer of the caller, [len dst] its size;
    the result is the size of the frame and the buffer with the frame at
    its start. *)
Definition mud_encrypt (m : mud) (nonce : Z) (dst : list byte)
    (src : list byte) : Z * list byte :=
  if nonce =? 0 then (0, dst)
  else
    let size := u64 (len src + MUD_PACKET_MIN_SIZE) in
    if size >? len dst then (0, dst)
    else
      let np := memcpy (zeros 16) (mud_write48 nonce) 6 in
      let dst := memcpy dst np 6 in
      let opt := {| src := src; ad := take 6 dst; npub := np |} in
      let k := if negb (use_next (crypto m) =? 0) then next (crypto m)
               else current (crypto m) in
      let c := snd (mud_encrypt_opt k opt) in
      (int32 size, take 6 dst ++ store (drop 6 dst) c).

(** [mud_decrypt]: [dst] is the buffer of the caller; the result is -1, 0
    or the size of the plaintext, together with the buffer as the calls of
    libsodium leave it. *)
Definition mud_decrypt (dst src : list byte) : M (Z * list byte) :=
  let size := u64 (len src - MUD_PACKET_MIN_SIZE) in
  if size >? len dst then mret (0, dst)
  else
    let opt := {| src := drop 6 src; ad := take 6 src;
                  npub := memcpy (zeros 16) src 6 |} in
    m ← get_mud;
    let r1 := mud_decrypt_opt (current (crypto m)) opt in
    let dst := store dst (snd r1) in
    if negb (fst r1 =? 0) then
      let r2 := mud_decrypt_opt (next (crypto m)) opt in
      let dst := store dst (snd r2) in
      if fst r2 =? 0 then
        mud_keyx_init;;
        modify_crypto (fun c => set_last (current c) c);;
        modify_crypto (fun c => set_current (next c) c);;
        modify_crypto (set_use_next 0);;
        mret (int32 size, dst)
      else
        let r3 := mud_decrypt_opt (last (crypto m)) opt in
        let dst := store dst (snd r3) in
        if negb (fst r3 =? 0) then
          let r4 := mud_decrypt_opt (private (crypto m)) opt in
          let dst := store dst (snd r4) in
          if negb (fst r4 =? 0) then mret (-1, dst)
          else mret (int32 size, dst)
        else mret (int32 size, dst)
    else mret (int32 size, dst).

(** ** Local address of a received datagram *)

(** [mud_localaddr], with [IP_PKTINFO] for the IPv4 message; [None] is
    the result 1. *)
Definition mud_localaddr (cmsgs : list cmsghdr) (fam : sa_family)
    : option ipaddr :=
  let lvl := if bool_decide (fam = AF_INET6) then IPPROTO_IPV6 else IPPROTO_IP in
  let typ := if bool_decide (fam = AF_INET6) then IPV6_PKTINFO else MUD_PKTINFO in
  match list_find (fun c => cmsg_level_of c = lvl ∧ cmsg_type_of c = typ) cmsgs with
  | None => None
  | Some (_, c) =>
      Some {| family := fam;
              ip := if bool_decide (fam = AF_INET)
                    then MUD_PKTINFO_SRC (cmsg_data c)
                    else take 16 (cmsg_data c) |}
  end.

(** ** Control packets *)

Definition public_bytes (p : public) : list byte := pub_send p ++ pub_recv p.

Definition ctrl_payload (m : mud) (p : path) (msg : mud_msg) : list byte :=
  match msg with
  | mud_ping => []
  | mud_pong => mud_write48 (sdt p) ++ mud_write48 (rdt p) ++ mud_write48 (rst p)
  | mud_keyx => public_bytes (crypto_public (crypto m))
  | mud_mtux => mud_write48 (u64 (mtu_local (mtu m)))
  | mud_bakx => [byte_of_Z (bak_local (bak p))]
  end.

Definition ctrl_payload_size (msg : mud_msg) : Z :=
  match msg with
  | mud_ping => 0
  | mud_pong => MUD_U48_SIZE * 3
  | mud_keyx => 2 * MUD_PKEY_SIZE
  | mud_mtux => MUD_U48_SIZE
  | mud_bakx => 1
  end.

(** The bytes of a control packet as [mud_ctrl_path] lays them out:
    six zero bytes, the time, the payload, and the MAC that libsodium
    writes after the payload. *)
Definition ctrl_frame (m : mud) (p : path) (msg : mud_msg) (now : Z)
    : list byte :=
  let head := zeros 6 ++ mud_write48 now ++ ctrl_payload m p msg in
  let opt := {| src := []; ad := head; npub := zeros 16 |} in
  head ++ snd (mud_encrypt_opt (private (crypto m)) opt).

Definition mud_ctrl_path (msg : mud_msg) (i : nat) (now : Z) : M unit :=
  m ← get_mud;
  p ← get_path i;
  let size := ctrl_payload_size msg in
  let size := size + (2 * MUD_U48_SIZE + MUD_MAC_SIZE) in
  mud_send_path i now (ctrl_frame m p msg now) size 0;;
  mret tt.

(** The two 98-byte blocks that [mud_recv_keyx] hashes. *)
Record shared := {
  shared_secret : list byte;
  shared_public : public;
}.

Definition shared_bytes (s : shared) : list byte :=
  shared_secret s ++ public_bytes (shared_public s).

(** The end of [mud_recv_keyx]: the shared secret and the two keys of
    [next]; [recv_public] is [shared_recv.public] at that point (the public
    key of the peer, then the public key of the engine). *)
Definition keyx_derive (now : Z) (recv_public : public) : M unit :=
  m ← get_mud;
  let sm := crypto_scalarmult S (secret (crypto m))
              (take 32 (pub_send recv_public)) in
  if negb (fst sm =? 0) then mret tt
  else
    let shared_recv := {| shared_secret := snd sm;
                          shared_public := recv_public |} in
    let shared_send :=
      {| shared_secret := shared_secret shared_recv;
         shared_public := {| pub_send := pub_recv (shared_public shared_recv);
                             pub_recv := pub_send (shared_public shared_recv) |} |} in
    let salt := key (encrypt (private (crypto m))) in
    let k := next (crypto m) in
    let ek := store (key (encrypt k))
                (crypto_generichash S 32 (shared_bytes shared_send) salt) in
    let dk := store (key (decrypt k))
                (crypto_generichash S 32 (shared_bytes shared_recv) salt) in
    let a := (byte_at (pub_send recv_public) 32 =? 1)
             && (byte_at (pub_recv recv_public) 32 =? 1) in
    let k' :=
      {| encrypt := {| key := ek;
                       state := if a then crypto_aead_aes256gcm_beforenm S ek
                                else state (encrypt k) |};
         decrypt := {| key := dk;
                       state := if a then crypto_aead_aes256gcm_beforenm S dk
                                else state (decrypt k) |};
         aes := if a then 1 else 0 |} in
    modify_crypto (set_next k');;
    modify_crypto (set_crypto_recv_time now).

Definition mud_recv_keyx (i : nat) (now : Z) (data : list byte) : M unit :=
  m ← get_mud;
  let ours := crypto_public (crypto m) in
  let recv_public := {| pub_send := take 33 data;
                        pub_recv := take 33 (drop 33 data) |} in
  let sync_send := memcmp (pub_recv recv_public) (pub_send ours) 33 in
  let sync_recv := memcmp (pub_recv ours) (pub_send recv_public) 33 in
  let recv_public :=
    {| pub_send := pub_send recv_public;
       pub_recv := memcpy (pub_recv recv_public) (pub_send ours) 33 |} in
  modify_crypto (fun c =>
    set_public_recv (memcpy (pub_recv (crypto_public c))
                            (pub_send recv_public) 33) c);;
  modify_crypto (set_use_next (if sync_send =? 0 then 1 else 0));;
  (if negb (sync_send =? 0) then mud_ctrl_path mud_keyx i now else mret tt);;
  keyx_derive now recv_public.

(** ** Receive entry point *)

(** What [mud_recv] does to the samples of the path a datagram came in on
    (the two branches on [rdt] and [recv_time], then [rst]). *)
Definition recv_samples (now send_time : Z) (p : path) : path :=
  let p :=
    if negb (rdt p =? 0) then
      let p := set_rdt (u64 (now - recv_time p + 7 * rdt p) / 8) p in
      set_sdt (u64 (send_time - rst p + 7 * sdt p) / 8) p
    else if negb (recv_time p =? 0) then
      let p := set_rdt (u64 (now - recv_time p)) p in
      set_sdt (u64 (send_time - rst p)) p
    else p in
  set_rst send_time p.

(** The part of [mud_recv] that handles a control packet once the path
    is known. *)
Definition recv_ctrl (i : nat) (now send_time : Z) (pkt : list byte) : M unit :=
  let packet_size := len pkt in
  if packet_size =? MUD_KEYX_SIZE then
    mud_recv_keyx i now (drop 12 pkt)
  else if packet_size =? MUD_MTUX_SIZE then
    modify_mtu (set_mtu_remote (int32 (mud_read48 (drop 12 pkt))));;
    p ← get_path i;
    if negb (active p) then mud_ctrl_path mud_mtux i now else mret tt
  else if packet_size =? MUD_PONG_SIZE then
    modify_path i (fun p =>
      let r_sdt' := mud_read48 (drop 12 pkt) in
      let r_rdt' := mud_read48 (drop 18 pkt) in
      let r_rst' := mud_read48 (drop 24 pkt) in
      set_remote_samples r_sdt' r_rdt' r_rst'
        (s64 (send_time - r_rst')) (u64 (now - r_rst')) p)
  else if packet_size =? MUD_BAKX_SIZE then
    modify_path i (set_bak_local 1);;
    modify_path i (set_bak_remote (byte_at pkt 12));;
    p ← get_path i;
    if negb (active p) then mud_ctrl_path mud_bakx i now else mret tt
  else mret tt.

(** The pong that [mud_recv] sends back on the path [p] at position [i]. *)
Definition recv_pong (p : path) (i : nat) (now : Z) : M unit :=
  if (bak_local (bak p) =? 0)
     && negb (recv_time p =? 0)
     && mud_timeout now (pong_time p) MUD_PONG_TIMEOUT
  then
    mud_ctrl_path mud_pong i now;;
    modify_path i (set_pong_time now)
  else mret tt.

(** What [mud_recv] knows of a datagram once it has decided to handle it:
    the position of its path, the time of arrival, the time the peer sent
    it, and whether it is a control packet. *)
Record admitted := {
  adm_path : nat;
  adm_now : Z;
  adm_send_time : Z;
  adm_mud_packet : bool;
}.

(** The first part of [mud_recv], for a datagram of more than 22 bytes:
    the clock is read, then come the size of a control packet, the time
    tolerance, the MAC of a control packet, the local address and the
    path.  [None] is any of the [return 0]. *)
Definition recv_admit (d : datagram) : M (option admitted) :=
  let pkt := packet d in
  let packet_size := len pkt in
  now ← mud_now;
  let send_time := mud_read48 pkt in
  let mud_packet := send_time =? 0 in
  if mud_packet && (packet_size <? MUD_PACKET_SIZEOF MUD_U48_SIZE)
  then mret None
  else
    let send_time :=
      if mud_packet then mud_read48 (drop 6 pkt) else send_time in
    m ← get_mud;
    if mud_abs_diff now send_time >=? time_tolerance m then mret None
    else
      let opt :=
        {| src := drop (Z.to_nat (packet_size - MUD_MAC_SIZE)) pkt;
           ad := take (Z.to_nat (packet_size - MUD_MAC_SIZE)) pkt;
           npub := zeros 16 |} in
      if mud_packet
         && negb (fst (mud_decrypt_opt (private (crypto m)) opt) =? 0)
      then mret None
      else
        let a := mud_unmapv4 (msg_from d) in
        match mud_localaddr (msg_cmsgs d) (sa_family_of a) with
        | None => mret None
        | Some l =>
            o ← mud_path l a mud_packet;
            mret ((fun i => {| adm_path := i; adm_now := now;
                               adm_send_time := send_time;
                               adm_mud_packet := mud_packet |}) <$> o)
        end.

(** What [mud_recv] does to the path of an admitted datagram: the
    samples, the pong, [recv_time]. *)
Definition recv_path_update (i : nat) (now send_time : Z) : M unit :=
  modify_path i (recv_samples now send_time);;
  p ← get_path i;
  recv_pong p i now;;
  modify_path i (set_recv_time now).

(** The second part of [mud_recv]: the path, then the control packet or
    the data frame. *)
Definition recv_handle (a : admitted) (pkt data : list byte) : M (Z * list byte) :=
  let i := adm_path a in
  let now := adm_now a in
  recv_path_update i now (adm_send_time a);;
  if adm_mud_packet a then
    recv_ctrl i now (adm_send_time a) pkt;;
    mret (0, data)
  else
    rd ← mud_decrypt data pkt;
    if fst rd =? -1 then
      modify_crypto (set_bad_key 1);;
      mret (0, snd rd)
    else mret rd.

(** [mud_recv]: [r] is what [recvmsg] returned, [data] the buffer of the
    caller ([len data] is its size).  The result is the value returned and
    the buffer afterwards. *)
Definition mud_recv (r : recvmsg_result) (data : list byte) : M (Z * list byte) :=
  match r with
  | recvmsg_error => mret (-1, data)
  | recvmsg_ok d =>
      if len (packet d) <=? MUD_PACKET_MIN_SIZE then mret (0, data)
      else
        a ← recv_admit d;
        match a with
        | None => mret (0, data)
        | Some a => recv_handle a (packet d) data
        end
  end.

(** ** Control tick *)

(** The body of the loop of [mud_send_ctrl] for the path at position [i]. *)
Definition send_ctrl_path (i : nat) : M unit :=
  now ← mud_now;
  p ← get_path i;
  m ← get_mud;
  if negb (active p) then
    if negb (bad_key (crypto m) =? 0)
       && mud_timeout now (crypto_send_time (crypto m)) (send_timeout m)
    then
      mud_ctrl_path mud_keyx i now;;
      modify_crypto (set_crypto_send_time now);;
      modify_crypto (set_bad_key 0)
    else mret tt
  else if mud_timeout now (crypto_send_time (crypto m)) (send_timeout m)
          && mud_timeout now (crypto_recv_time (crypto m)) MUD_KEYX_TIMEOUT
  then
    mud_ctrl_path mud_keyx i now;;
    modify_crypto (set_crypto_send_time now)
  else if (mtu_remote (mtu m) =? 0)
          && mud_timeout now (mtu_send_time (mtu m)) (send_timeout m)
  then
    mud_ctrl_path mud_mtux i now;;
    modify_mtu (set_mtu_send_time now)
  else if (negb (bak_local (bak p) =? 0) && (bak_remote (bak p) =? 0))
          && mud_timeout now (bak_send_time (bak p)) (send_timeout m)
  then
    mud_ctrl_path mud_bakx i now;;
    modify_path i (set_bak_send_time now)
  else if send_time p =? 0 then mud_ctrl_path mud_ping i now
  else mret tt.

Definition mud_send_ctrl : M unit :=
  m ← get_mud;
  for_each (seq 0 (length (paths m))) send_ctrl_path.

(** ** Egress selector *)

(** The deadline [limit] that [mud_send] computes for a path. *)
Definition path_limit (now : Z) (p : path) : Z :=
  let limit0 := s64 (limit p) in
  let elapsed := u64 (now - send_time p) in
  if u64 limit0 >? elapsed then s64 (limit0 + (rtt p / 2 - elapsed))
  else s64 (rtt p / 2).

(** The first loop of [mud_send]: [acc] is [(path_min, limit_min)]. *)
Fixpoint send_select (now : Z) (pkt : list byte) (packet_size t : Z)
    (l : list nat) (acc : option nat * Z) : M (option nat * Z) :=
  match l with
  | [] => mret acc
  | i :: l' =>
      p ← get_path i;
      if negb (bak_local (bak p) =? 0) then
        send_select now pkt packet_size t l' acc
      else
        let lim := path_limit now p in
        m ← get_mud;
        if mud_timeout now (recv_time p) (send_timeout m) then
          mud_send_path i now pkt (u64 packet_size) t;;
          modify_path i (set_limit (u64 lim));;
          send_select now pkt packet_size t l' acc
        else if snd acc >? lim then
          send_select now pkt packet_size t l' (Some i, lim)
        else send_select now pkt packet_size t l' acc
  end.

(** The second loop: the first path with [bak.local] set. *)
Definition first_backup (ps : list path) : option nat :=
  fst <$> list_find (fun p => bak_local (bak p) ≠ 0) ps.

(** The part of [mud_send] that follows the control tick: the result is
    the value returned and [errno] where the function sets it. *)
Definition send_data (data : list byte) (t : Z) : M (Z * option errno) :=
  let size := len data in
  if size =? 0 then mret (0, None)
  else
    m ← get_mud;
    if size >? u64 (mud_get_mtu m) then mret (-1, Some EMSGSIZE)
    else
      now ← mud_now;
      let enc := mud_encrypt m now (zeros 2048) data in
      let packet_size := fst enc in
      if packet_size =? 0 then mret (-1, Some EINVAL)
      else
        sel ← send_select now (snd enc) packet_size t
                (seq 0 (length (paths m))) (None, INT64_MAX);
        m ← get_mud;
        let pick :=
          match fst sel with
          | Some i => Some i
          | None => first_backup (paths m)
          end in
        match pick with
        | None => mret (0, None)
        | Some i =>
            r ← mud_send_path i now (snd enc) (u64 packet_size) t;
            (if r =? packet_size then modify_path i (set_limit (u64 (snd sel)))
             else mret tt);;
            mret (int32 r, None)
        end.

Definition mud_send (data : list byte) (t : Z) : M (Z * option errno) :=
  mud_send_ctrl;;
  send_data data t.

End engine.

(** ** Creating an engine and its peers *)

(** [calloc (1, sizeof (struct mud))]. *)
Definition zero_key : crypto_key :=
  {| encrypt := {| key := zeros 32; state := zeros 512 |};
     decrypt := {| key := zeros 32; state := zeros 512 |}; aes := 0 |}.

Definition zero_mud : mud :=
  {| fd := 0; send_timeout := 0; time_tolerance := 0; paths := [];
     crypto := {| crypto_recv_time := 0; crypto_send_time := 0;
                  secret := zeros 32;
                  crypto_public := {| pub_send := zeros 33; pub_recv := zeros 33 |};
                  private := zero_key; last := zero_key; next := zero_key;
                  current := zero_key; use_next := 0; crypto_aes := 0;
                  bad_key := 0 |};
     mtu := {| mtu_send_time := 0; mtu_remote := 0; mtu_local := 0 |} |}.

Section create.

Context (S : sodium) (E : env).

(** [mud_create] once the socket [sock] exists: the engine replaces the
    state the monad carries. *)
Definition mud_create (sock : Z) (want_aes mtu0 : Z) : M unit :=
  modify_mud (fun _ =>
    {| fd := sock; send_timeout := MUD_SEND_TIMEOUT;
       time_tolerance := MUD_TIME_TOLERANCE; paths := [];
       crypto := crypto zero_mud;
       mtu := set_mtu_local mtu0 (mtu zero_mud) |});;
  k ← draw E 32;
  modify_mud (fun m => snd (mud_set_key k 32 m));;
  modify_crypto (set_crypto_aes
    (if negb (want_aes =? 0)
        && negb (crypto_aead_aes256gcm_is_available S =? 0) then 1 else 0));;
  mud_keyx_init S E.

(** [mud_peer] once the two literals have been parsed into [l] and [a]. *)
Definition mud_peer (l : ipaddr) (a : sockaddr) (backup : Z)
    : M (Z * option errno) :=
  o ← mud_path E l (mud_unmapv4 a) true;
  match o with
  | None => mret (-1, Some ENOMEM)
  | Some i =>
      modify_path i (set_active true);;
      modify_path i (set_bak_local (if backup =? 0 then 0 else 1));;
      mret (0, None)
  end.

End create.

(** ** What the engine expects of libsodium *)

(** Opening what was sealed under the same key, nonce and associated data
    gives back the message; a sealed message is 16 bytes longer. *)
Definition aead_correct (S : sodium) : Prop :=
  (forall m a n k,
     crypto_aead_chacha20poly1305_decrypt S
       (snd (crypto_aead_chacha20poly1305_encrypt S m a n k)) a n k = (0, m))
  /\ (forall m a n k,
     crypto_aead_aes256gcm_decrypt_afternm S
       (snd (crypto_aead_aes256gcm_encrypt_afternm S m a n k)) a n k = (0, m))
  /\ (forall m a n k,
     length (snd (crypto_aead_chacha20poly1305_encrypt S m a n k))
     = (length m + 16)%nat)
  /\ (forall m a n k,
     length (snd (crypto_aead_aes256gcm_encrypt_afternm S m a n k))
     = (length m + 16)%nat).

(** ** A small instance of the outside world

    Simple stand-ins with the interface of libsodium, and a system whose
    clock advances by one millisecond at each reading.  They serve to run the
    engine on concrete inputs. *)
Module Toy.

Definition xor_byte (a b : byte) : byte :=
  byte_of_Z (Z.lxor (Z_of_byte a) (Z_of_byte b)).

Fixpoint xor_bytes (a b : list byte) : list byte :=
  match a, b with
  | x :: a', y :: b' => xor_byte x y :: xor_bytes a' b'
  | _, _ => []
  end.

(** A positional checksum of [key ++ input], written on [n] bytes. *)
Definition digest (n : nat) (input k : list byte) : list byte :=
  let h := fold_left (fun h b => (h * 257 + Z_of_byte b + 1) mod 2 ^ (8 * Z.of_nat n))
             (k ++ input) 7 in
  (fun i => byte_of_Z (Z.shiftr h (8 * Z.of_nat i))) <$> seq 0 n.

Definition tag (m a n k : list byte) : list byte :=
  digest 16 (n ++ a ++ m) k.

(** The message is left in clear and followed by its tag. *)
Definition seal (m a n k : list byte) : Z * list byte :=
  (0, m ++ tag m a n k).

Definition open (c a n k : list byte) : Z * list byte :=
  if (length c <? 16)%nat then (-1, [])
  else
    let mlen := (length c - 16)%nat in
    let m := take mlen c in
    if bool_decide (drop mlen c = tag m a n k) then (0, m)
    else (-1, zeros mlen).

Definition scalarmult (n p : list byte) : Z * list byte :=
  let q := xor_bytes n p in
  (if bool_decide (q = zeros 32) then -1 else 0, q).

Definition basepoint : list byte := x09 :: zeros 31.

Definition S : sodium := {|
  crypto_scalarmult_base := fun n => snd (scalarmult n basepoint);
  crypto_scalarmult := scalarmult;
  crypto_generichash := digest;
  crypto_aead_aes256gcm_is_available := 1;
  crypto_aead_aes256gcm_beforenm := fun k => rev k;
  crypto_aead_aes256gcm_encrypt_afternm := seal;
  crypto_aead_aes256gcm_decrypt_afternm := open;
  crypto_aead_chacha20poly1305_encrypt := seal;
  crypto_aead_chacha20poly1305_decrypt := open;
|}.

(** The clock starts at [t0] seconds and gains a millisecond at each
    reading; the [k]-th draw repeats the byte [seed + k]; [calloc] and
    [sendmsg] succeed. *)
Definition E (t0 seed : Z) : env := {|
  clock_gettime := fun k => (t0, Z.of_nat k * 1000000);
  randombytes_buf := fun k n => replicate n (byte_of_Z (seed + Z.of_nat k));
  calloc_fails := fun _ => false;
  sendmsg_fails := fun _ => false;
|}.

Definition psk : list byte := replicate 32 x01.

Definition v4 (a b c d : byte) : list byte := [a; b; c; d].

Definition ip4 (a : list byte) : ipaddr := {| family := AF_INET; ip := a |}.
Definition sock4 (a : list byte) (port : Z) : sockaddr :=
  {| sa_family_of := AF_INET; sin_port := port; sin_addr := a |}.

(** A received datagram with the [IP_PKTINFO] message of its destination. *)
Definition dgram4 (pkt from to : list byte) (port : Z) : datagram :=
  {| packet := pkt; msg_from := sock4 from port;
     msg_cmsgs := [ {| cmsg_level_of := IPPROTO_IP; cmsg_type_of := MUD_PKTINFO;
                       cmsg_data := zeros 8 ++ to |} ] |}.

End Toy.

(** ** Two engines and their exchanges

    The engines A (10.0.0.1) and B (10.0.0.2) share the key [Toy.psk] and
    have each other as peer.  A sends its keyx, B answers, A commits to
    [next] and sends 64 bytes of data. *)
Module Scenario.

Import Toy.

Definition addrA : list byte := v4 x0a x00 x00 x01.
Definition addrA' : list byte := v4 x0a x00 x01 x01.
Definition addrB : list byte := v4 x0a x00 x00 x02.

Definition EA : env := E 1000 17.
Definition EB : env := E 1000 99.

(** [mud_create], [mud_set_key], [mud_peer]. *)
Definition boot (En : env) (local peer : list byte) (mtu0 : Z) : mud * world :=
  let s := snd (mud_create S En 3 0 mtu0 (zero_mud, world0)) in
  let s := (snd (mud_set_key psk 32 (fst s)), snd s) in
  snd (mud_peer En (ip4 local) (sock4 peer 5000) 0 s).

(** The datagram sent last. *)
Definition newest (s : mud * world) : list byte :=
  match wire (snd s) with
  | e :: _ => msg_data e
  | [] => []
  end.

(** [mud_recv] of the packet [pkt] that came from [from] to [to], with a
    buffer of 1500 bytes. *)
Definition deliver (En : env) (pkt from to : list byte) (s : mud * world)
    : Z * list byte * (mud * world) :=
  mud_recv S En (recvmsg_ok (dgram4 pkt from to 5000)) (zeros 1500) s.

Definition a0 : mud * world := boot EA addrA addrB 1400.
Definition b0 : mud * world := boot EB addrB addrA 1400.

Definition a1 : mud * world := snd (mud_send_ctrl S EA a0).
Definition keyx1 : list byte := newest a1.
Definition b1 : mud * world := snd (deliver EB keyx1 addrA addrB b0).
Definition keyx2 : list byte := newest b1.
Definition a2 : mud * world := snd (deliver EA keyx2 addrB addrA a1).

Definition payload : list byte := replicate 64 xaa.
Definition a3 : mud * world := snd (mud_send S EA payload 0 a2).
Definition frame3 : list byte := newest a3.

(** A second engine A whose clock has just passed a multiple of 2^48
    microseconds, with a backup path next to its first path: position 0 is
    the backup path, position 1 the first path. *)
Definition EC : env := E 1970324837 5.
Definition c0 : mud * world :=
  snd (mud_peer EC (ip4 addrA') (sock4 addrB 5000) 1 (boot EC addrA addrB 1400)).

(** A bakx and pings of the peer, as [mud_ctrl_path] builds them. *)
Definition bakx1 : list byte :=
  ctrl_frame S (fst b0) (set_bak_local 1 zero_path) mud_bakx 1000000000.
Definition ping (k : nat) : list byte :=
  ctrl_frame S (fst b0) zero_path mud_ping (1000000000 + Z.of_nat k * 1000).

(** The first [n] pings as A receives them. *)
Definition pings (n : nat) : list datagram :=
  (fun k => dgram4 (ping k) addrB addrA 5000) <$> seq 0 n.

(** A after these pings. *)
Definition pinged (n : nat) : mud * world :=
  foldl (fun s d => snd (mud_recv S EA (recvmsg_ok d) (zeros 1500) s)) a0
    (pings n).

End Scenario.

(** ** Notions used in the statements *)

Section notions.

Context (S : sodium) (E : env).

(** The time the peer sent a packet, as [mud_recv] reads it. *)
Definition wire_send_time (pkt : list byte) : Z :=
  if mud_read48 pkt =? 0 then mud_read48 (drop 6 pkt) else mud_read48 pkt.

(** A key slot whose two directions use the same key material. *)
Definition symmetric (k : crypto_key) : Prop :=
  if aes k =? 0 then key (encrypt k) = key (decrypt k)
  else state (encrypt k) = state (decrypt k).

(** The ring holds one key: the four slots are equal and symmetric, as
    [mud_set_key] leaves them. *)
Definition one_key (m : mud) : Prop :=
  let c := crypto m in
  symmetric (current c)
  /\ next c = current c /\ last c = current c /\ private c = current c.

(** The frame that [mud_encrypt] makes of [P] with the nonce [t] in the
    buffer [dst], handed to [mud_decrypt] with the buffer [buf] in the same
    state, gives back [P]. *)
Definition roundtrip (m : mud) (w : world) (P : list byte) (t : Z)
    (dst buf : list byte) : Prop :=
  let enc := mud_encrypt S m t dst P in
  let frame := take (Z.to_nat (fst enc)) (snd enc) in
  let dec := mud_decrypt S E buf frame (m, w) in
  fst enc = len P + MUD_PACKET_MIN_SIZE
  /\ fst (fst dec) = len P
  /\ take (length P) (snd (fst dec)) = P.

(** The [crypto_opt] that [mud_decrypt] makes of a frame. *)
Definition frame_opt (frame : list byte) : crypto_opt :=
  {| src := drop 6 frame; ad := take 6 frame;
     npub := memcpy (zeros 16) frame 6 |}.

Definition accepts (k : crypto_key) (frame : list byte) : Prop :=
  fst (mud_decrypt_opt S k (frame_opt frame)) = 0.

(** The key pair after [mud_keyx_init] in the state [s]. *)
Definition fresh_keypair (s : mud * world) : list byte * public :=
  let c := crypto (fst s) in
  let sec := store (secret c) (randombytes_buf E (draws (snd s)) 32) in
  (sec,
   {| pub_send := <[32%nat := byte_of_Z (crypto_aes c)]>
                    (store (pub_send (crypto_public c))
                           (crypto_scalarmult_base S sec));
      pub_recv := zeros 33 |}).

(** The state [s'] is [s] after the promotion of [next]: the slots have
    moved, the key pair is fresh, [use_next] is clear; one draw was made. *)
Definition promoted (s s' : mud * world) : Prop :=
  let c := crypto (fst s) in
  let c' := crypto (fst s') in
  last c' = current c
  /\ current c' = next c
  /\ next c' = next c
  /\ private c' = private c
  /\ use_next c' = 0
  /\ (secret c', crypto_public c') = fresh_keypair s
  /\ pub_recv (crypto_public c') = zeros 33
  /\ paths (fst s') = paths (fst s)
  /\ snd s' = drawn (snd s).

(** The key that a keyx with the payload [data] would give to
    [next.encrypt] if the hash were taken over the shared secret and the
    pair [(peer_recv, peer_send)] of the payload. *)
Definition keyx_key_of_payload (c : crypto_t) (data : list byte) : list byte :=
  let peer_send := take 33 data in
  let peer_recv := take 33 (drop 33 data) in
  let q := snd (crypto_scalarmult S (secret c) (take 32 peer_send)) in
  store (key (encrypt (next c)))
    (crypto_generichash S 32 (q ++ peer_recv ++ peer_send)
       (key (encrypt (private c)))).

(** The same with the pair [(public.send, peer_send)]: the engine's own
    public key in the first place. *)
Definition keyx_key_of_engine (c : crypto_t) (data : list byte) : list byte :=
  let peer_send := take 33 data in
  let q := snd (crypto_scalarmult S (secret c) (take 32 peer_send)) in
  store (key (encrypt (next c)))
    (crypto_generichash S 32
       (q ++ take 33 (pub_send (crypto_public c)) ++ peer_send)
       (key (encrypt (private c)))).

(** The control message that the tick owes a path, by priority. *)
Definition keyx_due (m : mud) (now : Z) : bool :=
  mud_timeout now (crypto_send_time (crypto m)) (send_timeout m)
  && mud_timeout now (crypto_recv_time (crypto m)) MUD_KEYX_TIMEOUT.
Definition mtux_due (m : mud) (now : Z) : bool :=
  (mtu_remote (mtu m) =? 0)
  && mud_timeout now (mtu_send_time (mtu m)) (send_timeout m).
Definition bakx_due (m : mud) (p : path) (now : Z) : bool :=
  negb (bak_local (bak p) =? 0) && (bak_remote (bak p) =? 0)
  && mud_timeout now (bak_send_time (bak p)) (send_timeout m).

Definition ctrl_choice (m : mud) (p : path) (now : Z) : option mud_msg :=
  if active p then
    if keyx_due m now then Some mud_keyx
    else if mtux_due m now then Some mud_mtux
    else if bakx_due m p now then Some mud_bakx
    else if send_time p =? 0 then Some mud_ping
    else None
  else if negb (bad_key (crypto m) =? 0)
          && mud_timeout now (crypto_send_time (crypto m)) (send_timeout m)
  then Some mud_keyx
  else None.

(** What [sendmsg] is given when [mud_ctrl_path] sends [msg] on the
    path [p] at position [i]. *)
Definition ctrl_entry (m : mud) (p : path) (msg : mud_msg) (i : nat)
    (now : Z) : sent :=
  {| via := i; msg_name := addr p; msg_control := ctrl (write_tc 0 p);
     msg_data := take (Z.to_nat (ctrl_payload_size msg
                                 + (2 * MUD_U48_SIZE + MUD_MAC_SIZE)))
                   (ctrl_frame S m p msg now) |}.

(** A control packet starts with six zero bytes. *)
Definition is_ctrl_frame (e : sent) : Prop := take 6 (msg_data e) = zeros 6.

(** The datagrams sent between two states. *)
Definition sent_between (s s' : mud * world) (new : list sent) : Prop :=
  wire (snd s') = new ++ wire (snd s).

(** A datagram sent on a path of [ps] whose [bak.local] is clear. *)
Definition on_nonbackup (ps : list path) (e : sent) : Prop :=
  exists p, ps !! via e = Some p /\ bak_local (bak p) = 0.

(** One arrival on a path: the samples, then [recv_time]. *)
Definition arrive (now send_time : Z) (p : path) : path :=
  set_recv_time now (recv_samples now send_time p).

(** [n] arrivals, [delta] apart both on the local clock (from [t0]) and
    on the clock of the peer (from [s0]). *)
Fixpoint arrivals (n : nat) (t0 s0 delta : Z) (p : path) : path :=
  match n with
  | O => p
  | Datatypes.S n' => arrivals n' (t0 + delta) (s0 + delta) delta (arrive t0 s0 p)
  end.

(** Relations between two states of the engine and the world, kept by the
    operations of the monad. *)
Definition keeps_crypto : relation (mud * world) :=
  fun s s' => crypto (fst s) = crypto (fst s').

Definition keeps_config : relation (mud * world) :=
  fun s s' => mtu_local (mtu (fst s)) = mtu_local (mtu (fst s'))
              /\ mtu_remote (mtu (fst s)) = mtu_remote (mtu (fst s'))
              /\ send_timeout (fst s) = send_timeout (fst s')
              /\ time_tolerance (fst s) = time_tolerance (fst s').

Definition keeps_paths (Q : relation path) : relation (mud * world) :=
  fun s s' => Forall2 Q (paths (fst s)) (paths (fst s')).

Definition wire_grows (P : sent -> Prop) : relation (mud * world) :=
  fun s s' => exists new, sent_between s s' new /\ Forall P new.

(** Only the path at position [i] may differ between the two states. *)
Definition touches_only (i : nat) : relation (mud * world) :=
  fun s s' => forall j, j <> i -> paths (fst s') !! j = paths (fst s) !! j.

Definition preserves {A} (R : relation (mud * world)) (c : M A) : Prop :=
  forall s, R s (snd (c s)).

(** A relation that does not look at the counters of the world. *)
Class Blind (R : relation (mud * world)) : Prop :=
  blind : forall m w w', wire w' = wire w -> R (m, w) (m, w').

(** The data frame of [mud_send data t] in the state [s] goes only to
    paths whose [bak.local] is clear: every datagram sent after the control
    tick uses such a path. *)
Definition data_avoids_backup (data : list byte) (t : Z) (s : mud * world)
    : Prop :=
  let s1 := snd (mud_send_ctrl S E s) in
  wire_grows (on_nonbackup (paths (fst s1))) s1 (snd (mud_send S E data t s)).

(** Backup preference with the bare comparison of the clock: some path
    with [bak.local] clear has [now - recv_time < send_timeout], [now]
    being the time that [mud_send] stamps on the frame. *)
Definition heard_of_lately (data : list byte) (t : Z) (s : mud * world) : Prop :=
  let s1 := snd (mud_send_ctrl S E s) in
  let now := clock_value E (clock_reads (snd s1)) in
  exists i p, paths (fst s1) !! i = Some p
    /\ bak_local (bak p) = 0
    /\ now - recv_time p < send_timeout (fst s1).

(** A path that [mud_send] can choose at the time [now]: not a backup,
    heard of within [timeout] as [mud_timeout] decides it, with a deadline
    below the initial [limit_min]. *)
Definition candidate (ps : list path) (timeout now : Z) (i : nat) : Prop :=
  exists p, ps !! i = Some p
    /\ bak_local (bak p) = 0
    /\ mud_timeout now (recv_time p) timeout = false
    /\ path_limit now p < INT64_MAX.

(** What the first loop of [mud_send] maintains of [(path_min, limit_min)]. *)
Definition acc_ok (ps : list path) (acc : option nat * Z) : Prop :=
  match fst acc with
  | None => snd acc = INT64_MAX
  | Some j => exists p, ps !! j = Some p /\ bak_local (bak p) = 0
  end.

(** Two paths with the same received samples. *)
Definition same_samples : relation path :=
  fun p p' => rdt p = rdt p' /\ sdt p = sdt p' /\ rst p = rst p'
              /\ recv_time p = recv_time p'.

(** Two paths with the same addresses, role and backup flags. *)
Definition same_role : relation path :=
  fun p p' => local_addr p = local_addr p' /\ addr p = addr p'
              /\ active p = active p'
              /\ bak_local (bak p) = bak_local (bak p')
              /\ bak_remote (bak p) = bak_remote (bak p').

(** The datagrams [ds] handed to [mud_recv] one after the other, with
    the buffer [data]: the result is the state after the last one, provided
    each is admitted on the path at position [i] without creating a path,
    the first at the time [t] with the send time [st], the next ones [delta]
    later each.  ([mud_path] leaves the list alone or adds one path, so
    the two lengths tell whether a path was created.) *)
Fixpoint regular_run (i : nat) (delta : Z) (ds : list datagram) (t st : Z)
    (data : list byte) (s : mud * world) : option (mud * world) :=
  match ds with
  | [] => Some s
  | d :: ds' =>
      if len (packet d) <=? MUD_PACKET_MIN_SIZE then None
      else
        let r := recv_admit S E d s in
        match fst r with
        | Some a =>
            if (adm_path a =? i)%nat && (adm_now a =? t)
               && (adm_send_time a =? st)
               && (length (paths (fst (snd r))) =? length (paths (fst s)))%nat
            then regular_run i delta ds' (t + delta) (st + delta) data
                   (snd (mud_recv S E (recvmsg_ok d) data s))
            else None
        | None => None
        end
  end.

End notions.

(** ** The rest of the interface *)

(** [mud_get_key]: [buf] is the buffer [key] of the caller and [size] what
    [*size] holds, [None] for a null pointer; the result gives the buffer
    and [*size] as they are left. *)
Definition mud_get_key (buf : option (list byte)) (size : option Z) (m : mud)
    : Z * option errno * option (list byte) * option Z :=
  match buf, size with
  | Some b, Some n =>
      if n <? MUD_KEY_SIZE then (-1, Some EINVAL, buf, size)
      else (0, None,
            Some (memcpy b (key (encrypt (private (crypto m)))) 32),
            Some MUD_KEY_SIZE)
  | _, _ => (-1, Some EINVAL, buf, size)
  end.

(** The two functions of the C library that the engine parses addresses
    with.  [inet_pton af src] is [Some] of the address when the call
    returns 1; a C string is the list of its bytes. *)
Record libc := {
  inet_pton : sa_family -> list byte -> option (list byte);
  htons : Z -> Z;
}.

Section literals.

Context (L : libc) (E : env).

(** [mud_addrinfo]: the result, [errno] where the function sets it, and
    the address written through [addr] (left alone on failure).  The port
    goes through the [uint16_t] parameter of [htons]. *)
Definition mud_addrinfo (a0 : sockaddr) (host : list byte) (port : Z)
    : Z * option errno * sockaddr :=
  match inet_pton L AF_INET host with
  | Some a =>
      (0, None, {| sa_family_of := AF_INET;
                   sin_port := htons L (port mod 2 ^ 16); sin_addr := a |})
  | None =>
      match inet_pton L AF_INET6 host with
      | Some a =>
          (0, None, {| sa_family_of := AF_INET6;
                       sin_port := htons L (port mod 2 ^ 16); sin_addr := a |})
      | None => (-1, Some EINVAL, a0)
      end
  end.

(** [mud_ipaddrinfo]; [name] is [None] for a null pointer. *)
Definition mud_ipaddrinfo (l0 : ipaddr) (name : option (list byte))
    : Z * option errno * ipaddr :=
  match name with
  | None => (-1, Some EINVAL, l0)
  | Some n =>
      match inet_pton L AF_INET n with
      | Some a => (0, None, {| family := AF_INET; ip := a |})
      | None =>
          match inet_pton L AF_INET6 n with
          | Some a => (0, None, {| family := AF_INET6; ip := a |})
          | None => (-1, None, l0)
          end
      end
  end.

(** [mud_peer] from the arguments of the caller: the tests and the two
    parsers, then the part modelled by [mud_peer] above.  The two local
    structures start out with whatever the stack holds ([l0], [a0]). *)
Definition mud_peer_args (l0 : ipaddr) (a0 : sockaddr)
    (name host : option (list byte)) (port backup : Z)
    : M (Z * option errno) :=
  match name, host with
  | Some _, Some h =>
      if port =? 0 then mret (-1, Some EINVAL)
      else
        let r := mud_ipaddrinfo l0 name in
        if negb (fst (fst r) =? 0) then mret (-1, snd (fst r))
        else
          let r' := mud_addrinfo a0 h port in
          if negb (fst (fst r') =? 0) then mret (-1, snd (fst r'))
          else mud_peer E (snd r) (snd r') backup
  | _, _ => mret (-1, Some EINVAL)
  end.

End literals.

(** A stand-in for [inet_pton] that takes an address written as its raw
    bytes, 4 for IPv4 and 16 for IPv6, and a [htons] that swaps the two
    bytes of the port. *)
Module ToyC.

Definition raw (f : sa_family) (s : list byte) : option (list byte) :=
  match f with
  | AF_INET => if (length s =? 4)%nat then Some s else None
  | AF_INET6 => if (length s =? 16)%nat then Some s else None
  | AF_UNSPEC => None
  end.

Definition L : libc :=
  {| inet_pton := raw;
     htons := fun p => (p mod 256) * 256 + p / 256 |}.

End ToyC.

(** ** Further notions *)

(** The size of the address of a family as the socket layer holds it. *)
Definition addr_size (f : sa_family) : option nat :=
  match f with
  | AF_INET => Some 4%nat
  | AF_INET6 => Some 16%nat
  | AF_UNSPEC => None
  end.

Definition wf_ipaddr (l : ipaddr) : Prop :=
  addr_size (family l) = Some (length (ip l)).
Definition wf_sockaddr (a : sockaddr) : Prop :=
  addr_size (sa_family_of a) = Some (length (sin_addr a)).

(** A path that the search of [mud_path] takes for the pair [(l, a)]. *)
Definition path_matches (l : ipaddr) (a : sockaddr) (p : path) : Prop :=
  mud_cmp_ipaddr l (local_addr p) = 0 /\ mud_cmp_addr a (addr p) = 0.

(** Two paths with the same addresses and the same [state.active]. *)
Definition same_endpoints : relation path :=
  fun p p' => local_addr p = local_addr p' /\ addr p = addr p'
              /\ active p = active p'.

(** A relation between two states: the part [g] of the engine is the
    same. *)
Definition keeps {X} (g : mud -> X) : relation (mud * world) :=
  fun s s' => g (fst s) = g (fst s').

(** What only the configuration functions change: the socket, the two
    timeouts, the local MTU, the private key and the AES flag. *)
Definition setup_of (m : mud) : Z * Z * Z * Z * crypto_key * Z :=
  (fd m, send_timeout m, time_tolerance m, mtu_local (mtu m),
   private (crypto m), crypto_aes (crypto m)).

(** The key material: the key pair, the four slots and [use_next]. *)
Definition keys_of (m : mud)
    : list byte * public * crypto_key * crypto_key * crypto_key * crypto_key * Z :=
  let c := crypto m in
  (secret c, crypto_public c, private c, last c, next c, current c, use_next c).

(** The test that [mud_recv] makes of the MAC of a control packet. *)
Definition ctrl_mac_ok (S : sodium) (m : mud) (pkt : list byte) : Prop :=
  fst (mud_decrypt_opt S (private (crypto m))
         {| src := drop (Z.to_nat (len pkt - MUD_MAC_SIZE)) pkt;
            ad := take (Z.to_nat (len pkt - MUD_MAC_SIZE)) pkt;
            npub := zeros 16 |}) = 0.

(** The slot that [mud_encrypt] seals with. *)
Definition send_slot (m : mud) : crypto_key :=
  if negb (use_next (crypto m) =? 0) then next (crypto m)
  else current (crypto m).

(** The slot [kr] opens what the slot [ks] seals: the same cipher, and
    the key material of the one for encryption is that of the other for
    decryption. *)
Definition opens (ks kr : crypto_key) : Prop :=
  (aes ks =? 0) = (aes kr =? 0)
  /\ if aes ks =? 0 then key (encrypt ks) = key (decrypt kr)
     else state (encrypt ks) = state (decrypt kr).

(** * Properties *)

(** ** Integers, buffers and the monad *)

Lemma u64_small x : 0 <= x < 2 ^ 64 -> u64 x = x.
Proof. intros H. unfold u64. apply Z.mod_small. exact H. Qed.

Lemma int32_small x : 0 <= x < 2 ^ 31 -> int32 x = x.
Proof.
  intros H. unfold int32. rewrite Z.mod_small by lia.
  destruct (Z.ltb_spec x (2 ^ 31)); lia.
Qed.

Lemma len_app a b : len (a ++ b) = len a + len b.
Proof. unfold len. rewrite length_app. lia. Qed.

Lemma memcpy_over_take dst src n :
  memcpy (take n dst) src n = take n src.
Proof.
  unfold memcpy. rewrite drop_ge, app_nil_r; [reflexivity|].
  rewrite length_take. lia.
Qed.

(** Six zero bytes at the head of a packet read as the number zero. *)
Lemma read48_zero_prefix pkt : take 6 pkt = zeros 6 -> mud_read48 pkt = 0.
Proof.
  intros H.
  do 6 (destruct pkt as [|? pkt]; [discriminate H|]).
  simpl in H. injection H as -> -> -> -> -> ->. reflexivity.
Qed.

Lemma bind_value {A B} (c : M A) (f : A -> M B) s :
  fst ((c ≫= f) s) = fst (f (fst (c s)) (snd (c s))).
Proof. unfold mbind, M_bind. destruct (c s). reflexivity. Qed.

Lemma bind_state {A B} (c : M A) (f : A -> M B) s :
  snd ((c ≫= f) s) = snd (f (fst (c s)) (snd (c s))).
Proof. unfold mbind, M_bind. destruct (c s). reflexivity. Qed.

(** ** The stand-in for the AEAD is correct *)

Lemma toy_tag_length m a n k : length (Toy.tag m a n k) = 16%nat.
Proof. unfold Toy.tag, Toy.digest. rewrite length_fmap, length_seq. reflexivity. Qed.

Lemma toy_open_seal m a n k : Toy.open (snd (Toy.seal m a n k)) a n k = (0, m).
Proof.
  unfold Toy.open, Toy.seal. cbn [snd].
  rewrite length_app, toy_tag_length.
  destruct (Nat.ltb_spec (length m + 16) 16) as [?|_]; [lia|].
  replace (length m + 16 - 16)%nat with (length m) by lia.
  rewrite take_app_length, drop_app_length.
  rewrite bool_decide_eq_true_2 by reflexivity. reflexivity.
Qed.

Lemma toy_aead_correct : aead_correct Toy.S.
Proof.
  repeat split; intros m a n k; cbn [Toy.S crypto_aead_chacha20poly1305_decrypt
    crypto_aead_chacha20poly1305_encrypt crypto_aead_aes256gcm_decrypt_afternm
    crypto_aead_aes256gcm_encrypt_afternm].
  - apply toy_open_seal.
  - apply toy_open_seal.
  - unfold Toy.seal. cbn [snd]. rewrite length_app, toy_tag_length. reflexivity.
  - unfold Toy.seal. cbn [snd]. rewrite length_app, toy_tag_length. reflexivity.
Qed.

(** ** Relations kept by the operations of the monad *)

#[global] Instance keeps_crypto_preorder : PreOrder keeps_crypto.
Proof.
  split; [intros s; reflexivity|].
  intros s1 s2 s3 H1 H2. unfold keeps_crypto in *. congruence.
Qed.

#[global] Instance keeps_config_preorder : PreOrder keeps_config.
Proof.
  split; [intros s; repeat split|].
  intros s1 s2 s3 (?&?&?&?) (?&?&?&?). repeat split; congruence.
Qed.

#[global] Instance keeps_paths_preorder Q `{!PreOrder Q} : PreOrder (keeps_paths Q).
Proof.
  split.
  - intros s. unfold keeps_paths. reflexivity.
  - intros s1 s2 s3 H1 H2. unfold keeps_paths in *. etrans; eassumption.
Qed.

#[global] Instance wire_grows_preorder P : PreOrder (wire_grows P).
Proof.
  split.
  - intros s. exists []. split; [reflexivity|constructor].
  - intros s1 s2 s3 (n1 & H1 & F1) (n2 & H2 & F2).
    exists (n2 ++ n1). split.
    + unfold sent_between in *. rewrite H2, H1, app_assoc. reflexivity.
    + apply Forall_app. split; assumption.
Qed.

#[global] Instance touches_only_preorder i : PreOrder (touches_only i).
Proof.
  split.
  - intros s j _. reflexivity.
  - intros s1 s2 s3 H1 H2 j Hj. rewrite H2, H1 by exact Hj. reflexivity.
Qed.

#[global] Instance same_samples_preorder : PreOrder same_samples.
Proof.
  split; [intros p; repeat split|].
  intros p1 p2 p3 (?&?&?&?) (?&?&?&?). repeat split; congruence.
Qed.

#[global] Instance same_role_preorder : PreOrder same_role.
Proof.
  split; [intros p; repeat split|].
  intros p1 p2 p3 (?&?&?&?&?) (?&?&?&?&?). repeat split; congruence.
Qed.

#[global] Instance keeps_crypto_blind : Blind keeps_crypto.
Proof. intros m w w' _. reflexivity. Qed.
#[global] Instance keeps_config_blind : Blind keeps_config.
Proof. intros m w w' _. repeat split. Qed.
#[global] Instance keeps_paths_blind Q `{!PreOrder Q} : Blind (keeps_paths Q).
Proof. intros m w w' _. unfold keeps_paths. reflexivity. Qed.
#[global] Instance wire_grows_blind P : Blind (wire_grows P).
Proof. intros m w w' Hw. exists []. split; [exact Hw|constructor]. Qed.
#[global] Instance touches_only_blind i : Blind (touches_only i).
Proof. intros m w w' _ j _. reflexivity. Qed.

Section preserve.

Context (R : relation (mud * world)) `{!PreOrder R}.

Lemma preserves_ret {A} (a : A) : preserves R (mret a).
Proof. intros s. reflexivity. Qed.

Lemma preserves_bind {A B} (c : M A) (f : A -> M B) :
  preserves R c -> (forall a, preserves R (f a)) -> preserves R (c ≫= f).
Proof.
  intros Hc Hf s. rewrite bind_state.
  etrans; [apply Hc|apply Hf].
Qed.

Lemma preserves_read {A} (c : M A) :
  (forall s, snd (c s) = s) -> preserves R c.
Proof. intros H s. rewrite H. reflexivity. Qed.

Lemma preserves_for_each l body :
  (forall i, preserves R (body i)) -> preserves R (for_each l body).
Proof.
  intros Hb. induction l as [|i l IH]; simpl.
  - apply preserves_ret.
  - apply preserves_bind; [apply Hb|intros _; apply IH].
Qed.

Lemma preserves_get_mud : preserves R get_mud.
Proof. apply preserves_read. reflexivity. Qed.

Lemma preserves_get_path i : preserves R (get_path i).
Proof. apply preserves_read. reflexivity. Qed.

End preserve.

Lemma preserves_mud_now E R `{!Blind R} : preserves R (mud_now E).
Proof. intros [m w]. apply blind. reflexivity. Qed.

Lemma preserves_draw E R `{!Blind R} n : preserves R (draw E n).
Proof. intros [m w]. apply blind. reflexivity. Qed.

Lemma preserves_calloc E R `{!Blind R} : preserves R (calloc E).
Proof. intros [m w]. apply blind. reflexivity. Qed.

(** [modify_path] *)
Lemma modify_path_keeps_crypto i f : preserves keeps_crypto (modify_path i f).
Proof. intros s. reflexivity. Qed.
Lemma modify_path_keeps_config i f : preserves keeps_config (modify_path i f).
Proof. intros s. repeat split. Qed.
Lemma modify_path_wire P i f : preserves (wire_grows P) (modify_path i f).
Proof. intros s. exists []. split; [reflexivity|constructor]. Qed.
Lemma modify_path_touches_only i f : preserves (touches_only i) (modify_path i f).
Proof. intros s j Hj. simpl. apply list_lookup_alter_ne. congruence. Qed.
Lemma modify_path_keeps_paths Q `{!PreOrder Q} i f :
  (forall p, Q p (f p)) -> preserves (keeps_paths Q) (modify_path i f).
Proof.
  intros Hf s. unfold keeps_paths. simpl.
  apply Forall2_alter_r; [reflexivity|].
  intros x y _ _ Hxy. etrans; [exact Hxy|apply Hf].
Qed.

(** [modify_crypto] *)
Lemma modify_crypto_keeps_config f : preserves keeps_config (modify_crypto f).
Proof. intros s. repeat split. Qed.
Lemma modify_crypto_wire P f : preserves (wire_grows P) (modify_crypto f).
Proof. intros s. exists []. split; [reflexivity|constructor]. Qed.
Lemma modify_crypto_keeps_paths Q `{!PreOrder Q} f :
  preserves (keeps_paths Q) (modify_crypto f).
Proof. intros s. unfold keeps_paths. simpl. reflexivity. Qed.

(** [modify_mtu] *)
Lemma modify_mtu_keeps_crypto f : preserves keeps_crypto (modify_mtu f).
Proof. intros s. reflexivity. Qed.
Lemma modify_mtu_wire P f : preserves (wire_grows P) (modify_mtu f).
Proof. intros s. exists []. split; [reflexivity|constructor]. Qed.
Lemma modify_mtu_keeps_paths Q `{!PreOrder Q} f :
  preserves (keeps_paths Q) (modify_mtu f).
Proof. intros s. unfold keeps_paths. simpl. reflexivity. Qed.
Lemma set_mtu_send_time_keeps_config v :
  preserves keeps_config (modify_mtu (set_mtu_send_time v)).
Proof. intros s. repeat split. Qed.

(** [sendmsg] *)
Lemma sendmsg_keeps_crypto E i p data : preserves keeps_crypto (sendmsg E i p data).
Proof. intros s. reflexivity. Qed.
Lemma sendmsg_keeps_config E i p data : preserves keeps_config (sendmsg E i p data).
Proof. intros s. repeat split. Qed.
Lemma sendmsg_keeps_paths E Q `{!PreOrder Q} i p data :
  preserves (keeps_paths Q) (sendmsg E i p data).
Proof. intros s. unfold keeps_paths. simpl. reflexivity. Qed.
Lemma sendmsg_touches_only E i j p data :
  preserves (touches_only i) (sendmsg E j p data).
Proof. intros s k _. reflexivity. Qed.
Lemma sendmsg_wire E (P : sent -> Prop) i p data :
  P {| via := i; msg_name := addr p; msg_control := ctrl p; msg_data := data |} ->
  preserves (wire_grows P) (sendmsg E i p data).
Proof.
  intros HP s. eexists [_]. split; [reflexivity|].
  constructor; [exact HP|constructor].
Qed.

Create HintDb pres discriminated.

#[global] Hint Resolve preserves_get_mud preserves_get_path preserves_mud_now
  preserves_draw preserves_calloc
  modify_path_keeps_crypto modify_path_keeps_config modify_path_wire
  modify_path_touches_only
  modify_crypto_keeps_config modify_crypto_wire modify_crypto_keeps_paths
  modify_mtu_keeps_crypto modify_mtu_wire modify_mtu_keeps_paths
  set_mtu_send_time_keeps_config
  sendmsg_keeps_crypto sendmsg_keeps_config sendmsg_keeps_paths
  sendmsg_touches_only : pres.

#[global] Hint Extern 1 (preserves (keeps_paths _) (modify_path _ _)) =>
  (apply modify_path_keeps_paths; [apply _|intros ?; repeat split]) : pres.

(** Splits a computation of the monad along its binds and branches, and
    closes the leaves with the lemmas of the database [pres]. *)
Ltac pres :=
  repeat first
    [ solve [eauto with pres typeclass_instances]
    | solve [apply preserves_ret; apply _]
    | apply preserves_bind; [apply _| |intros ?]
    | match goal with
      | |- preserves _ (if ?b then _ else _) => destruct b
      | |- preserves _ (match ?o with Some _ => _ | None => _ end) => destruct o
      end ].

(** ** Sending on a path *)

Lemma write_tc_same_samples t p : same_samples p (write_tc t p).
Proof. unfold write_tc. destruct (tc p); repeat split. Qed.
Lemma write_tc_same_role t p : same_role p (write_tc t p).
Proof. unfold write_tc. destruct (tc p); repeat split. Qed.
Lemma write_tc_addr t p : addr (write_tc t p) = addr p.
Proof. unfold write_tc. destruct (tc p); reflexivity. Qed.

Lemma mud_send_path_keeps_crypto E i now data size t :
  preserves keeps_crypto (mud_send_path E i now data size t).
Proof. unfold mud_send_path. pres. Qed.

Lemma mud_send_path_keeps_config E i now data size t :
  preserves keeps_config (mud_send_path E i now data size t).
Proof. unfold mud_send_path. pres. Qed.

Lemma mud_send_path_touches_only E i now data size t :
  preserves (touches_only i) (mud_send_path E i now data size t).
Proof. unfold mud_send_path. pres. Qed.

Lemma mud_send_path_keeps_samples E i now data size t :
  preserves (keeps_paths same_samples) (mud_send_path E i now data size t).
Proof.
  unfold mud_send_path. pres.
  apply modify_path_keeps_paths; [apply _|]. apply write_tc_same_samples.
Qed.

Lemma mud_send_path_keeps_role E i now data size t :
  preserves (keeps_paths same_role) (mud_send_path E i now data size t).
Proof.
  unfold mud_send_path. pres.
  apply modify_path_keeps_paths; [apply _|]. apply write_tc_same_role.
Qed.

Lemma mud_send_path_wire E (P : sent -> Prop) i now data size t :
  (forall a c, P {| via := i; msg_name := a; msg_control := c;
                    msg_data := take (Z.to_nat size) data |}) ->
  preserves (wire_grows P) (mud_send_path E i now data size t).
Proof.
  intros HP. unfold mud_send_path. pres.
  apply sendmsg_wire, HP.
Qed.

Lemma mud_send_path_on_nonbackup E ps i now data size t :
  (exists p, ps !! i = Some p /\ bak_local (bak p) = 0) ->
  preserves (wire_grows (on_nonbackup ps)) (mud_send_path E i now data size t).
Proof. intros Hi. apply mud_send_path_wire. intros a c. exact Hi. Qed.

#[global] Hint Resolve mud_send_path_keeps_crypto mud_send_path_keeps_config
  mud_send_path_touches_only mud_send_path_keeps_samples
  mud_send_path_keeps_role : pres.

(** What one call of [mud_send_path] does. *)
Lemma mud_send_path_run E i now data size t m w p :
  paths m !! i = Some p ->
  (size =? 0) = false ->
  mud_send_path E i now data size t (m, w)
  = (if sendmsg_fails E (length (wire w)) then -1
     else len (take (Z.to_nat size) data),
     (set_paths (alter (fun p => set_send_time now (write_tc t p)) i (paths m)) m,
      log {| via := i; msg_name := addr p; msg_control := ctrl (write_tc t p);
             msg_data := take (Z.to_nat size) data |} w)).
Proof.
  intros Hp Hs. unfold mud_send_path. rewrite Hs.
  unfold mbind, M_bind, mret, M_ret, modify_path, modify_mud, get_path, sendmsg.
  simpl. rewrite list_lookup_alter_eq, Hp. simpl.
  rewrite write_tc_addr, list_alter_alter_eq. reflexivity.
Qed.

(** ** Control packets and the control tick *)

Section control.

Context (S : sodium) (E : env).

Lemma ctrl_size_ge msg :
  (6 <= Z.to_nat (ctrl_payload_size msg + (2 * MUD_U48_SIZE + MUD_MAC_SIZE)))%nat.
Proof. destruct msg; vm_compute; lia. Qed.

Lemma ctrl_size_nonzero msg :
  (ctrl_payload_size msg + (2 * MUD_U48_SIZE + MUD_MAC_SIZE) =? 0) = false.
Proof. destruct msg; reflexivity. Qed.

Lemma ctrl_frame_is_ctrl m p msg now i a c :
  is_ctrl_frame
    {| via := i; msg_name := a; msg_control := c;
       msg_data := take (Z.to_nat (ctrl_payload_size msg
                                   + (2 * MUD_U48_SIZE + MUD_MAC_SIZE)))
                     (ctrl_frame S m p msg now) |}.
Proof.
  unfold is_ctrl_frame. simpl. rewrite take_take.
  rewrite Nat.min_l by apply ctrl_size_ge. reflexivity.
Qed.

Lemma mud_ctrl_path_keeps_crypto msg i now :
  preserves keeps_crypto (mud_ctrl_path S E msg i now).
Proof. unfold mud_ctrl_path. pres. Qed.

Lemma mud_ctrl_path_keeps_config msg i now :
  preserves keeps_config (mud_ctrl_path S E msg i now).
Proof. unfold mud_ctrl_path. pres. Qed.

Lemma mud_ctrl_path_keeps_samples msg i now :
  preserves (keeps_paths same_samples) (mud_ctrl_path S E msg i now).
Proof. unfold mud_ctrl_path. pres. Qed.

Lemma mud_ctrl_path_keeps_role msg i now :
  preserves (keeps_paths same_role) (mud_ctrl_path S E msg i now).
Proof. unfold mud_ctrl_path. pres. Qed.

Lemma mud_ctrl_path_wire msg i now :
  preserves (wire_grows is_ctrl_frame) (mud_ctrl_path S E msg i now).
Proof.
  unfold mud_ctrl_path. pres.
  apply mud_send_path_wire. intros. apply ctrl_frame_is_ctrl.
Qed.

(** What one call of [mud_ctrl_path] does on an existing path. *)
Lemma mud_ctrl_path_run msg i now m w p :
  paths m !! i = Some p ->
  mud_ctrl_path S E msg i now (m, w)
  = (tt, (set_paths (alter (fun p => set_send_time now (write_tc 0 p)) i (paths m)) m,
          log (ctrl_entry S m p msg i now) w)).
Proof.
  intros Hp. unfold mud_ctrl_path.
  unfold mbind at 1 2 3, M_bind at 1 2 3, get_mud, get_path. simpl.
  rewrite Hp. simpl.
  rewrite (mud_send_path_run _ _ _ _ _ _ _ _ _ Hp (ctrl_size_nonzero msg)).
  reflexivity.
Qed.

(** It hands exactly one datagram to [sendmsg], for the position [i]. *)
Lemma mud_ctrl_path_one msg i now s :
  exists e, via e = i
    /\ wire (snd (snd (mud_ctrl_path S E msg i now s))) = e :: wire (snd s).
Proof.
  unfold mud_ctrl_path, mud_send_path. rewrite ctrl_size_nonzero.
  unfold mbind, M_bind, mret, M_ret, modify_path, modify_mud, get_path,
    get_mud, sendmsg.
  simpl. eexists. split; [|reflexivity]. reflexivity.
Qed.

End control.

#[global] Hint Resolve mud_ctrl_path_keeps_crypto mud_ctrl_path_keeps_config
  mud_ctrl_path_keeps_samples mud_ctrl_path_keeps_role mud_ctrl_path_wire : pres.

Section tick.

Context (S : sodium) (E : env).

Lemma send_ctrl_path_keeps_config i :
  preserves keeps_config (send_ctrl_path S E i).
Proof. unfold send_ctrl_path. pres. Qed.

Lemma send_ctrl_path_wire i :
  preserves (wire_grows is_ctrl_frame) (send_ctrl_path S E i).
Proof. unfold send_ctrl_path. pres. Qed.

Lemma mud_send_ctrl_keeps_config : preserves keeps_config (mud_send_ctrl S E).
Proof.
  unfold mud_send_ctrl. pres.
  apply preserves_for_each; [apply _|]. apply send_ctrl_path_keeps_config.
Qed.

Lemma mud_send_ctrl_wire :
  preserves (wire_grows is_ctrl_frame) (mud_send_ctrl S E).
Proof.
  unfold mud_send_ctrl. pres.
  apply preserves_for_each; [apply _|]. apply send_ctrl_path_wire.
Qed.

Lemma mud_get_mtu_config s s' :
  keeps_config s s' -> mud_get_mtu (fst s') = mud_get_mtu (fst s).
Proof. intros (Hl & Hr & _). unfold mud_get_mtu. rewrite Hl, Hr. reflexivity. Qed.

Local Opaque mud_ctrl_path ctrl_entry clock_value.

Lemma send_ctrl_path_sends i m w p :
  paths m !! i = Some p ->
  let now := clock_value E (clock_reads w) in
  let s' := snd (send_ctrl_path S E i (m, w)) in
  wire (snd s')
  = match ctrl_choice m p now with
    | Some msg => [ctrl_entry S m p msg i now]
    | None => []
    end ++ wire w
  /\ (active p = false -> ctrl_choice m p now = Some mud_keyx ->
      bad_key (crypto (fst s')) = 0).
Proof.
  intros Hp now s'. subst s'. unfold send_ctrl_path.
  unfold mbind, M_bind, mud_now, get_path, get_mud. simpl.
  fold now. rewrite Hp. simpl.
  unfold ctrl_choice, keyx_due, mtux_due, bakx_due.
  destruct (active p); simpl.
  - split; [|discriminate].
    repeat match goal with
    | |- context [if ?b then _ else _] => destruct b eqn:?; simpl
    end;
    try rewrite (mud_ctrl_path_run _ _ _ _ _ _ _ _ Hp); reflexivity.
  - destruct (_ && _); simpl.
    + rewrite (mud_ctrl_path_run _ _ _ _ _ _ _ _ Hp). split; reflexivity.
    + split; [reflexivity|discriminate].
Qed.

Lemma send_ctrl_path_at_most_one i s :
  wire (snd (snd (send_ctrl_path S E i s))) = wire (snd s)
  \/ exists e, via e = i
       /\ wire (snd (snd (send_ctrl_path S E i s))) = e :: wire (snd s).
Proof.
  cut (exists new,
         wire (snd (snd (send_ctrl_path S E i s))) = new ++ wire (snd s)
         /\ (new = [] \/ exists e, new = [e] /\ via e = i)).
  { intros (new & -> & [->|(e & -> & He)]); [left; reflexivity|].
    right. exists e. split; [exact He|reflexivity]. }
  unfold send_ctrl_path.
  unfold mbind, M_bind, mud_now, get_path, get_mud. simpl.
  repeat match goal with
  | |- context [if ?b then _ else _] => destruct b eqn:?; simpl
  end;
  try (exists []; split; [reflexivity|left; reflexivity]);
  match goal with
  | |- context [mud_ctrl_path S E ?msg i ?now ?s0] =>
      destruct (mud_ctrl_path_one S E msg i now s0) as (e & He & Hw);
      destruct (mud_ctrl_path S E msg i now s0) as [[] [m1 w1]];
      simpl in Hw |- *; exists [e]; split; [exact Hw|right; eauto]
  end.
Qed.

Local Transparent mud_ctrl_path ctrl_entry clock_value.

Lemma for_each_send_ctrl_vias l s :
  NoDup l ->
  exists new,
    sent_between s (snd (for_each l (send_ctrl_path S E) s)) new
    /\ NoDup (via <$> new)
    /\ (forall e, e ∈ new -> via e ∈ l).
Proof.
  intros Hl. revert s. induction Hl as [|i l Hi Hl IH]; intros s.
  - exists []. simpl. split; [reflexivity|]. split; [constructor|].
    intros e He. inversion He.
  - simpl. rewrite bind_state.
    destruct (IH (snd (send_ctrl_path S E i s))) as (new & Hnew & Hnd & Hin).
    unfold sent_between in *.
    destruct (send_ctrl_path_at_most_one i s) as [Hw|(e & He & Hw)].
    + exists new. rewrite Hnew, Hw. split; [reflexivity|].
      split; [exact Hnd|]. intros e He. right. apply Hin, He.
    + exists (new ++ [e]). rewrite Hnew, Hw, <- app_assoc.
      split; [reflexivity|]. split.
      * rewrite fmap_app. apply NoDup_app. split; [exact Hnd|].
        split; [|apply NoDup_singleton].
        intros x Hx Hx'. simpl in Hx'. apply list_elem_of_singleton in Hx'. subst x.
        apply list_elem_of_fmap in Hx as (e' & He' & Hin').
        apply Hin in Hin'. rewrite <- He', He in Hin'. contradiction.
      * intros e' He'. apply elem_of_app in He' as [He'|He'].
        -- right. apply Hin, He'.
        -- apply list_elem_of_singleton in He'. subst e'. rewrite He. left.
Qed.

End tick.





(** ** Admission of a datagram *)

Section admission.

Context (S : sodium) (E : env).

Lemma recv_admit_kind d s a :
  fst (recv_admit S E d s) = Some a ->
  adm_mud_packet a = (mud_read48 (packet d) =? 0).
Proof.
  unfold recv_admit. rewrite bind_value. simpl.
  destruct (_ && _); [discriminate|].
  rewrite bind_value. simpl.
  destruct (_ >=? _); [discriminate|].
  destruct (_ && _); [discriminate|].
  destruct (mud_localaddr _ _); [|discriminate].
  rewrite bind_value. simpl.
  destruct (fst (mud_path _ _ _ _ _)); simpl; [|discriminate].
  intros [= <-]. reflexivity.
Qed.

Lemma recv_handle_ctrl_value a pkt data s :
  adm_mud_packet a = true ->
  fst (recv_handle S E a pkt data s) = (0, data).
Proof.
  intros Hk. unfold recv_handle. rewrite Hk.
  repeat (rewrite bind_value; simpl). reflexivity.
Qed.

Lemma mud_recv_ctrl_value d data s :
  mud_read48 (packet d) = 0 ->
  fst (mud_recv S E (recvmsg_ok d) data s) = (0, data).
Proof.
  intros Hz. unfold mud_recv.
  destruct (_ <=? _); [reflexivity|].
  rewrite bind_value.
  destruct (fst (recv_admit S E d s)) as [a|] eqn:Ha; [|reflexivity].
  apply recv_handle_ctrl_value.
  rewrite (recv_admit_kind _ _ _ Ha), Hz. reflexivity.
Qed.

Lemma find_path_lookup l a ps i :
  find_path l a ps = Some i -> is_Some (ps !! i).
Proof.
  revert i. induction ps as [|p ps IH]; intros i; simpl; [discriminate|].
  destruct (negb (mud_cmp_ipaddr l (local_addr p) =? 0)).
  { destruct (find_path l a ps) as [j|]; [|discriminate].
    intros [= <-]. simpl. apply IH. reflexivity. }
  destruct (negb (mud_cmp_addr a (addr p) =? 0)).
  { destruct (find_path l a ps) as [j|]; [|discriminate].
    intros [= <-]. simpl. apply IH. reflexivity. }
  intros [= <-]. simpl. eauto.
Qed.

(** The position that [mud_path] returns is a position of the list. *)
Lemma mud_path_lookup l a create s i :
  fst (mud_path E l a create s) = Some i ->
  is_Some (paths (fst (snd (mud_path E l a create s))) !! i).
Proof.
  unfold mud_path. destruct (negb _); [discriminate|].
  rewrite bind_value, bind_state. cbn [get_mud fst snd].
  destruct (find_path l a (paths (fst s))) as [j|] eqn:Hf.
  - intros [= <-]. simpl. eapply find_path_lookup, Hf.
  - destruct (negb create); [discriminate|].
    rewrite bind_value, bind_state.
    destruct (fst (calloc E s)); simpl; [|discriminate].
    intros [= <-]. simpl. eauto.
Qed.

Lemma recv_admit_lookup d s a :
  fst (recv_admit S E d s) = Some a ->
  is_Some (paths (fst (snd (recv_admit S E d s))) !! adm_path a).
Proof.
  unfold recv_admit. rewrite bind_value, bind_state. cbn [mud_now fst snd].
  destruct (_ && _); [discriminate|].
  rewrite bind_value, bind_state. cbn [get_mud fst snd].
  destruct (_ >=? _); [discriminate|].
  destruct (_ && _); [discriminate|].
  destruct (mud_localaddr _ _) as [l|]; [|discriminate].
  rewrite bind_value, bind_state.
  destruct (fst (mud_path _ _ _ _ _)) as [i|] eqn:Hi; simpl; [|discriminate].
  intros [= <-]. simpl. apply mud_path_lookup, Hi.
Qed.

Lemma mud_path_keeps_crypto l a create :
  preserves keeps_crypto (mud_path E l a create).
Proof. unfold mud_path. pres. intros s. reflexivity. Qed.

Lemma recv_pong_keeps_crypto p i now :
  preserves keeps_crypto (recv_pong S E p i now).
Proof. unfold recv_pong. pres. Qed.

Lemma recv_pong_keeps_samples p i now :
  preserves (keeps_paths same_samples) (recv_pong S E p i now).
Proof. unfold recv_pong. pres. Qed.

End admission.

#[global] Hint Resolve mud_path_keeps_crypto recv_pong_keeps_crypto
  recv_pong_keeps_samples : pres.

Lemma recv_admit_keeps_crypto S E d : preserves keeps_crypto (recv_admit S E d).
Proof. unfold recv_admit. pres. Qed.

Lemma recv_path_update_keeps_crypto S E i now send_time :
  preserves keeps_crypto (recv_path_update S E i now send_time).
Proof. unfold recv_path_update. pres. Qed.

(** C4.  A datagram whose send time (the header of a data frame, the
    second field of a control packet) is [time_tolerance] or more away from
    the clock of the receiver makes [mud_recv] return 0 and leaves the
    engine as it was: no path is created, no sample of any path changes
    ([recv_time], [rst], [rdt], [sdt] included), the keys are untouched,
    the buffer of the caller is untouched and nothing is sent; only the
    clock has been read. *)
Theorem mud_recv_replay_window (S : sodium) (E : env) d data m w :
  mud_abs_diff (clock_value E (clock_reads w)) (wire_send_time (packet d))
    >= time_tolerance m ->
  let r := mud_recv S E (recvmsg_ok d) data (m, w) in
  fst r = (0, data)
  /\ fst (snd r) = m
  /\ wire (snd (snd r)) = wire w
  /\ allocs (snd (snd r)) = allocs w
  /\ draws (snd (snd r)) = draws w.
Proof.
  intros Htol. unfold mud_recv, recv_admit, wire_send_time in *.
  destruct (len (packet d) <=? MUD_PACKET_MIN_SIZE); [done|].
  unfold mbind, M_bind, mret, M_ret; simpl.
  destruct (mud_read48 (packet d) =? 0); simpl.
  - destruct (len (packet d) <? MUD_PACKET_SIZEOF MUD_U48_SIZE); [done|].
    simpl.
    destruct (Z.geb_spec (mud_abs_diff (clock_value E (clock_reads w))
                            (mud_read48 (drop 6 (packet d))))
                (time_tolerance m)); [done|lia].
  - destruct (Z.geb_spec (mud_abs_diff (clock_value E (clock_reads w))
                            (mud_read48 (packet d)))
                (time_tolerance m)); [done|lia].
Qed.

(** The data frame of A handed to B again eleven minutes later. *)
Lemma mud_recv_replay_window_witness :
  mud_abs_diff (clock_value (Toy.E 1660 99) (clock_reads (snd Scenario.b1)))
    (wire_send_time Scenario.frame3) >= time_tolerance (fst Scenario.b1)
  /\ fst (snd (mud_recv Toy.S (Toy.E 1660 99)
                 (recvmsg_ok (Toy.dgram4 Scenario.frame3 Scenario.addrA
                                Scenario.addrB 5000))
                 (zeros 1500) (fst Scenario.b1, snd Scenario.b1)))
     = fst Scenario.b1.
Proof.
  assert (H : mud_abs_diff (clock_value (Toy.E 1660 99)
                              (clock_reads (snd Scenario.b1)))
                (wire_send_time Scenario.frame3)
              >= time_tolerance (fst Scenario.b1)).
  { vm_compute. discriminate. }
  split; [exact H|].
  exact (proj1 (proj2 (mud_recv_replay_window Toy.S (Toy.E 1660 99)
           (Toy.dgram4 Scenario.frame3 Scenario.addrA Scenario.addrB 5000)
           (zeros 1500) (fst Scenario.b1) (snd Scenario.b1) H))).
Defined.

(** C10.  A datagram whose first six bytes are zero, whatever else it
    holds, makes [mud_recv] return 0 and leaves the buffer of the caller as
    it was; a positive result comes only from a datagram that does not
    start with six zero bytes, that is from a data frame. *)
Theorem mud_recv_control_packet (S : sodium) (E : env) d data s :
  (take 6 (packet d) = zeros 6 ->
   fst (mud_recv S E (recvmsg_ok d) data s) = (0, data))
  /\ (forall r, 0 < fst (fst (mud_recv S E r data s)) ->
      exists d', r = recvmsg_ok d' /\ take 6 (packet d') <> zeros 6).
Proof.
  split.
  - intros Hz. apply mud_recv_ctrl_value, read48_zero_prefix, Hz.
  - intros [|d'] Hpos.
    + simpl in Hpos. lia.
    + exists d'. split; [reflexivity|]. intros Hz.
      rewrite (mud_recv_ctrl_value S E d' data s) in Hpos
        by apply read48_zero_prefix, Hz.
      simpl in Hpos. lia.
Qed.

(** B receives the keyx of A: 0 and an untouched buffer; B receives the
    data frame of A: 64, from a frame that starts with its nonce. *)
Lemma mud_recv_control_packet_witness :
  (take 6 (packet (Toy.dgram4 Scenario.keyx1 Scenario.addrA
                     Scenario.addrB 5000)) = zeros 6
   /\ fst (mud_recv Toy.S Scenario.EB
             (recvmsg_ok (Toy.dgram4 Scenario.keyx1 Scenario.addrA
                            Scenario.addrB 5000))
             (zeros 1500) Scenario.b0) = (0, zeros 1500))
  /\ (0 < fst (fst (mud_recv Toy.S Scenario.EB
                      (recvmsg_ok (Toy.dgram4 Scenario.frame3 Scenario.addrA
                                     Scenario.addrB 5000))
                      (zeros 1500) Scenario.b1))
      /\ exists d',
           recvmsg_ok (Toy.dgram4 Scenario.frame3 Scenario.addrA
                         Scenario.addrB 5000) = recvmsg_ok d'
           /\ take 6 (packet d') <> zeros 6).
Proof.
  split.
  - assert (H : take 6 (packet (Toy.dgram4 Scenario.keyx1 Scenario.addrA
                                  Scenario.addrB 5000)) = zeros 6)
      by (vm_compute; reflexivity).
    split; [exact H|].
    exact (proj1 (mud_recv_control_packet Toy.S Scenario.EB
             (Toy.dgram4 Scenario.keyx1 Scenario.addrA Scenario.addrB 5000)
             (zeros 1500) Scenario.b0) H).
  - assert (H : 0 < fst (fst (mud_recv Toy.S Scenario.EB
                      (recvmsg_ok (Toy.dgram4 Scenario.frame3 Scenario.addrA
                                     Scenario.addrB 5000))
                      (zeros 1500) Scenario.b1)))
      by (vm_compute; reflexivity).
    split; [exact H|].
    exact (proj2 (mud_recv_control_packet Toy.S Scenario.EB
             (Toy.dgram4 Scenario.frame3 Scenario.addrA Scenario.addrB 5000)
             (zeros 1500) Scenario.b1) _ H).
Defined.

(** ** Data frames: the order of the slots *)

Section decrypt.

Context (S : sodium) (E : env).

Lemma accepts_eqb k frame :
  accepts S k frame <-> (fst (mud_decrypt_opt S k (frame_opt frame)) =? 0) = true.
Proof. unfold accepts. symmetry. apply Z.eqb_eq. Qed.

Lemma rejects_eqb k frame :
  ~ accepts S k frame <-> (fst (mud_decrypt_opt S k (frame_opt frame)) =? 0) = false.
Proof. unfold accepts. symmetry. apply Z.eqb_neq. Qed.

(** The five ways through [mud_decrypt]. *)
Lemma mud_decrypt_cases dst frame s :
  u64 (len frame - MUD_PACKET_MIN_SIZE) <= len dst ->
  let c := crypto (fst s) in
  let size := int32 (u64 (len frame - MUD_PACKET_MIN_SIZE)) in
  let r := mud_decrypt S E dst frame s in
  (accepts S (current c) frame ->
     fst r = (size, store dst (snd (mud_decrypt_opt S (current c) (frame_opt frame))))
     /\ snd r = s)
  /\ (~ accepts S (current c) frame -> accepts S (next c) frame ->
     fst (fst r) = size /\ promoted S E s (snd r))
  /\ (~ accepts S (current c) frame -> ~ accepts S (next c) frame ->
      accepts S (last c) frame -> fst (fst r) = size /\ snd r = s)
  /\ (~ accepts S (current c) frame -> ~ accepts S (next c) frame ->
      ~ accepts S (last c) frame -> accepts S (private c) frame ->
      fst (fst r) = size /\ snd r = s)
  /\ (~ accepts S (current c) frame -> ~ accepts S (next c) frame ->
      ~ accepts S (last c) frame -> ~ accepts S (private c) frame ->
      fst (fst r) = -1 /\ snd r = s).
Proof.
  intros Hsz c size r. subst r. unfold mud_decrypt.
  destruct (Z.gtb_spec (u64 (len frame - MUD_PACKET_MIN_SIZE)) (len dst)) as [?|_];
    [lia|].
  fold (frame_opt frame). destruct s as [m w].
  unfold mbind, M_bind, get_mud. simpl. subst c. simpl.
  repeat split; intros;
    repeat match goal with
    | H : accepts _ _ _ |- _ => apply accepts_eqb in H; rewrite H
    | H : ~ accepts _ _ _ |- _ => apply rejects_eqb in H; rewrite H
    end; simpl; try reflexivity.
Qed.

Lemma recv_handle_bad_key a pkt data s :
  adm_mud_packet a = false ->
  u64 (len pkt - MUD_PACKET_MIN_SIZE) <= len data ->
  let c := crypto (fst s) in
  ~ accepts S (current c) pkt -> ~ accepts S (next c) pkt ->
  ~ accepts S (last c) pkt -> ~ accepts S (private c) pkt ->
  let r := recv_handle S E a pkt data s in
  fst (fst r) = 0 /\ bad_key (crypto (fst (snd r))) = 1.
Proof.
  intros Hk Hsz c H1 H2 H3 H4 r. subst r c. unfold recv_handle. rewrite Hk.
  pose proof (recv_path_update_keeps_crypto S E (adm_path a) (adm_now a)
                (adm_send_time a) s) as Hc.
  unfold keeps_crypto in Hc.
  rewrite bind_value, bind_state.
  set (s2 := snd (recv_path_update S E (adm_path a) (adm_now a) (adm_send_time a) s)) in *.
  rewrite Hc in H1, H2, H3, H4.
  destruct (mud_decrypt_cases data pkt s2 Hsz) as (_ & _ & _ & _ & H5).
  destruct (H5 H1 H2 H3 H4) as [Hv Hs].
  rewrite bind_value, bind_state.
  destruct (mud_decrypt S E data pkt s2) as [[v d'] s3]. simpl in Hv, Hs |- *.
  subst v s3. simpl. split; reflexivity.
Qed.

End decrypt.



(** ** Data frames: the round trip *)

Section roundtrip.

Context (S : sodium) (E : env).

Lemma npub_of_nonce t :
  memcpy (zeros 16) (mud_write48 t) 6 = mud_write48 t ++ zeros 10.
Proof. reflexivity. Qed.

Lemma ad_of_nonce t dst :
  take 6 (memcpy dst (mud_write48 t ++ zeros 10) 6) = mud_write48 t.
Proof. reflexivity. Qed.

(** The frame of [mud_encrypt]: the nonce, then what libsodium sealed. *)
Lemma mud_encrypt_frame m t dst P :
  aead_correct S ->
  t <> 0 ->
  len P + MUD_PACKET_MIN_SIZE <= len dst -> len dst < 2 ^ 31 ->
  let k := if negb (use_next (crypto m) =? 0) then next (crypto m)
           else current (crypto m) in
  let c := snd (mud_encrypt_opt S k
                  {| src := P; ad := mud_write48 t;
                     npub := mud_write48 t ++ zeros 10 |}) in
  fst (mud_encrypt S m t dst P) = len P + MUD_PACKET_MIN_SIZE
  /\ take (Z.to_nat (fst (mud_encrypt S m t dst P))) (snd (mud_encrypt S m t dst P))
     = mud_write48 t ++ c
  /\ length c = (length P + 16)%nat.
Proof.
  intros (_ & _ & Hl1 & Hl2) Ht Hfit Hdst k c.
  assert (Hc : length c = (length P + 16)%nat).
  { subst c. unfold mud_encrypt_opt.
    destruct (negb (aes k =? 0)); [apply Hl2|apply Hl1]. }
  assert (HP : 0 <= len P) by (unfold len; lia).
  unfold MUD_PACKET_MIN_SIZE, MUD_U48_SIZE, MUD_MAC_SIZE in *.
  unfold mud_encrypt. destruct (Z.eqb_spec t 0) as [?|_]; [contradiction|].
  unfold MUD_PACKET_MIN_SIZE, MUD_U48_SIZE, MUD_MAC_SIZE.
  rewrite u64_small by lia.
  destruct (Z.gtb_spec (len P + (6 + 16)) (len dst)) as [?|_]; [lia|].
  rewrite npub_of_nonce, ad_of_nonce. fold k. fold c. cbn [fst snd].
  rewrite int32_small by lia.
  split; [reflexivity|]. split; [|exact Hc].
  unfold store. rewrite (app_assoc (mud_write48 t)).
  replace (Z.to_nat (len P + (6 + 16))) with (length (mud_write48 t ++ c)).
  - apply take_app_length.
  - rewrite length_app, Hc. unfold len. simpl. lia.
Qed.

Lemma one_key_decrypts m :
  one_key m ->
  let k := if negb (use_next (crypto m) =? 0) then next (crypto m)
           else current (crypto m) in
  k = current (crypto m) /\ symmetric k.
Proof.
  intros (Hs & Hn & _ & _) k. subst k.
  destruct (negb _); [rewrite Hn|]; split; auto.
Qed.

Lemma seal_open (k : crypto_key) P a n :
  aead_correct S -> symmetric k ->
  mud_decrypt_opt S k
    {| src := snd (mud_encrypt_opt S k {| src := P; ad := a; npub := n |});
       ad := a; npub := n |} = (0, P).
Proof.
  intros (H1 & H2 & _) Hs. unfold symmetric in Hs.
  unfold mud_decrypt_opt, mud_encrypt_opt. simpl.
  destruct (aes k =? 0); simpl; rewrite <- Hs; [apply H1|apply H2].
Qed.

Lemma roundtrip_one_key m w P t dst buf :
  aead_correct S ->
  one_key m ->
  t <> 0 ->
  len P + MUD_PACKET_MIN_SIZE <= len dst -> len dst < 2 ^ 31 ->
  len P <= len buf ->
  roundtrip S E m w P t dst buf
  /\ snd (mud_decrypt S E buf
            (take (Z.to_nat (fst (mud_encrypt S m t dst P)))
                  (snd (mud_encrypt S m t dst P))) (m, w)) = (m, w).
Proof.
  intros Haead Hone Ht Hfit Hdst Hbuf.
  destruct (mud_encrypt_frame m t dst P Haead Ht Hfit Hdst) as (Hsize & Hframe & Hc).
  destruct (one_key_decrypts m Hone) as [Hk Hsym].
  unfold roundtrip. rewrite Hframe. cbv zeta.
  set (k := if negb (use_next (crypto m) =? 0) then next (crypto m)
            else current (crypto m)) in *.
  set (c := snd (mud_encrypt_opt S k _)) in *.
  assert (HP : 0 <= len P) by (unfold len; lia).
  assert (Hmin : MUD_PACKET_MIN_SIZE = 22) by reflexivity.
  assert (Hlen : len (mud_write48 t ++ c) - MUD_PACKET_MIN_SIZE = len P).
  { rewrite len_app. unfold len at 2. rewrite Hc. unfold len, MUD_PACKET_MIN_SIZE,
      MUD_U48_SIZE, MUD_MAC_SIZE. simpl. lia. }
  assert (Hsz : u64 (len (mud_write48 t ++ c) - MUD_PACKET_MIN_SIZE) <= len buf).
  { rewrite Hlen, u64_small; lia. }
  assert (Hacc : mud_decrypt_opt S (current (crypto m))
                   (frame_opt (mud_write48 t ++ c)) = (0, P)).
  { rewrite <- Hk. unfold frame_opt.
    change (drop 6 (mud_write48 t ++ c)) with c.
    change (take 6 (mud_write48 t ++ c)) with (mud_write48 t).
    change (memcpy (zeros 16) (mud_write48 t ++ c) 6)
      with (mud_write48 t ++ zeros 10).
    apply seal_open; assumption. }
  destruct (mud_decrypt_cases S E buf (mud_write48 t ++ c) (m, w) Hsz)
    as (H1 & _).
  destruct H1 as [Hv Hs].
  { unfold accepts. cbn [fst]. rewrite Hacc. reflexivity. }
  cbn [fst] in Hv. rewrite Hacc in Hv. rewrite Hv, Hs.
  cbn [fst snd].
  rewrite Hlen, u64_small, int32_small by lia.
  repeat split; try assumption.
  unfold store. apply take_app_length.
Qed.

(** The engine that [mud_create] and [mud_set_key] leave holds one key. *)
Lemma mud_set_key_one_key sock want_aes mtu0 k s :
  one_key (snd (mud_set_key k 32
                  (fst (snd (mud_create S E sock want_aes mtu0 s))))).
Proof.
  unfold one_key, symmetric. simpl. repeat split; reflexivity.
Qed.

End roundtrip.

(** C1, as the engine does it.  On an engine whose ring holds one key
    (the four slots equal, with the same key material for the two
    directions, as [mud_set_key] leaves them), for every plaintext [P] of at
    most MTU - 22 bytes and every nonce [t] other than zero, the frame that
    [mud_encrypt] makes in a buffer that holds an MTU, handed to
    [mud_decrypt] in the same state with a buffer that holds [P], gives
    back [len P] and [P]: the slot current accepts it.  The AEAD is any
    that opens what it has sealed. *)
Theorem mud_roundtrip_one_key (S : sodium) (E : env) m w P t dst buf :
  aead_correct S ->
  one_key m ->
  t <> 0 ->
  len P <= mud_get_mtu m - MUD_PACKET_MIN_SIZE ->
  mud_get_mtu m <= len dst -> len dst < 2 ^ 31 ->
  len P <= len buf ->
  roundtrip S E m w P t dst buf.
Proof.
  intros Haead Hone Ht Hmtu Hdst Hmax Hbuf.
  apply roundtrip_one_key; try assumption. lia.
Qed.

(** The engine A before any key exchange, 64 bytes, the buffers of
    [mud_send] and of the scenario. *)
Lemma mud_roundtrip_one_key_witness :
  one_key (fst Scenario.a0)
  /\ len Scenario.payload <= mud_get_mtu (fst Scenario.a0) - MUD_PACKET_MIN_SIZE
  /\ roundtrip Toy.S Scenario.EA (fst Scenario.a0) (snd Scenario.a0)
       Scenario.payload 1000000000 (zeros 2048) (zeros 1500).
Proof.
  assert (H1 : one_key (fst Scenario.a0)).
  { unfold one_key, symmetric. repeat split; vm_compute; reflexivity. }
  assert (H2 : len Scenario.payload
               <= mud_get_mtu (fst Scenario.a0) - MUD_PACKET_MIN_SIZE).
  { vm_compute. discriminate. }
  split; [exact H1|]. split; [exact H2|].
  apply (mud_roundtrip_one_key Toy.S Scenario.EA (fst Scenario.a0)
           (snd Scenario.a0) Scenario.payload 1000000000 (zeros 2048)
           (zeros 1500) toy_aead_correct H1).
  - discriminate.
  - exact H2.
  - vm_compute. discriminate.
  - reflexivity.
  - vm_compute. discriminate.
Defined.

(** C1 as stated fails after a key exchange.  The engine A has taken the
    keyx of B and commits to [next]; its frame of 64 bytes is sealed under
    [next.encrypt], which none of its four decrypt keys opens:
    [mud_decrypt] returns -1. *)
Lemma mud_roundtrip_after_keyx_fails :
  1000003000 <> 0
  /\ len Scenario.payload <= mud_get_mtu (fst Scenario.a2) - MUD_PACKET_MIN_SIZE
  /\ ~ roundtrip Toy.S Scenario.EA (fst Scenario.a2) (snd Scenario.a2)
         Scenario.payload 1000003000 (zeros 2048) (zeros 1500).
Proof.
  split; [discriminate|]. split; [vm_compute; discriminate|].
  intros (_ & H & _).
  assert (Hv : fst (fst (mud_decrypt Toy.S Scenario.EA (zeros 1500)
                 (take (Z.to_nat (fst (mud_encrypt Toy.S (fst Scenario.a2)
                                         1000003000 (zeros 2048) Scenario.payload)))
                    (snd (mud_encrypt Toy.S (fst Scenario.a2) 1000003000
                            (zeros 2048) Scenario.payload)))
                 (fst Scenario.a2, snd Scenario.a2))) = -1)
    by (vm_compute; reflexivity).
  assert (Hl : len Scenario.payload = 64) by (vm_compute; reflexivity).
  rewrite Hv, Hl in H. discriminate H.
Qed.

(** ** Key exchange: the keys of [next] *)

Section keyx.

Context (S : sodium) (E : env).

Lemma keyx_derive_next now rp m w :
  fst (crypto_scalarmult S (secret (crypto m)) (take 32 (pub_send rp))) = 0 ->
  key (encrypt (next (crypto (fst (snd (keyx_derive S now rp (m, w)))))))
  = store (key (encrypt (next (crypto m))))
      (crypto_generichash S 32
         (snd (crypto_scalarmult S (secret (crypto m)) (take 32 (pub_send rp)))
          ++ pub_recv rp ++ pub_send rp)
         (key (encrypt (private (crypto m))))).
Proof.
  intros Hsm. unfold keyx_derive.
  unfold mbind, M_bind, mret, M_ret, get_mud. cbn [fst snd].
  rewrite Hsm. reflexivity.
Qed.

Lemma mud_recv_keyx_next i now data s :
  let c := crypto (fst s) in
  fst (crypto_scalarmult S (secret c) (take 32 (take 33 data))) = 0 ->
  key (encrypt (next (crypto (fst (snd (mud_recv_keyx S E i now data s))))))
  = keyx_key_of_engine S c data.
Proof.
  intros c Hsm. subst c. destruct s as [m w]. unfold mud_recv_keyx.
  unfold mbind at 1 2 3, M_bind at 1 2 3, get_mud, modify_crypto, modify_mud.
  cbn [fst snd] in Hsm |- *. cbv zeta. cbn [pub_send pub_recv].
  rewrite bind_state.
  match goal with
  | |- context [keyx_derive S now ?rp ?s2] =>
      assert (Hc : crypto (fst s2)
                   = set_use_next
                       (if memcmp (take 33 (drop 33 data))
                             (pub_send (crypto_public (crypto m))) 33 =? 0
                        then 1 else 0)
                       (set_public_recv
                          (memcpy (pub_recv (crypto_public (crypto m)))
                             (take 33 data) 33) (crypto m)));
      [|destruct s2 as [m2 w2]; cbn [fst] in Hc;
        rewrite keyx_derive_next; rewrite Hc; [|exact Hsm]]
  end.
  - destruct (negb _).
    + match goal with
      | |- context [mud_ctrl_path S E mud_keyx i now ?s1] =>
          rewrite <- (mud_ctrl_path_keeps_crypto S E mud_keyx i now s1)
      end.
      reflexivity.
    + reflexivity.
  - unfold keyx_key_of_engine. cbn. rewrite memcpy_over_take. reflexivity.
Qed.

Lemma keyx_derive_keeps_samples now rp :
  preserves (keeps_paths same_samples) (keyx_derive S now rp).
Proof. unfold keyx_derive. pres. Qed.

End keyx.

#[global] Hint Resolve keyx_derive_keeps_samples : pres.

(** C3, as the engine does it.  When the scalar multiplication succeeds,
    [mud_recv_keyx] sets [next.encrypt.key] to the 32-byte generic hash,
    keyed by the private key, of the shared secret followed by the engine's
    own [public.send] and by the [peer_send] of the payload: the [peer_recv]
    of the payload has been overwritten by then.  The two agree, and the key
    is the hash over the pair of the payload, when [peer_recv] is the
    engine's [public.send], that is when the peer has already seen it. *)
Theorem mud_recv_keyx_encrypt_key (S : sodium) (E : env) i now data s :
  let c := crypto (fst s) in
  fst (crypto_scalarmult S (secret c) (take 32 (take 33 data))) = 0 ->
  let c' := crypto (fst (snd (mud_recv_keyx S E i now data s))) in
  key (encrypt (next c')) = keyx_key_of_engine S c data
  /\ (take 33 (drop 33 data) = take 33 (pub_send (crypto_public c)) ->
      key (encrypt (next c')) = keyx_key_of_payload S c data).
Proof.
  intros c Hsm c'. subst c'.
  rewrite (mud_recv_keyx_next S E i now data s Hsm). split; [reflexivity|].
  intros Hsync. unfold keyx_key_of_engine, keyx_key_of_payload.
  fold c. rewrite Hsync. reflexivity.
Qed.

(** B takes the first keyx of A. *)
Lemma mud_recv_keyx_encrypt_key_witness :
  fst (crypto_scalarmult Toy.S (secret (crypto (fst Scenario.b0)))
         (take 32 (take 33 (drop 12 Scenario.keyx1)))) = 0
  /\ key (encrypt (next (crypto (fst (snd (mud_recv_keyx Toy.S Scenario.EB 0
            1000000000 (drop 12 Scenario.keyx1) Scenario.b0))))))
     = keyx_key_of_engine Toy.S (crypto (fst Scenario.b0))
         (drop 12 Scenario.keyx1).
Proof.
  assert (H : fst (crypto_scalarmult Toy.S (secret (crypto (fst Scenario.b0)))
                     (take 32 (take 33 (drop 12 Scenario.keyx1)))) = 0)
    by (vm_compute; reflexivity).
  split; [exact H|].
  exact (proj1 (mud_recv_keyx_encrypt_key Toy.S Scenario.EB 0 1000000000
                  (drop 12 Scenario.keyx1) Scenario.b0 H)).
Defined.

(** C3 as stated fails on the first keyx of a handshake.  A has not seen
    the public key of B, so the [peer_recv] of its keyx is zero and differs
    from the [public.send] of B; the scalar multiplication succeeds, and the
    key that B derives is not the hash over the pair of the payload. *)
Lemma mud_recv_keyx_not_payload_pair :
  fst (crypto_scalarmult Toy.S (secret (crypto (fst Scenario.b0)))
         (take 32 (take 33 (drop 12 Scenario.keyx1)))) = 0
  /\ key (encrypt (next (crypto (fst (snd (mud_recv Toy.S Scenario.EB
            (recvmsg_ok (Toy.dgram4 Scenario.keyx1 Scenario.addrA
                           Scenario.addrB 5000))
            (zeros 1500) Scenario.b0))))))
     <> keyx_key_of_payload Toy.S (crypto (fst Scenario.b0))
          (drop 12 Scenario.keyx1).
Proof.
  split; [vm_compute; reflexivity|].
  apply (bool_decide_eq_false_1 _). vm_compute. reflexivity.
Qed.

(** ** The samples of a path under regular arrivals *)

Lemma arrive_recv_time now st p : recv_time (arrive now st p) = now.
Proof. reflexivity. Qed.

Lemma arrive_rdt now st p :
  rdt (arrive now st p)
  = if negb (rdt p =? 0) then u64 (now - recv_time p + 7 * rdt p) / 8
    else if negb (recv_time p =? 0) then u64 (now - recv_time p)
    else rdt p.
Proof.
  unfold arrive, recv_samples.
  destruct (rdt p =? 0); simpl; [destruct (recv_time p =? 0)|]; reflexivity.
Qed.

(** Once [rdt] is the interval, it stays so. *)
Lemma arrive_steady t st delta p :
  0 <= delta -> delta <= t -> t < 2 ^ 48 ->
  recv_time p = t - delta -> rdt p = delta ->
  rdt (arrive t st p) = delta.
Proof.
  intros Hd Ht Hmax Hr Hrdt. rewrite arrive_rdt, Hr, Hrdt.
  destruct (Z.eqb_spec delta 0) as [->|Hnz]; simpl.
  - destruct (t - 0 =? 0); simpl; [reflexivity|].
    replace (t - (t - 0)) with 0 by lia. reflexivity.
  - replace (t - (t - delta) + 7 * delta) with (delta * 8) by lia.
    unfold u64. rewrite Z.mod_small by lia. apply Z.div_mul. lia.
Qed.

Lemma arrivals_steady n : forall t st delta p,
  0 <= delta -> delta <= t -> t + Z.of_nat n * delta < 2 ^ 48 ->
  recv_time p = t - delta -> rdt p = delta ->
  rdt (arrivals n t st delta p) = delta.
Proof.
  induction n as [|n IH]; intros t st delta p Hd Ht Hmax Hr Hrdt; simpl.
  - exact Hrdt.
  - apply IH; try lia.
    + rewrite arrive_recv_time. lia.
    + apply arrive_steady; try assumption. nia.
Qed.

(** The first three arrivals on a path that has never received. *)
Lemma arrivals_start t0 s0 s1 s2 delta p :
  0 <= delta -> 0 <= t0 -> t0 + 2 * delta < 2 ^ 48 ->
  rdt p = 0 -> recv_time p = 0 ->
  rdt (arrive (t0 + delta + delta) s2
         (arrive (t0 + delta) s1 (arrive t0 s0 p))) = delta.
Proof.
  intros Hd Ht Hmax Hrdt Hr.
  assert (H1 : rdt (arrive t0 s0 p) = 0).
  { rewrite arrive_rdt, Hrdt, Hr. reflexivity. }
  assert (H2 : rdt (arrive (t0 + delta) s1 (arrive t0 s0 p)) = 0
               \/ rdt (arrive (t0 + delta) s1 (arrive t0 s0 p)) = delta).
  { rewrite arrive_rdt, H1, arrive_recv_time. simpl.
    destruct (t0 =? 0); simpl; [left; reflexivity|right].
    replace (t0 + delta - t0) with delta by lia.
    unfold u64. apply Z.mod_small. lia. }
  rewrite arrive_rdt, arrive_recv_time.
  destruct H2 as [H2|H2]; rewrite H2.
  - simpl. destruct (Z.eqb_spec (t0 + delta) 0); simpl; [lia|].
    replace (t0 + delta + delta - (t0 + delta)) with delta by lia.
    unfold u64. apply Z.mod_small. lia.
  - destruct (Z.eqb_spec delta 0) as [->|Hnz]; simpl.
    + destruct (t0 + 0 =? 0); simpl; [reflexivity|].
      replace (t0 + 0 + 0 - (t0 + 0)) with 0 by lia. reflexivity.
    + replace (t0 + delta + delta - (t0 + delta) + 7 * delta) with (delta * 8) by lia.
      unfold u64. rewrite Z.mod_small by lia. apply Z.div_mul. lia.
Qed.

Lemma arrivals_rdt n t0 s0 delta p :
  (3 <= n)%nat ->
  0 <= delta -> 0 <= t0 -> t0 + Z.of_nat n * delta < 2 ^ 48 ->
  rdt p = 0 -> recv_time p = 0 ->
  rdt (arrivals n t0 s0 delta p) = delta.
Proof.
  intros Hn Hd Ht Hmax Hrdt Hr.
  destruct n as [|[|[|n]]]; try lia. simpl.
  apply arrivals_steady; try lia.
  - rewrite arrive_recv_time. lia.
  - apply arrivals_start; try assumption. lia.
Qed.

Lemma arrive_same_samples now st p q :
  same_samples p q -> same_samples (arrive now st p) (arrive now st q).
Proof.
  intros (H1 & H2 & H3 & H4). unfold same_samples.
  rewrite !arrive_recv_time, !arrive_rdt, H1, H4.
  unfold arrive, recv_samples. rewrite <- H1, <- H4.
  destruct (rdt p =? 0); simpl; [destruct (recv_time p =? 0); simpl|];
    rewrite ?H1, ?H2, ?H3, ?H4; repeat split; reflexivity.
Qed.

Lemma arrivals_same_samples n : forall t st delta p q,
  same_samples p q ->
  same_samples (arrivals n t st delta p) (arrivals n t st delta q).
Proof.
  induction n as [|n IH]; intros t st delta p q H; simpl; [exact H|].
  apply IH, arrive_same_samples, H.
Qed.

Section samples.

Context (S : sodium) (E : env).

Lemma mud_recv_keyx_keeps_samples i now data :
  preserves (keeps_paths same_samples) (mud_recv_keyx S E i now data).
Proof. unfold mud_recv_keyx. pres. Qed.

Hint Resolve mud_recv_keyx_keeps_samples : pres.

Lemma recv_ctrl_keeps_samples i now st pkt :
  preserves (keeps_paths same_samples) (recv_ctrl S E i now st pkt).
Proof. unfold recv_ctrl. pres. Qed.

Lemma mud_keyx_init_keeps_samples :
  preserves (keeps_paths same_samples) (mud_keyx_init S E).
Proof. unfold mud_keyx_init. pres. Qed.

Hint Resolve mud_keyx_init_keeps_samples : pres.

Lemma mud_decrypt_keeps_samples dst pkt :
  preserves (keeps_paths same_samples) (mud_decrypt S E dst pkt).
Proof. unfold mud_decrypt. pres. Qed.

Hint Resolve recv_ctrl_keeps_samples mud_decrypt_keeps_samples : pres.

(** [mud_path] leaves the list of paths alone or adds one path to it. *)
Lemma mud_path_paths l a create s :
  paths (fst (snd (mud_path E l a create s))) = paths (fst s)
  \/ length (paths (fst (snd (mud_path E l a create s))))
     = Datatypes.S (length (paths (fst s))).
Proof.
  unfold mud_path. destruct (negb _); [left; reflexivity|].
  rewrite bind_state. cbn [get_mud fst snd].
  destruct (find_path l a (paths (fst s))); [left; reflexivity|].
  destruct (negb create); [left; reflexivity|].
  rewrite bind_state.
  destruct (fst (calloc E s)); simpl; [right|left]; reflexivity.
Qed.

Lemma recv_admit_paths d s :
  paths (fst (snd (recv_admit S E d s))) = paths (fst s)
  \/ length (paths (fst (snd (recv_admit S E d s))))
     = Datatypes.S (length (paths (fst s))).
Proof.
  unfold recv_admit. rewrite bind_state. cbn [mud_now fst snd].
  destruct (_ && _); [left; reflexivity|].
  rewrite bind_state. cbn [get_mud fst snd].
  destruct (_ >=? _); [left; reflexivity|].
  destruct (_ && _); [left; reflexivity|].
  destruct (mud_localaddr _ _) as [l|]; [|left; reflexivity].
  rewrite bind_state. cbn [mret M_ret snd fst].
  match goal with |- context [mud_path E ?l ?a ?c ?s] =>
    exact (mud_path_paths l a c s) end.
Qed.

(** The samples of the path of an admitted datagram after [mud_recv]. *)
Lemma recv_path_update_arrive i now st s q :
  paths (fst s) !! i = Some q ->
  exists q', paths (fst (snd (recv_path_update S E i now st s))) !! i = Some q'
             /\ same_samples (arrive now st q) q'.
Proof.
  intros Hq. unfold recv_path_update.
  rewrite bind_state. cbn [snd].
  set (s1 := snd (modify_path i (recv_samples now st) s)).
  assert (H1 : paths (fst s1) !! i = Some (recv_samples now st q)).
  { subst s1. simpl. rewrite list_lookup_alter_eq, Hq. reflexivity. }
  rewrite bind_state. cbn [snd fst get_path].
  rewrite bind_state.
  pose proof (recv_pong_keeps_samples S E (default zero_path (paths (fst s1) !! i)) i now s1) as H2.
  set (s2 := snd (recv_pong S E _ i now s1)) in *.
  unfold keeps_paths in H2.
  destruct (Forall2_lookup_l _ _ _ _ _ H2 H1) as (q2 & Hq2 & Hs).
  exists (set_recv_time now q2). split.
  - simpl. rewrite list_lookup_alter_eq, Hq2. reflexivity.
  - destruct Hs as (?&?&?&?). repeat split; assumption.
Qed.

Lemma recv_handle_arrive a pkt data s q :
  paths (fst s) !! adm_path a = Some q ->
  exists q', paths (fst (snd (recv_handle S E a pkt data s))) !! adm_path a = Some q'
             /\ same_samples (arrive (adm_now a) (adm_send_time a) q) q'.
Proof.
  intros Hq. unfold recv_handle. rewrite bind_state.
  destruct (recv_path_update_arrive (adm_path a) (adm_now a) (adm_send_time a) s q Hq)
    as (q1 & Hq1 & Hs1).
  set (s1 := snd (recv_path_update S E _ _ _ s)) in *.
  assert (Hrest : keeps_paths same_samples s1
            (snd ((if adm_mud_packet a
                   then recv_ctrl S E (adm_path a) (adm_now a) (adm_send_time a) pkt;;
                        mret (0, data)
                   else rd ← mud_decrypt S E data pkt;
                        if fst rd =? -1
                        then modify_crypto (set_bad_key 1);; mret (0, snd rd)
                        else mret rd) s1))).
  { generalize s1. change (preserves (keeps_paths same_samples)
      (if adm_mud_packet a
       then recv_ctrl S E (adm_path a) (adm_now a) (adm_send_time a) pkt;;
            mret (0, data)
       else rd ← mud_decrypt S E data pkt;
            if fst rd =? -1
            then modify_crypto (set_bad_key 1);; mret (0, snd rd)
            else mret rd)).
    pres. }
  unfold keeps_paths in Hrest.
  destruct (Forall2_lookup_l _ _ _ _ _ Hrest Hq1) as (q2 & Hq2 & Hs2).
  exists q2. split; [exact Hq2|]. etrans; eassumption.
Qed.

Lemma mud_recv_arrive d data s a q :
  MUD_PACKET_MIN_SIZE < len (packet d) ->
  fst (recv_admit S E d s) = Some a ->
  paths (fst (snd (recv_admit S E d s))) = paths (fst s) ->
  paths (fst s) !! adm_path a = Some q ->
  exists q', paths (fst (snd (mud_recv S E (recvmsg_ok d) data s))) !! adm_path a
             = Some q'
             /\ same_samples (arrive (adm_now a) (adm_send_time a) q) q'.
Proof.
  intros Hlen Ha Hsame Hq. unfold mud_recv.
  destruct (Z.leb_spec (len (packet d)) MUD_PACKET_MIN_SIZE); [lia|].
  rewrite bind_state, Ha. apply recv_handle_arrive. rewrite Hsame. exact Hq.
Qed.

Lemma regular_run_samples i delta data ds : forall t st s s',
  regular_run S E i delta ds t st data s = Some s' ->
  forall q, paths (fst s) !! i = Some q ->
  exists q', paths (fst s') !! i = Some q'
             /\ same_samples (arrivals (length ds) t st delta q) q'.
Proof.
  induction ds as [|d ds IH]; intros t st s s' Hrun q Hq;
    cbn [regular_run] in Hrun.
  - injection Hrun as <-. exists q. split; [exact Hq|reflexivity].
  - destruct (Z.leb_spec (len (packet d)) MUD_PACKET_MIN_SIZE) as [|Hlen];
      [discriminate|].
    destruct (fst (recv_admit S E d s)) as [a|] eqn:Ha; [|discriminate].
    destruct (_ && _) eqn:Hc in Hrun; [|discriminate].
    apply andb_prop in Hc as [Hc Hsame]. apply andb_prop in Hc as [Hc Hst].
    apply andb_prop in Hc as [Hi Ht].
    apply Nat.eqb_eq in Hi, Hsame. apply Z.eqb_eq in Ht, Hst. subst i t st.
    assert (Hps : paths (fst (snd (recv_admit S E d s))) = paths (fst s)).
    { destruct (recv_admit_paths d s) as [H|H]; [exact H|lia]. }
    destruct (mud_recv_arrive d data s a q Hlen Ha Hps Hq) as (q1 & Hq1 & Hs1).
    destruct (IH _ _ _ _ Hrun q1 Hq1) as (q' & Hq' & Hs').
    exists q'. split; [exact Hq'|]. simpl.
    etrans; [|exact Hs']. apply arrivals_same_samples, Hs1.
Qed.

End samples.



(** ** The backup flag *)

Section bakx.

Context (S : sodium) (E : env).

(** A bakx packet marks the path and stores the flag of the peer; the
    reply on a passive path does not change either. *)
Lemma recv_ctrl_bakx i now st pkt s q :
  len pkt = MUD_BAKX_SIZE ->
  paths (fst s) !! i = Some q ->
  exists p', paths (fst (snd (recv_ctrl S E i now st pkt s))) !! i = Some p'
             /\ bak_local (bak p') = 1
             /\ bak_remote (bak p') = byte_at pkt 12.
Proof.
  intros Hlen Hq. unfold recv_ctrl. rewrite Hlen.
  change (MUD_BAKX_SIZE =? MUD_KEYX_SIZE) with false.
  change (MUD_BAKX_SIZE =? MUD_MTUX_SIZE) with false.
  change (MUD_BAKX_SIZE =? MUD_PONG_SIZE) with false.
  change (MUD_BAKX_SIZE =? MUD_BAKX_SIZE) with true. cbv iota.
  rewrite !bind_state. cbn [get_path fst snd].
  set (s1 := snd (modify_path i (set_bak_remote (byte_at pkt 12))
                    (snd (modify_path i (set_bak_local 1) s)))).
  assert (H1 : paths (fst s1) !! i
               = Some (set_bak_remote (byte_at pkt 12) (set_bak_local 1 q))).
  { subst s1. simpl. rewrite !list_lookup_alter_eq, Hq. reflexivity. }
  assert (H2 : forall b : bool, preserves (keeps_paths same_role)
                 (if b then mud_ctrl_path S E mud_bakx i now else mret ())).
  { intros []; [apply mud_ctrl_path_keeps_role|apply preserves_ret; apply _]. }
  specialize (H2 (negb (active (default zero_path (paths (fst s1) !! i)))) s1).
  unfold keeps_paths in H2.
  destruct (Forall2_lookup_l _ _ _ _ _ H2 H1) as (p' & Hp' & (_ & _ & _ & Hl & Hr)).
  exists p'. split; [exact Hp'|]. split; [rewrite <- Hl|rewrite <- Hr]; reflexivity.
Qed.

(** No pong is sent on a path whose [bak.local] is set. *)
Lemma recv_pong_backup p i now s :
  bak_local (bak p) <> 0 -> recv_pong S E p i now s = (tt, s).
Proof.
  intros Hb. unfold recv_pong.
  destruct (Z.eqb_spec (bak_local (bak p)) 0); [contradiction|reflexivity].
Qed.

(** The first loop of [mud_send] steps over such a path. *)
Lemma send_select_backup now pkt size t i l acc s p :
  paths (fst s) !! i = Some p -> bak_local (bak p) <> 0 ->
  send_select E now pkt size t (i :: l) acc s
  = send_select E now pkt size t l acc s.
Proof.
  intros Hp Hb. simpl. unfold mbind at 1, M_bind at 1, get_path.
  rewrite Hp. simpl.
  destruct (Z.eqb_spec (bak_local (bak p)) 0); [contradiction|reflexivity].
Qed.

End bakx.



(** ** The choice of the path of a data frame *)

Section egress.

Context (S : sodium) (E : env).

(** What the first loop of [mud_send] does with the path at the head of
    the list. *)
Lemma send_select_cons now pkt size t i l acc s p :
  paths (fst s) !! i = Some p ->
  send_select E now pkt size t (i :: l) acc s
  = if negb (bak_local (bak p) =? 0) then send_select E now pkt size t l acc s
    else if mud_timeout now (recv_time p) (send_timeout (fst s)) then
      send_select E now pkt size t l acc
        (snd ((mud_send_path E i now pkt (u64 size) t;;
               modify_path i (set_limit (u64 (path_limit now p)))) s))
    else if snd acc >? path_limit now p then
      send_select E now pkt size t l (Some i, path_limit now p) s
    else send_select E now pkt size t l acc s.
Proof.
  intros Hp. simpl. unfold mbind at 1, M_bind at 1, get_path.
  rewrite Hp. cbn [default from_option id fst snd].
  destruct (negb _); [reflexivity|].
  unfold mbind at 1, M_bind at 1, get_mud. cbn [fst snd].
  destruct (mud_timeout _ _ _).
  - rewrite !bind_state. unfold mbind, M_bind.
    destruct (mud_send_path E i now pkt (u64 size) t s) as [r s1].
    cbn [fst snd].
    destruct (modify_path i (set_limit (u64 (path_limit now p))) s1) as [[] s2].
    reflexivity.
  - destruct (_ >? _); reflexivity.
Qed.

Lemma send_select_spec ps timeout now pkt size t l :
  NoDup l -> (forall i, i ∈ l -> is_Some (ps !! i)) ->
  forall acc s,
    Forall2 same_role ps (paths (fst s)) ->
    send_timeout (fst s) = timeout ->
    (forall i, i ∈ l -> paths (fst s) !! i = ps !! i) ->
    acc_ok ps acc ->
    let r := send_select E now pkt size t l acc s in
    wire_grows (on_nonbackup ps) s (snd r)
    /\ keeps_paths same_role s (snd r)
    /\ acc_ok ps (fst r)
    /\ (is_Some (fst acc) -> is_Some (fst (fst r)))
    /\ ((exists i, i ∈ l /\ candidate ps timeout now i) -> is_Some (fst (fst r))).
Proof.
  intros Hnd. induction Hnd as [|i l Hi Hnd IH]; intros Hin acc s Hrole Hto Hsame Hacc.
  - simpl. split; [reflexivity|]. split; [reflexivity|]. split; [exact Hacc|].
    split; [auto|]. intros (i & Hi & _). inversion Hi.
  - destruct (Hin i) as [p Hp]; [left|].
    assert (Hps : paths (fst s) !! i = Some p).
    { rewrite Hsame by left. exact Hp. }
    assert (Hin' : forall j, j ∈ l -> is_Some (ps !! j)).
    { intros j Hj. apply Hin. right. exact Hj. }
    assert (Hsame' : forall j, j ∈ l -> paths (fst s) !! j = ps !! j).
    { intros j Hj. apply Hsame. right. exact Hj. }
    rewrite (send_select_cons now pkt size t i l acc s p Hps).
    destruct (Z.eqb_spec (bak_local (bak p)) 0) as [Hb|Hb]; cbn [negb].
    2: { (* a backup path is passed over *)
      destruct (IH Hin' acc s Hrole Hto Hsame' Hacc) as (H1 & H2 & H3 & H4 & H5).
      repeat split; try assumption.
      intros (j & Hj & Hc). apply H5. exists j. split; [|exact Hc].
      apply elem_of_cons in Hj as [->|Hj]; [|exact Hj].
      destruct Hc as (p' & Hp' & Hb' & _). congruence. }
    rewrite Hto.
    destruct (mud_timeout now (recv_time p) timeout) eqn:Htime.
    + (* a path not heard of within the timeout gets the frame *)
      set (step := mud_send_path E i now pkt (u64 size) t;;
                   modify_path i (set_limit (u64 (path_limit now p)))).
      assert (Hw : preserves (wire_grows (on_nonbackup ps)) step).
      { subst step. pres. apply mud_send_path_on_nonbackup. eauto. }
      assert (Hr : preserves (keeps_paths same_role) step).
      { subst step. pres. }
      assert (Hc : preserves keeps_config step).
      { subst step. pres. }
      assert (Ht : preserves (touches_only i) step).
      { subst step. pres. }
      specialize (Hw s). specialize (Hr s). specialize (Hc s). specialize (Ht s).
      set (s1 := snd (step s)) in *.
      destruct (IH Hin' acc s1) as (H1 & H2 & H3 & H4 & H5).
      * unfold keeps_paths in Hr. etrans; eassumption.
      * destruct Hc as (_ & _ & Hc & _). congruence.
      * intros j Hj. rewrite Ht; [apply Hsame'; exact Hj|].
        intros ->. contradiction.
      * exact Hacc.
      * split; [etrans; eassumption|]. split; [etrans; eassumption|].
        split; [exact H3|]. split; [exact H4|].
        intros (j & Hj & Hcand). apply H5. exists j. split; [|exact Hcand].
        apply elem_of_cons in Hj as [->|Hj]; [|exact Hj].
        destruct Hcand as (p' & Hp' & _ & Ht' & _). congruence.
    + (* a path heard of competes for the smallest deadline *)
      destruct (Z.gtb_spec (snd acc) (path_limit now p)) as [Hgt|Hle].
      * destruct (IH Hin' (Some i, path_limit now p) s Hrole Hto Hsame')
          as (H1 & H2 & H3 & H4 & H5).
        { exists p. split; assumption. }
        repeat split; try assumption.
        -- intros _. apply H4. eauto.
        -- intros _. apply H4. eauto.
      * destruct (IH Hin' acc s Hrole Hto Hsame' Hacc) as (H1 & H2 & H3 & H4 & H5).
        repeat split; try assumption.
        intros (j & Hj & Hcand).
        apply elem_of_cons in Hj as [->|Hj]; [|apply H5; eauto].
        apply H4. destruct Hcand as (p' & Hp' & _ & _ & Hlim).
        assert (p' = p) by congruence. subst p'.
        unfold acc_ok in Hacc. destruct (fst acc); [eauto|]. lia.
Qed.

(** The part of [mud_send] that follows the control tick, with a
    candidate among the paths. *)
Lemma send_data_avoids_backup data t s :
  (exists i, candidate (paths (fst s)) (send_timeout (fst s))
               (clock_value E (clock_reads (snd s))) i) ->
  wire_grows (on_nonbackup (paths (fst s))) s (snd (send_data S E data t s)).
Proof.
  intros (i & Hcand). unfold send_data.
  destruct (len data =? 0); [reflexivity|].
  rewrite bind_state. cbn [get_mud fst snd].
  destruct (len data >? u64 (mud_get_mtu (fst s))); [reflexivity|].
  rewrite bind_state. cbn [mud_now fst snd].
  set (now := clock_value E (clock_reads (snd s))) in *.
  set (enc := mud_encrypt S (fst s) now (zeros 2048) data).
  destruct (fst enc =? 0).
  { exists []. split; [reflexivity|constructor]. }
  rewrite bind_state.
  pose proof (send_select_spec (paths (fst s)) (send_timeout (fst s)) now
                (snd enc) (fst enc) t (seq 0 (length (paths (fst s))))
                (NoDup_seq _ _)) as Hsel.
  destruct (Hsel) with (acc := (@None nat, INT64_MAX)) (s := (fst s, tick (snd s)))
    as (Hw & Hr & Hacc & _ & Hsome).
  { intros j Hj. apply lookup_lt_is_Some. apply elem_of_seq in Hj. lia. }
  { reflexivity. }
  { reflexivity. }
  { intros j _. reflexivity. }
  { reflexivity. }
  clear Hsel.
  destruct Hsome as [j Hj].
  { exists i. split; [|exact Hcand].
    destruct Hcand as (p & Hp & _). apply lookup_lt_Some in Hp.
    apply elem_of_seq. lia. }
  set (r := send_select E now (snd enc) (fst enc) t _ _ _) in *.
  unfold acc_ok in Hacc. rewrite Hj in Hacc |- *.
  rewrite bind_state. cbn [get_mud fst snd].
  assert (Hfin : preserves (wire_grows (on_nonbackup (paths (fst s))))
            (r0 ← mud_send_path E j now (snd enc) (u64 (fst enc)) t;
             (if r0 =? fst enc
              then modify_path j (set_limit (u64 (snd (fst r)))) else mret ());;
             mret (int32 r0, @None errno))).
  { pres. apply mud_send_path_on_nonbackup. exact Hacc. }
  specialize (Hfin (snd r)).
  assert (H0 : wire_grows (on_nonbackup (paths (fst s))) s (fst s, tick (snd s))).
  { destruct s as [m w]. apply blind. reflexivity. }
  etrans; [exact H0|]. etrans; [exact Hw|exact Hfin].
Qed.

End egress.




(** * Further properties of the engine *)

(** ** The 48-bit codec *)

Lemma Z_of_byte_range b : 0 <= Z_of_byte b < 256.
Proof.
  unfold Z_of_byte. pose proof (Byte.to_N_bounded b). lia.
Qed.

Lemma Z_of_byte_of_Z z : Z_of_byte (byte_of_Z z) = Z.land z 255.
Proof.
  unfold Z_of_byte, byte_of_Z.
  assert (Hr : 0 <= Z.land z 255 < 256).
  { change 255 with (Z.ones 8). rewrite Z.land_ones by lia.
    apply Z.mod_pos_bound. lia. }
  destruct (Byte.of_N (Z.to_N (Z.land z 255))) as [b|] eqn:Hb.
  - apply Byte.to_of_N in Hb. rewrite Hb. lia.
  - apply Byte.of_N_None_iff in Hb. lia.
Qed.

Lemma byte_of_Z_of_byte b : byte_of_Z (Z_of_byte b) = b.
Proof.
  unfold byte_of_Z, Z_of_byte.
  pose proof (Byte.to_N_bounded b) as Hb.
  change 255 with (Z.ones 8). rewrite Z.land_ones by lia.
  rewrite Z.mod_small by lia. rewrite N2Z.id, Byte.of_to_N. reflexivity.
Qed.

Lemma Z_of_byte_inj a b : Z_of_byte a = Z_of_byte b -> a = b.
Proof.
  intros H. rewrite <- (byte_of_Z_of_byte a), <- (byte_of_Z_of_byte b), H.
  reflexivity.
Qed.

(** Bit [n] of the byte [k] of a number, as [mud_write48] cuts it out and
    [mud_read48] puts it back. *)
Lemma testbit_byte x k n :
  0 <= k -> 0 <= n ->
  Z.testbit (Z.shiftl (Z.land (Z.land 255 (Z.shiftr x k)) 255) k) n
  = Z.testbit x n && (k <=? n) && (n <? k + 8).
Proof.
  intros Hk Hn. rewrite Z.shiftl_spec by lia.
  destruct (Z.leb_spec k n) as [Hle|Hlt].
  - rewrite !Z.land_spec, Z.shiftr_spec by lia.
    replace (n - k + k) with n by lia.
    change 255 with (Z.ones 8).
    destruct (Z.ltb_spec n (k + 8)).
    + rewrite Z.ones_spec_low by lia. destruct (Z.testbit x n); reflexivity.
    + rewrite Z.ones_spec_high by lia. destruct (Z.testbit x n); reflexivity.
  - rewrite Z.testbit_neg_r by lia. destruct (Z.testbit x n); reflexivity.
Qed.

(** The six bytes cover the bits below 48, each once. *)
Lemma six_bytes_cover n :
  0 <= n ->
  (0 <=? n) && (n <? 0 + 8) || (8 <=? n) && (n <? 8 + 8)
  || (16 <=? n) && (n <? 16 + 8) || (24 <=? n) && (n <? 24 + 8)
  || (32 <=? n) && (n <? 32 + 8) || (40 <=? n) && (n <? 40 + 8)
  = (n <? 48).
Proof.
  intros Hn.
  repeat match goal with
         | |- context [?a <=? ?b] => destruct (Z.leb_spec a b); try lia
         | |- context [?a <? ?b] => destruct (Z.ltb_spec a b); try lia
         end; reflexivity.
Qed.

Lemma mud_read48_write48 x rest :
  mud_read48 (mud_write48 x ++ rest) = x mod 2 ^ 48.
Proof.
  unfold mud_read48, mud_write48, byte_at. cbn [app nth].
  rewrite !Z_of_byte_of_Z.
  rewrite <- (Z.shiftl_0_r (Z.land (Z.land 255 x) 255)).
  rewrite <- (Z.shiftr_0_r x) at 1.
  apply Z.bits_inj'. intros n Hn.
  rewrite !Z.lor_spec, !testbit_byte by lia.
  rewrite <- !andb_assoc, <- !andb_orb_distrib_r, six_bytes_cover by lia.
  destruct (Z.ltb_spec n 48).
  - rewrite Z.mod_pow2_bits_low by lia. apply andb_true_r.
  - rewrite Z.mod_pow2_bits_high by lia. apply andb_false_r.
Qed.

Lemma testbit_byte_high b n : 8 <= n -> Z.testbit (Z_of_byte b) n = false.
Proof.
  intros Hn. pose proof (Z_of_byte_range b) as Hb.
  destruct (Z.eq_dec (Z_of_byte b) 0) as [->|Hnz]; [apply Z.testbit_0_l|].
  apply Z.bits_above_log2; [lia|].
  assert (Z.log2 (Z_of_byte b) < 8); [|lia].
  apply Z.log2_lt_pow2; lia.
Qed.

(** The byte at the offset [k] of a number made of six bytes. *)
Lemma byte_of_six b0 b1 b2 b3 b4 b5 k c :
  (k = 0 /\ c = b0) \/ (k = 8 /\ c = b1) \/ (k = 16 /\ c = b2)
  \/ (k = 24 /\ c = b3) \/ (k = 32 /\ c = b4) \/ (k = 40 /\ c = b5) ->
  byte_of_Z (Z.land 255 (Z.shiftr
    (Z.lor (Z.lor (Z.lor (Z.lor (Z.lor
       (Z_of_byte b0)
       (Z.shiftl (Z_of_byte b1) 8))
       (Z.shiftl (Z_of_byte b2) 16))
       (Z.shiftl (Z_of_byte b3) 24))
       (Z.shiftl (Z_of_byte b4) 32))
       (Z.shiftl (Z_of_byte b5) 40)) k)) = c.
Proof.
  intros Hk. rewrite <- (byte_of_Z_of_byte c). f_equal.
  apply Z.bits_inj'. intros n Hn.
  assert (0 <= k) by lia.
  rewrite Z.land_spec, Z.shiftr_spec, !Z.lor_spec, !Z.shiftl_spec by lia.
  change 255 with (Z.ones 8).
  destruct (Z.ltb_spec n 8) as [Hlt|Hge].
  - rewrite Z.ones_spec_low by lia. cbn [andb].
    destruct Hk as [[-> ->]|[[-> ->]|[[-> ->]|[[-> ->]|[[-> ->]|[-> ->]]]]]];
      repeat match goal with
             | |- context [Z.testbit (Z_of_byte ?b) ?m] =>
                 first [ rewrite (Z.testbit_neg_r (Z_of_byte b) m) by lia
                       | rewrite (testbit_byte_high b m) by lia
                       | replace m with n by lia; generalize (Z.testbit (Z_of_byte b) n); intros ? ]
             end; rewrite ?orb_false_r; reflexivity.
  - rewrite Z.ones_spec_high by lia. cbn [andb].
    symmetry. apply testbit_byte_high. lia.
Qed.

Lemma mud_write48_read48 src :
  (6 <= length src)%nat ->
  mud_write48 (mud_read48 src) = take 6 src.
Proof.
  intros Hlen.
  do 6 (destruct src as [|? src]; [simpl in Hlen; lia|]).
  unfold mud_read48, mud_write48, byte_at. cbn [nth firstn].
  rewrite <- (Z.shiftr_0_r (Z.lor _ _)) at 1.
  do 5 (f_equal; [apply byte_of_six; tauto|]).
  f_equal. apply byte_of_six; tauto.
Qed.

Lemma mud_read48_range src : 0 <= mud_read48 src < 2 ^ 48.
Proof.
  assert (H : mud_read48 src mod 2 ^ 48 = mud_read48 src).
  { apply Z.bits_inj'. intros n Hn.
    destruct (Z.ltb_spec n 48).
    - apply Z.mod_pow2_bits_low. lia.
    - rewrite Z.mod_pow2_bits_high by lia.
      unfold mud_read48, byte_at.
      rewrite !Z.lor_spec, !Z.shiftl_spec by lia.
      rewrite !testbit_byte_high by lia. reflexivity. }
  rewrite <- H. apply Z.mod_pos_bound. lia.
Qed.

Lemma mask48_ones : mask48 = Z.ones 48.
Proof. reflexivity. Qed.

Lemma clock_value_range E k : 0 <= clock_value E k < 2 ^ 48.
Proof.
  unfold clock_value. rewrite mask48_ones, Z.land_ones by lia.
  apply Z.mod_pos_bound. lia.
Qed.

(** ** Comparisons *)

Lemma memcmp_refl a n : memcmp a a n = 0.
Proof.
  revert a. induction n as [|n IH]; intros a; simpl; [reflexivity|].
  rewrite Z.eqb_refl. apply IH.
Qed.

Lemma memcmp_zero a b n :
  (n <= length a)%nat -> (n <= length b)%nat ->
  memcmp a b n = 0 <-> take n a = take n b.
Proof.
  revert a b. induction n as [|n IH]; intros a b Ha Hb; simpl.
  - split; reflexivity.
  - destruct a as [|x a]; [simpl in Ha; lia|].
    destruct b as [|y b]; [simpl in Hb; lia|].
    simpl in Ha, Hb |- *.
    destruct (Z.eqb_spec (Z_of_byte x) (Z_of_byte y)) as [Hxy|Hxy].
    + apply Z_of_byte_inj in Hxy. subst y.
      rewrite IH by lia. split; [intros ->; reflexivity|].
      intros [= H]. exact H.
    + split; [lia|]. intros [= -> _]. contradiction.
Qed.

Lemma mud_abs_diff_sym a b : mud_abs_diff a b = mud_abs_diff b a.
Proof.
  unfold mud_abs_diff.
  destruct (Z.geb_spec a b), (Z.geb_spec b a); try reflexivity; try lia.
  replace b with a by lia. reflexivity.
Qed.

Lemma mud_abs_diff_abs a b :
  0 <= a < 2 ^ 64 -> 0 <= b < 2 ^ 64 -> mud_abs_diff a b = Z.abs (a - b).
Proof.
  intros Ha Hb. unfold mud_abs_diff.
  destruct (Z.geb_spec a b); rewrite u64_small by lia; lia.
Qed.

(** ** Addresses *)

Lemma mud_cmp_ipaddr_refl l : family l <> AF_UNSPEC -> mud_cmp_ipaddr l l = 0.
Proof.
  intros Hf. unfold mud_cmp_ipaddr.
  rewrite bool_decide_eq_true_2 by reflexivity. cbn [negb].
  destruct (family l); [apply memcmp_refl|apply memcmp_refl|contradiction].
Qed.

Lemma mud_cmp_addr_refl a : sa_family_of a <> AF_UNSPEC -> mud_cmp_addr a a = 0.
Proof.
  intros Hf. unfold mud_cmp_addr.
  rewrite bool_decide_eq_true_2 by reflexivity. cbn [negb].
  rewrite Z.eqb_refl.
  destruct (sa_family_of a); rewrite ?memcmp_refl;
    [reflexivity|reflexivity|contradiction].
Qed.

Lemma mud_cmp_ipaddr_zero a b :
  wf_ipaddr a -> wf_ipaddr b -> mud_cmp_ipaddr a b = 0 <-> a = b.
Proof.
  unfold wf_ipaddr. intros Ha Hb. split.
  - unfold mud_cmp_ipaddr.
    destruct (decide (family a = family b)) as [Hf|Hf].
    + rewrite bool_decide_eq_true_2 by exact Hf. cbn [negb].
      rewrite <- Hf in Hb. destruct a as [fa ia], b as [fb ib].
      cbn [family ip] in *. subst fb.
      destruct fa; cbn [addr_size] in Ha, Hb; try discriminate;
        injection Ha as Ha; injection Hb as Hb;
        rewrite memcmp_zero by lia; rewrite Ha at 1; rewrite Hb;
        rewrite !firstn_all; intros ->; reflexivity.
    + rewrite bool_decide_eq_false_2 by exact Hf. cbn [negb]. discriminate.
  - intros <-. apply mud_cmp_ipaddr_refl. intros Hf. rewrite Hf in Ha.
    discriminate.
Qed.

Lemma mud_cmp_addr_zero a b :
  wf_sockaddr a -> wf_sockaddr b -> mud_cmp_addr a b = 0 <-> a = b.
Proof.
  unfold wf_sockaddr. intros Ha Hb. split.
  - unfold mud_cmp_addr.
    destruct (decide (sa_family_of a = sa_family_of b)) as [Hf|Hf].
    + rewrite bool_decide_eq_true_2 by exact Hf. cbn [negb].
      rewrite <- Hf in Hb. destruct a as [fa pa ia], b as [fb pb ib].
      cbn [sa_family_of sin_port sin_addr] in *. subst fb.
      destruct fa; cbn [addr_size] in Ha, Hb; try discriminate;
        injection Ha as Ha; injection Hb as Hb;
        (destruct (Z.eqb_spec pa pb) as [->|?]; cbn [negb orb]; [|discriminate]);
        match goal with
        | |- context [memcmp ?x ?y ?n] =>
            destruct (Z.eqb_spec (memcmp x y n) 0) as [Hm|?];
              cbn [negb]; [|discriminate]
        end;
        apply memcmp_zero in Hm; try lia;
        rewrite Ha in Hm at 1; rewrite Hb in Hm; rewrite !firstn_all in Hm;
        subst ib; reflexivity.
    + rewrite bool_decide_eq_false_2 by exact Hf. cbn [negb]. discriminate.
  - intros <-. apply mud_cmp_addr_refl. intros Hf. rewrite Hf in Ha.
    discriminate.
Qed.

Lemma mud_unmapv4_idem a : mud_unmapv4 (mud_unmapv4 a) = mud_unmapv4 a.
Proof.
  unfold mud_unmapv4.
  destruct (decide (sa_family_of a = AF_INET6)) as [H6|H6].
  - rewrite (bool_decide_eq_true_2 _ H6). simpl.
    destruct (IN6_IS_ADDR_V4MAPPED (sin_addr a)) eqn:Hm; simpl.
    + reflexivity.
    + rewrite (bool_decide_eq_true_2 _ H6), Hm. reflexivity.
  - rewrite (bool_decide_eq_false_2 _ H6). simpl.
    rewrite (bool_decide_eq_false_2 _ H6). reflexivity.
Qed.

(** ** The path table *)

Lemma mud_set_path_endpoints p l a :
  sa_family_of a <> AF_UNSPEC ->
  local_addr (mud_set_path p l a) = l /\ addr (mud_set_path p l a) = a.
Proof.
  intros Hf. unfold mud_set_path.
  destruct (sa_family_of a); [split; reflexivity|split; reflexivity|contradiction].
Qed.

Lemma mud_set_path_fresh l a :
  active (mud_set_path zero_path l a) = false
  /\ bak (mud_set_path zero_path l a) = bak zero_path
  /\ same_samples zero_path (mud_set_path zero_path l a)
  /\ send_time (mud_set_path zero_path l a) = 0.
Proof.
  unfold mud_set_path. destruct (sa_family_of a); repeat split.
Qed.

(** What the search finds is the first path that matches. *)
Lemma find_path_first l a ps i :
  find_path l a ps = Some i ->
  exists p, ps !! i = Some p /\ path_matches l a p
    /\ forall j q, (j < i)%nat -> ps !! j = Some q -> ~ path_matches l a q.
Proof.
  revert i. induction ps as [|p ps IH]; intros i; simpl; [discriminate|].
  destruct (Z.eqb_spec (mud_cmp_ipaddr l (local_addr p)) 0) as [H1|H1]; simpl.
  - destruct (Z.eqb_spec (mud_cmp_addr a (addr p)) 0) as [H2|H2]; simpl.
    + intros [= <-]. exists p. split; [reflexivity|]. split; [split; assumption|].
      intros j q Hj. lia.
    + destruct (find_path l a ps) as [k|]; [|discriminate].
      intros [= <-]. destruct (IH k eq_refl) as (q & Hq & Hm & Hfirst).
      exists q. split; [exact Hq|]. split; [exact Hm|].
      intros [|j] q' Hj; simpl.
      * intros [= <-] [_ Hc]. contradiction.
      * apply Hfirst. lia.
  - destruct (find_path l a ps) as [k|]; [|discriminate].
    intros [= <-]. destruct (IH k eq_refl) as (q & Hq & Hm & Hfirst).
    exists q. split; [exact Hq|]. split; [exact Hm|].
    intros [|j] q' Hj; simpl.
    + intros [= <-] [Hc _]. contradiction.
    + apply Hfirst. lia.
Qed.

Lemma find_path_none l a ps :
  find_path l a ps = None -> Forall (fun p => ~ path_matches l a p) ps.
Proof.
  induction ps as [|p ps IH]; simpl; [constructor|].
  destruct (Z.eqb_spec (mud_cmp_ipaddr l (local_addr p)) 0) as [H1|H1]; simpl.
  - destruct (Z.eqb_spec (mud_cmp_addr a (addr p)) 0) as [H2|H2]; simpl;
      [discriminate|].
    destruct (find_path l a ps); [discriminate|]. intros _.
    constructor; [intros [_ ?]; contradiction|apply IH; reflexivity].
  - destruct (find_path l a ps); [discriminate|]. intros _.
    constructor; [intros [? _]; contradiction|apply IH; reflexivity].
Qed.

Lemma find_path_head l a p ps :
  path_matches l a p -> find_path l a (p :: ps) = Some 0%nat.
Proof.
  intros [H1 H2]. simpl. rewrite H1, H2. reflexivity.
Qed.

(** [mud_path] as one expression. *)
Lemma mud_path_run E l a create s :
  mud_path E l a create s
  = if negb (bool_decide (family l = sa_family_of a)) then (None, s)
    else match find_path l a (paths (fst s)) with
         | Some i => (Some i, s)
         | None =>
             if negb create then (None, s)
             else if calloc_fails E (allocs (snd s))
                  then (None, (fst s, allocated (snd s)))
                  else (Some 0%nat,
                        (set_paths (mud_set_path zero_path l a :: paths (fst s))
                           (fst s),
                         allocated (snd s)))
         end.
Proof.
  unfold mud_path. destruct (negb _); [reflexivity|].
  unfold mbind at 1, M_bind at 1, get_mud.
  destruct (find_path l a (paths (fst s))); [reflexivity|].
  destruct (negb create); [reflexivity|].
  unfold mbind, M_bind, calloc, mret, M_ret, modify_mud. cbn [fst snd].
  destruct (calloc_fails E (allocs (snd s))); reflexivity.
Qed.

Lemma mud_path_new_matches l a :
  family l <> AF_UNSPEC -> family l = sa_family_of a ->
  path_matches l a (mud_set_path zero_path l a).
Proof.
  intros Hf Hfa.
  destruct (mud_set_path_endpoints zero_path l a) as [H1 H2]; [congruence|].
  unfold path_matches. rewrite H1, H2. split.
  - apply mud_cmp_ipaddr_refl, Hf.
  - apply mud_cmp_addr_refl. congruence.
Qed.

(** A path that [mud_path] returned is found again. *)
Lemma mud_path_again (E : env) l a create s i :
  family l <> AF_UNSPEC ->
  fst (mud_path E l a create s) = Some i ->
  (exists p, paths (fst (snd (mud_path E l a create s))) !! i = Some p
             /\ path_matches l a p)
  /\ forall create',
       mud_path E l a create' (snd (mud_path E l a create s))
       = (Some i, snd (mud_path E l a create s)).
Proof.
  intros Hf. rewrite !mud_path_run.
  destruct (decide (family l = sa_family_of a)) as [Hfa|Hfa].
  2: { rewrite (bool_decide_eq_false_2 _ Hfa). discriminate. }
  rewrite (bool_decide_eq_true_2 _ Hfa). cbn [negb].
  destruct (find_path l a (paths (fst s))) as [j|] eqn:Hfind.
  - intros [= <-]. cbn [fst snd]. split.
    + destruct (find_path_first _ _ _ _ Hfind) as (p & Hp & Hm & _). eauto.
    + intros c'. rewrite mud_path_run, (bool_decide_eq_true_2 _ Hfa), Hfind.
      reflexivity.
  - destruct (negb create); [discriminate|].
    destruct (calloc_fails E (allocs (snd s))); [discriminate|].
    intros [= <-]. cbn [fst snd paths set_paths].
    pose proof (mud_path_new_matches l a Hf Hfa) as Hm. split.
    + eexists. split; [reflexivity|exact Hm].
    + intros c'. rewrite mud_path_run, (bool_decide_eq_true_2 _ Hfa).
      cbn [fst snd paths set_paths negb].
      rewrite (find_path_head _ _ _ _ Hm). reflexivity.
Qed.

(** What [mud_path] changes. *)
Lemma mud_path_frame (E : env) l a create s :
  (fst (snd (mud_path E l a create s)) = fst s
   \/ (create = true
       /\ fst (mud_path E l a create s) = Some 0%nat
       /\ find_path l a (paths (fst s)) = None
       /\ exists p,
            fst (snd (mud_path E l a create s))
            = set_paths (p :: paths (fst s)) (fst s)
            /\ active p = false /\ bak_local (bak p) = 0
            /\ recv_time p = 0 /\ send_time p = 0))
  /\ (create = false -> snd (mud_path E l a create s) = s)
  /\ (family l <> sa_family_of a -> mud_path E l a create s = (None, s)).
Proof.
  rewrite !mud_path_run.
  destruct (decide (family l = sa_family_of a)) as [Hfa|Hfa].
  2: { rewrite (bool_decide_eq_false_2 _ Hfa). cbn [negb fst snd].
       split; [left; reflexivity|]. split; reflexivity. }
  rewrite (bool_decide_eq_true_2 _ Hfa). cbn [negb].
  destruct (find_path l a (paths (fst s))) as [j|] eqn:Hfind.
  { cbn [fst snd]. split; [left; reflexivity|].
    split; [reflexivity|contradiction]. }
  destruct create; cbn [negb].
  - destruct (calloc_fails E (allocs (snd s))); cbn [fst snd].
    + split; [left; reflexivity|]. split; [discriminate|contradiction].
    + split; [|split; [discriminate|contradiction]].
      right. split; [reflexivity|]. split; [reflexivity|].
      split; [reflexivity|].
      exists (mud_set_path zero_path l a). split; [reflexivity|].
      destruct (mud_set_path_fresh l a) as (H1 & H2 & (_ & _ & _ & H3) & H4).
      rewrite H1, H2, <- H3, H4. repeat split.
  - cbn [fst snd]. split; [left; reflexivity|].
    split; [reflexivity|contradiction].
Qed.

(** ** Parts of the engine that an operation leaves alone *)

#[global] Instance keeps_preorder {X} (g : mud -> X) : PreOrder (keeps g).
Proof.
  split; [intros s; reflexivity|].
  intros s1 s2 s3 H1 H2. unfold keeps in *. congruence.
Qed.

#[global] Instance keeps_blind {X} (g : mud -> X) : Blind (keeps g).
Proof. intros m w w' _. reflexivity. Qed.

#[global] Instance same_endpoints_preorder : PreOrder same_endpoints.
Proof.
  split; [intros p; repeat split|].
  intros p1 p2 p3 (?&?&?) (?&?&?). repeat split; congruence.
Qed.

Section paths_apart.

Context {X : Type} (g : mud -> X).
Hypothesis Hg : forall ps m, g (set_paths ps m) = g m.

Lemma modify_path_keeps i f : preserves (keeps g) (modify_path i f).
Proof. intros s. unfold keeps. simpl. symmetry. apply Hg. Qed.

Lemma sendmsg_keeps E i p data : preserves (keeps g) (sendmsg E i p data).
Proof. intros s. reflexivity. Qed.

Hint Resolve modify_path_keeps sendmsg_keeps : pres.

Lemma mud_send_path_keeps E i now data size t :
  preserves (keeps g) (mud_send_path E i now data size t).
Proof. unfold mud_send_path. pres. Qed.

Hint Resolve mud_send_path_keeps : pres.

Lemma mud_ctrl_path_keeps S E msg i now :
  preserves (keeps g) (mud_ctrl_path S E msg i now).
Proof. unfold mud_ctrl_path. pres. Qed.

Hint Resolve mud_ctrl_path_keeps : pres.

Lemma mud_path_keeps E l a create :
  preserves (keeps g) (mud_path E l a create).
Proof.
  unfold mud_path. pres. intros s. unfold keeps. simpl. symmetry. apply Hg.
Qed.

Hint Resolve mud_path_keeps : pres.

Lemma recv_admit_keeps S E d : preserves (keeps g) (recv_admit S E d).
Proof. unfold recv_admit. pres. Qed.

Lemma recv_pong_keeps S E p i now : preserves (keeps g) (recv_pong S E p i now).
Proof. unfold recv_pong. pres. Qed.

Hint Resolve recv_pong_keeps : pres.

Lemma recv_path_update_keeps S E i now st :
  preserves (keeps g) (recv_path_update S E i now st).
Proof. unfold recv_path_update. pres. Qed.

Lemma send_select_keeps E now pkt size t l acc :
  preserves (keeps g) (send_select E now pkt size t l acc).
Proof.
  revert acc. induction l as [|i l IH]; intros acc; simpl; [pres|].
  pres; apply IH.
Qed.

End paths_apart.

#[global] Hint Extern 2 (preserves (keeps _) (modify_path _ _)) =>
  (apply modify_path_keeps; intros ? ?; reflexivity) : pres.
#[global] Hint Extern 2 (preserves (keeps _) (sendmsg _ _ _ _)) =>
  (apply sendmsg_keeps) : pres.
#[global] Hint Extern 2 (preserves (keeps _) (mud_send_path _ _ _ _ _ _)) =>
  (apply mud_send_path_keeps; intros ? ?; reflexivity) : pres.
#[global] Hint Extern 2 (preserves (keeps _) (mud_ctrl_path _ _ _ _ _)) =>
  (apply mud_ctrl_path_keeps; intros ? ?; reflexivity) : pres.
#[global] Hint Extern 2 (preserves (keeps _) (mud_path _ _ _ _)) =>
  (apply mud_path_keeps; intros ? ?; reflexivity) : pres.
#[global] Hint Extern 2 (preserves (keeps _) (recv_admit _ _ _)) =>
  (apply recv_admit_keeps; intros ? ?; reflexivity) : pres.
#[global] Hint Extern 2 (preserves (keeps _) (recv_pong _ _ _ _ _)) =>
  (apply recv_pong_keeps; intros ? ?; reflexivity) : pres.
#[global] Hint Extern 2 (preserves (keeps _) (recv_path_update _ _ _ _ _)) =>
  (apply recv_path_update_keeps; intros ? ?; reflexivity) : pres.
#[global] Hint Extern 2 (preserves (keeps _) (send_select _ _ _ _ _ _ _)) =>
  (apply send_select_keeps; intros ? ?; reflexivity) : pres.
#[global] Hint Extern 2 (preserves (keeps _) (modify_crypto _)) =>
  (intros ?; reflexivity) : pres.
#[global] Hint Extern 2 (preserves (keeps _) (modify_mtu _)) =>
  (intros ?; reflexivity) : pres.

(** Receiving leaves the setup of the engine alone. *)
Lemma keyx_derive_keeps_setup S now rp :
  preserves (keeps setup_of) (keyx_derive S now rp).
Proof. unfold keyx_derive. pres. Qed.

#[global] Hint Resolve keyx_derive_keeps_setup : pres.

Lemma mud_recv_keyx_keeps_setup S E i now data :
  preserves (keeps setup_of) (mud_recv_keyx S E i now data).
Proof. unfold mud_recv_keyx. pres. Qed.

Lemma mud_keyx_init_keeps_setup S E : preserves (keeps setup_of) (mud_keyx_init S E).
Proof. unfold mud_keyx_init. pres. Qed.

#[global] Hint Resolve mud_recv_keyx_keeps_setup mud_keyx_init_keeps_setup : pres.

Lemma recv_ctrl_keeps_setup S E i now st pkt :
  preserves (keeps setup_of) (recv_ctrl S E i now st pkt).
Proof. unfold recv_ctrl. pres. Qed.

Lemma mud_decrypt_keeps_setup S E dst pkt :
  preserves (keeps setup_of) (mud_decrypt S E dst pkt).
Proof. unfold mud_decrypt. pres. Qed.

#[global] Hint Resolve recv_ctrl_keeps_setup mud_decrypt_keeps_setup : pres.

Lemma recv_handle_keeps_setup S E a pkt data :
  preserves (keeps setup_of) (recv_handle S E a pkt data).
Proof. unfold recv_handle. pres. Qed.

#[global] Hint Resolve recv_handle_keeps_setup : pres.

Lemma mud_recv_keeps_setup S E r data :
  preserves (keeps setup_of) (mud_recv S E r data).
Proof. unfold mud_recv. destruct r; pres. Qed.

(** Receiving leaves the addresses and the role of the paths alone. *)
Lemma write_tc_same_endpoints t p : same_endpoints p (write_tc t p).
Proof. unfold write_tc. destruct (tc p); repeat split. Qed.

Lemma recv_samples_same_endpoints now st p :
  same_endpoints p (recv_samples now st p).
Proof.
  unfold recv_samples.
  destruct (negb (rdt p =? 0)); [|destruct (negb (recv_time p =? 0))];
    repeat split.
Qed.

Lemma mud_send_path_keeps_endpoints E i now data size t :
  preserves (keeps_paths same_endpoints) (mud_send_path E i now data size t).
Proof.
  unfold mud_send_path. pres.
  apply modify_path_keeps_paths; [apply _|]. apply write_tc_same_endpoints.
Qed.

#[global] Hint Resolve mud_send_path_keeps_endpoints : pres.

Lemma mud_ctrl_path_keeps_endpoints S E msg i now :
  preserves (keeps_paths same_endpoints) (mud_ctrl_path S E msg i now).
Proof. unfold mud_ctrl_path. pres. Qed.

#[global] Hint Resolve mud_ctrl_path_keeps_endpoints : pres.

Lemma recv_pong_keeps_endpoints S E p i now :
  preserves (keeps_paths same_endpoints) (recv_pong S E p i now).
Proof. unfold recv_pong. pres. Qed.

Lemma keyx_derive_keeps_endpoints S now rp :
  preserves (keeps_paths same_endpoints) (keyx_derive S now rp).
Proof. unfold keyx_derive. pres. Qed.

#[global] Hint Resolve recv_pong_keeps_endpoints keyx_derive_keeps_endpoints : pres.

Lemma mud_recv_keyx_keeps_endpoints S E i now data :
  preserves (keeps_paths same_endpoints) (mud_recv_keyx S E i now data).
Proof. unfold mud_recv_keyx. pres. Qed.

Lemma mud_keyx_init_keeps_endpoints S E :
  preserves (keeps_paths same_endpoints) (mud_keyx_init S E).
Proof. unfold mud_keyx_init. pres. Qed.

#[global] Hint Resolve mud_recv_keyx_keeps_endpoints
  mud_keyx_init_keeps_endpoints : pres.

Lemma recv_ctrl_keeps_endpoints S E i now st pkt :
  preserves (keeps_paths same_endpoints) (recv_ctrl S E i now st pkt).
Proof. unfold recv_ctrl. pres. Qed.

Lemma mud_decrypt_keeps_endpoints S E dst pkt :
  preserves (keeps_paths same_endpoints) (mud_decrypt S E dst pkt).
Proof. unfold mud_decrypt. pres. Qed.

Lemma recv_path_update_keeps_endpoints S E i now st :
  preserves (keeps_paths same_endpoints) (recv_path_update S E i now st).
Proof.
  unfold recv_path_update. pres.
  apply modify_path_keeps_paths; [apply _|]. apply recv_samples_same_endpoints.
Qed.

#[global] Hint Resolve recv_ctrl_keeps_endpoints mud_decrypt_keeps_endpoints
  recv_path_update_keeps_endpoints : pres.

Lemma recv_handle_keeps_endpoints S E a pkt data :
  preserves (keeps_paths same_endpoints) (recv_handle S E a pkt data).
Proof. unfold recv_handle. pres. Qed.

(** ** The admission of a datagram, step by step *)

Lemma recv_admit_run S E d s :
  recv_admit S E d s
  = let now := clock_value E (clock_reads (snd s)) in
    let s1 := (fst s, tick (snd s)) in
    let pkt := packet d in
    let is_ctrl := mud_read48 pkt =? 0 in
    if is_ctrl && (len pkt <? MUD_PACKET_SIZEOF MUD_U48_SIZE) then (None, s1)
    else
      let st := if is_ctrl then mud_read48 (drop 6 pkt) else mud_read48 pkt in
      if mud_abs_diff now st >=? time_tolerance (fst s) then (None, s1)
      else if is_ctrl
              && negb (fst (mud_decrypt_opt S (private (crypto (fst s)))
                         {| src := drop (Z.to_nat (len pkt - MUD_MAC_SIZE)) pkt;
                            ad := take (Z.to_nat (len pkt - MUD_MAC_SIZE)) pkt;
                            npub := zeros 16 |}) =? 0)
      then (None, s1)
      else
        match mud_localaddr (msg_cmsgs d)
                (sa_family_of (mud_unmapv4 (msg_from d))) with
        | None => (None, s1)
        | Some l =>
            let r := mud_path E l (mud_unmapv4 (msg_from d)) is_ctrl s1 in
            ((fun i => {| adm_path := i; adm_now := now; adm_send_time := st;
                          adm_mud_packet := is_ctrl |}) <$> fst r,
             snd r)
        end.
Proof.
  unfold recv_admit, mud_now.
  unfold mbind at 1, M_bind at 1. cbn [fst snd]. cbv zeta.
  destruct (_ && _); [reflexivity|].
  unfold mbind at 1, M_bind at 1, get_mud. cbn [fst snd].
  destruct (_ >=? _); [reflexivity|].
  destruct (_ && _); [reflexivity|].
  destruct (mud_localaddr _ _); [|reflexivity].
  unfold mbind, M_bind, mret, M_ret.
  destruct (mud_path _ _ _ _ _). reflexivity.
Qed.

(** A datagram that is not admitted leaves the engine as it was, and
    [mud_recv] returns 0. *)
Lemma recv_admit_none S E d s :
  fst (recv_admit S E d s) = None ->
  fst (snd (recv_admit S E d s)) = fst s
  /\ wire (snd (snd (recv_admit S E d s))) = wire (snd s).
Proof.
  rewrite recv_admit_run. cbv zeta.
  destruct (_ && _); [split; reflexivity|].
  destruct (_ >=? _); [split; reflexivity|].
  destruct (_ && _); [split; reflexivity|].
  destruct (mud_localaddr _ _) as [l|]; [|split; reflexivity].
  cbn [fst snd].
  match goal with |- context [mud_path E l ?a ?c ?s1] =>
    pose proof (mud_path_frame E l a c s1) as (Hc & _);
    pose proof (mud_path_run E l a c s1) as Hrun;
    destruct (fst (mud_path E l a c s1)) as [i|] eqn:Hi; [discriminate|]
  end.
  intros _. split.
  - destruct Hc as [Hc|(_ & Hc & _)]; [exact Hc|congruence].
  - rewrite Hrun.
    destruct (negb _); [reflexivity|].
    destruct (find_path _ _ _); [reflexivity|].
    destruct (negb _); [reflexivity|].
    destruct (calloc_fails _ _); reflexivity.
Qed.

(** ** Control packets on the wire *)

Lemma len_nonneg l : 0 <= len l.
Proof. unfold len. lia. Qed.

Lemma len_write48 x : len (mud_write48 x) = 6.
Proof. reflexivity. Qed.

Lemma seal_opens S (ks kr : crypto_key) P a n :
  aead_correct S -> opens ks kr ->
  mud_decrypt_opt S kr
    {| src := snd (mud_encrypt_opt S ks {| src := P; ad := a; npub := n |});
       ad := a; npub := n |} = (0, P).
Proof.
  intros (H1 & H2 & _) [Ha Hk].
  unfold mud_decrypt_opt, mud_encrypt_opt. cbn [src ad npub].
  rewrite <- Ha. destruct (aes ks =? 0); cbn [negb]; rewrite <- Hk;
    [apply H1|apply H2].
Qed.

Lemma sealed_length S (k : crypto_key) P a n :
  aead_correct S ->
  length (snd (mud_encrypt_opt S k {| src := P; ad := a; npub := n |}))
  = (length P + 16)%nat.
Proof.
  intros (_ & _ & H1 & H2). unfold mud_encrypt_opt.
  destruct (negb _); [apply H2|apply H1].
Qed.

Lemma ctrl_payload_len m p msg :
  msg <> mud_keyx -> len (ctrl_payload m p msg) = ctrl_payload_size msg.
Proof. destruct msg; try reflexivity. contradiction. Qed.

(** A control packet is its header and payload followed by a MAC of 16
    bytes. *)
Lemma ctrl_frame_split S m p msg now :
  aead_correct S ->
  exists mac,
    ctrl_frame S m p msg now
    = (zeros 6 ++ mud_write48 now ++ ctrl_payload m p msg) ++ mac
    /\ length mac = 16%nat
    /\ mac = snd (mud_encrypt_opt S (private (crypto m))
                    {| src := [];
                       ad := zeros 6 ++ mud_write48 now ++ ctrl_payload m p msg;
                       npub := zeros 16 |}).
Proof.
  intros Haead. eexists. split; [reflexivity|]. split; [|reflexivity].
  apply (sealed_length S _ [] _ _ Haead).
Qed.

Lemma ctrl_frame_len S m p msg now :
  aead_correct S ->
  len (ctrl_frame S m p msg now) = len (ctrl_payload m p msg) + 28.
Proof.
  intros Haead. destruct (ctrl_frame_split S m p msg now Haead) as (mac & -> & Hm & _).
  rewrite !len_app. unfold len at 1 2 4. rewrite Hm. simpl. lia.
Qed.

Lemma ctrl_frame_mac_ok S ms mr p msg now :
  aead_correct S ->
  opens (private (crypto ms)) (private (crypto mr)) ->
  ctrl_mac_ok S mr (ctrl_frame S ms p msg now).
Proof.
  intros Haead Hop. unfold ctrl_mac_ok.
  pose proof (ctrl_frame_len S ms p msg now Haead) as Hlen.
  destruct (ctrl_frame_split S ms p msg now Haead) as (mac & Hf & Hm & Hmac).
  rewrite Hf in *. set (head := zeros 6 ++ mud_write48 now ++ ctrl_payload ms p msg) in *.
  assert (Hn : Z.to_nat (len (head ++ mac) - MUD_MAC_SIZE) = length head).
  { rewrite len_app. unfold len, MUD_MAC_SIZE. rewrite Hm. lia. }
  rewrite Hn, drop_app_length, take_app_length, Hmac.
  rewrite (seal_opens S _ _ [] head (zeros 16) Haead Hop). reflexivity.
Qed.

Lemma ctrl_frame_time S m p msg now :
  mud_read48 (ctrl_frame S m p msg now) = 0
  /\ mud_read48 (drop 6 (ctrl_frame S m p msg now)) = now mod 2 ^ 48.
Proof.
  split; [apply read48_zero_prefix; reflexivity|].
  unfold ctrl_frame. rewrite <- !app_assoc.
  change (drop 6 (zeros 6 ++ ?x)) with x.
  apply mud_read48_write48.
Qed.

(** ** The slot [next] after a keyx *)

Lemma keyx_derive_slot S now rp m w :
  fst (crypto_scalarmult S (secret (crypto m)) (take 32 (pub_send rp))) = 0 ->
  next (crypto (fst (snd (keyx_derive S now rp (m, w)))))
  = let q := snd (crypto_scalarmult S (secret (crypto m)) (take 32 (pub_send rp))) in
    let salt := key (encrypt (private (crypto m))) in
    let ek := store (key (encrypt (next (crypto m))))
                (crypto_generichash S 32 (q ++ pub_recv rp ++ pub_send rp) salt) in
    let dk := store (key (decrypt (next (crypto m))))
                (crypto_generichash S 32 (q ++ pub_send rp ++ pub_recv rp) salt) in
    let a := (byte_at (pub_send rp) 32 =? 1) && (byte_at (pub_recv rp) 32 =? 1) in
    {| encrypt := {| key := ek;
                     state := if a then crypto_aead_aes256gcm_beforenm S ek
                              else state (encrypt (next (crypto m))) |};
       decrypt := {| key := dk;
                     state := if a then crypto_aead_aes256gcm_beforenm S dk
                              else state (decrypt (next (crypto m))) |};
       aes := if a then 1 else 0 |}.
Proof.
  intros Hsm. unfold keyx_derive.
  unfold mbind, M_bind, mret, M_ret, get_mud. cbn [fst snd].
  rewrite Hsm. reflexivity.
Qed.

Lemma mud_recv_keyx_slot S E i now data s :
  let c := crypto (fst s) in
  fst (crypto_scalarmult S (secret c) (take 32 (take 33 data))) = 0 ->
  next (crypto (fst (snd (mud_recv_keyx S E i now data s))))
  = let peer := take 33 data in
    let own := take 33 (pub_send (crypto_public c)) in
    let q := snd (crypto_scalarmult S (secret c) (take 32 peer)) in
    let salt := key (encrypt (private c)) in
    let ek := store (key (encrypt (next c)))
                (crypto_generichash S 32 (q ++ own ++ peer) salt) in
    let dk := store (key (decrypt (next c)))
                (crypto_generichash S 32 (q ++ peer ++ own) salt) in
    let a := (byte_at peer 32 =? 1) && (byte_at own 32 =? 1) in
    {| encrypt := {| key := ek;
                     state := if a then crypto_aead_aes256gcm_beforenm S ek
                              else state (encrypt (next c)) |};
       decrypt := {| key := dk;
                     state := if a then crypto_aead_aes256gcm_beforenm S dk
                              else state (decrypt (next c)) |};
       aes := if a then 1 else 0 |}.
Proof.
  intros c Hsm. subst c. destruct s as [m w]. unfold mud_recv_keyx.
  unfold mbind at 1 2 3, M_bind at 1 2 3, get_mud, modify_crypto, modify_mud.
  cbn [fst snd] in Hsm |- *. cbv zeta. cbn [pub_send pub_recv].
  rewrite bind_state.
  match goal with
  | |- context [keyx_derive S now ?rp ?s2] =>
      assert (Hc : crypto (fst s2)
                   = set_use_next
                       (if memcmp (take 33 (drop 33 data))
                             (pub_send (crypto_public (crypto m))) 33 =? 0
                        then 1 else 0)
                       (set_public_recv
                          (memcpy (pub_recv (crypto_public (crypto m)))
                             (take 33 data) 33) (crypto m)));
      [|destruct s2 as [m2 w2]; cbn [fst] in Hc;
        rewrite keyx_derive_slot; rewrite Hc; [|exact Hsm]]
  end.
  - destruct (negb _).
    + match goal with
      | |- context [mud_ctrl_path S E mud_keyx i now ?s1] =>
          rewrite <- (mud_ctrl_path_keeps_crypto S E mud_keyx i now s1)
      end.
      reflexivity.
    + reflexivity.
  - cbn. rewrite memcpy_over_take. reflexivity.
Qed.

Lemma store_whole (dst out : list byte) :
  length dst = length out -> store dst out = out.
Proof.
  intros H. unfold store. rewrite drop_ge by lia. apply app_nil_r.
Qed.

(** ** Sending *)

(** The first loop of [mud_send] keeps what sending on a path and
    setting its [limit] keep. *)
Lemma send_select_preserves R `{!PreOrder R} E now pkt size t l :
  (forall i, preserves R (mud_send_path E i now pkt (u64 size) t)) ->
  (forall i v, preserves R (modify_path i (set_limit v))) ->
  forall acc, preserves R (send_select E now pkt size t l acc).
Proof.
  intros H1 H2. induction l as [|i l IH]; intros acc; simpl.
  - apply preserves_ret. apply _.
  - apply preserves_bind; [apply _|apply preserves_get_path; apply _|].
    intros p. destruct (negb _); [apply IH|].
    apply preserves_bind; [apply _|apply preserves_get_mud; apply _|].
    intros m. destruct (mud_timeout _ _ _).
    + apply preserves_bind; [apply _|apply H1|]. intros _.
      apply preserves_bind; [apply _|apply H2|]. intros _. apply IH.
    + destruct (_ >? _); apply IH.
Qed.

Lemma send_select_keeps_config E now pkt size t l acc :
  preserves keeps_config (send_select E now pkt size t l acc).
Proof. apply send_select_preserves; [apply _|intros; pres|intros; pres]. Qed.

Lemma send_select_keeps_role E now pkt size t l acc :
  preserves (keeps_paths same_role) (send_select E now pkt size t l acc).
Proof. apply send_select_preserves; [apply _|intros; pres|intros; pres]. Qed.

Lemma send_select_wire E (P : sent -> Prop) now pkt size t l acc :
  (forall i a c, P {| via := i; msg_name := a; msg_control := c;
                      msg_data := take (Z.to_nat (u64 size)) pkt |}) ->
  preserves (wire_grows P) (send_select E now pkt size t l acc).
Proof.
  intros HP. apply send_select_preserves; [apply _| |intros; pres].
  intros i. apply mud_send_path_wire. intros a c. apply HP.
Qed.

#[global] Hint Resolve send_select_keeps_config send_select_keeps_role : pres.

(** The part of [mud_send] after the tick keeps what reading the clock,
    sending on a path and setting its [limit] keep. *)
Lemma send_data_preserves S E R `{!PreOrder R} `{!Blind R} data t :
  (forall i now pkt size t, preserves R (mud_send_path E i now pkt size t)) ->
  (forall i v, preserves R (modify_path i (set_limit v))) ->
  preserves R (send_data S E data t).
Proof.
  intros H1 H2. unfold send_data.
  destruct (_ =? 0); [apply preserves_ret; apply _|].
  apply preserves_bind; [apply _|apply preserves_get_mud; apply _|]. intros m.
  destruct (_ >? _); [apply preserves_ret; apply _|].
  apply preserves_bind; [apply _|apply preserves_mud_now; apply _|]. intros now.
  destruct (_ =? 0); [apply preserves_ret; apply _|].
  apply preserves_bind; [apply _| |intros sel].
  { apply send_select_preserves; [apply _|intros; apply H1|exact H2]. }
  apply preserves_bind; [apply _|apply preserves_get_mud; apply _|]. intros m'.
  destruct (match fst sel with Some i => Some i | None => first_backup (paths m') end);
    [|apply preserves_ret; apply _].
  apply preserves_bind; [apply _|apply H1|]. intros r.
  apply preserves_bind; [apply _| |intros _; apply preserves_ret; apply _].
  destruct (_ =? _); [apply H2|apply preserves_ret; apply _].
Qed.

Lemma send_data_keeps_config S E data t :
  preserves keeps_config (send_data S E data t).
Proof. apply send_data_preserves; [apply _|apply _|intros; pres|intros; pres]. Qed.

Lemma send_data_keeps_role S E data t :
  preserves (keeps_paths same_role) (send_data S E data t).
Proof. apply send_data_preserves; [apply _|apply _|intros; pres|intros; pres]. Qed.

Lemma send_data_keeps_keys S E data t :
  preserves (keeps keys_of) (send_data S E data t).
Proof. apply send_data_preserves; [apply _|apply _|intros; pres|intros; pres]. Qed.

Lemma send_data_keeps_setup S E data t :
  preserves (keeps setup_of) (send_data S E data t).
Proof. apply send_data_preserves; [apply _|apply _|intros; pres|intros; pres]. Qed.

Lemma send_ctrl_path_keeps_role S E i :
  preserves (keeps_paths same_role) (send_ctrl_path S E i).
Proof. unfold send_ctrl_path. pres. Qed.

Lemma send_ctrl_path_keeps_keys S E i :
  preserves (keeps keys_of) (send_ctrl_path S E i).
Proof. unfold send_ctrl_path. pres. Qed.

Lemma send_ctrl_path_keeps_setup S E i :
  preserves (keeps setup_of) (send_ctrl_path S E i).
Proof. unfold send_ctrl_path. pres. Qed.

Lemma mud_send_ctrl_preserves S E R `{!PreOrder R} :
  (forall i, preserves R (send_ctrl_path S E i)) ->
  preserves R (mud_send_ctrl S E).
Proof.
  intros H. unfold mud_send_ctrl.
  apply preserves_bind; [apply _|apply preserves_get_mud; apply _|].
  intros m. apply preserves_for_each; [apply _|exact H].
Qed.

(** The head of the frame of [mud_encrypt], whatever libsodium does. *)
Lemma mud_encrypt_head S m nonce dst src :
  (6 <= length dst)%nat -> len dst < 2 ^ 31 -> len src < 2 ^ 31 ->
  fst (mud_encrypt S m nonce dst src) <> 0 ->
  nonce <> 0
  /\ fst (mud_encrypt S m nonce dst src) = len src + MUD_PACKET_MIN_SIZE
  /\ len src + MUD_PACKET_MIN_SIZE <= len dst
  /\ take 6 (snd (mud_encrypt S m nonce dst src)) = mud_write48 nonce.
Proof.
  intros Hdst Hmax Hsrc. unfold mud_encrypt.
  destruct (Z.eqb_spec nonce 0); [intros H0; contradiction H0; reflexivity|].
  pose proof (len_nonneg src) as Hs.
  assert (Hmin : MUD_PACKET_MIN_SIZE = 22) by reflexivity.
  rewrite u64_small by lia.
  destruct (Z.gtb_spec (len src + MUD_PACKET_MIN_SIZE) (len dst));
    [intros H0; contradiction H0; reflexivity|].
  cbn [fst snd]. rewrite int32_small by lia. intros _.
  split; [assumption|]. split; [reflexivity|]. split; [lia|].
  assert (Hh : take 6 (memcpy dst (memcpy (zeros 16) (mud_write48 nonce) 6) 6)
               = mud_write48 nonce) by reflexivity.
  rewrite Hh. reflexivity.
Qed.

Lemma mud_send_preserves S E R `{!PreOrder R} data t :
  preserves R (mud_send_ctrl S E) -> preserves R (send_data S E data t) ->
  preserves R (mud_send S E data t).
Proof.
  intros H1 H2. unfold mud_send.
  apply preserves_bind; [apply _|exact H1|intros _; exact H2].
Qed.

Lemma mud_send_keeps_keys S E data t :
  preserves (keeps keys_of) (mud_send S E data t).
Proof.
  apply mud_send_preserves; [apply _| |apply send_data_keeps_keys].
  apply mud_send_ctrl_preserves; [apply _|apply send_ctrl_path_keeps_keys].
Qed.

Lemma mud_send_keeps_setup S E data t :
  preserves (keeps setup_of) (mud_send S E data t).
Proof.
  apply mud_send_preserves; [apply _| |apply send_data_keeps_setup].
  apply mud_send_ctrl_preserves; [apply _|apply send_ctrl_path_keeps_setup].
Qed.

Lemma mud_send_keeps_config S E data t :
  preserves keeps_config (mud_send S E data t).
Proof.
  apply mud_send_preserves; [apply _| |apply send_data_keeps_config].
  apply mud_send_ctrl_keeps_config.
Qed.

Lemma mud_send_keeps_role S E data t :
  preserves (keeps_paths same_role) (mud_send S E data t).
Proof.
  apply mud_send_preserves; [apply _| |apply send_data_keeps_role].
  apply mud_send_ctrl_preserves; [apply _|apply send_ctrl_path_keeps_role].
Qed.

(** What [send_data] does when [mud_encrypt] makes no frame. *)
Lemma send_data_no_frame S E data t s :
  len data <> 0 -> len data <= u64 (mud_get_mtu (fst s)) ->
  fst (mud_encrypt S (fst s) (clock_value E (clock_reads (snd s)))
         (zeros 2048) data) = 0 ->
  send_data S E data t s = ((-1, Some EINVAL), (fst s, tick (snd s))).
Proof.
  intros Hnz Hmtu Henc. unfold send_data.
  destruct (Z.eqb_spec (len data) 0); [contradiction|].
  unfold mbind at 1, M_bind at 1, get_mud. cbn [fst snd].
  destruct (Z.gtb_spec (len data) (u64 (mud_get_mtu (fst s)))); [lia|].
  unfold mbind at 1, M_bind at 1, mud_now. cbn [fst snd].
  rewrite Henc. reflexivity.
Qed.

Lemma mud_send_run S E data t s :
  mud_send S E data t s = send_data S E data t (snd (mud_send_ctrl S E s)).
Proof.
  unfold mud_send, mbind, M_bind.
  destruct (mud_send_ctrl S E s) as [[] s1]. reflexivity.
Qed.

Lemma mud_send_ctrl_no_path S E s :
  paths (fst s) = [] -> mud_send_ctrl S E s = (tt, s).
Proof.
  intros Hp. unfold mud_send_ctrl, mbind, M_bind, get_mud. cbn [fst snd].
  rewrite Hp. destruct s. reflexivity.
Qed.

(** One call of [mud_send_path] hands at most one datagram to [sendmsg],
    for the path it was given. *)
Lemma mud_send_path_at_most_one E i now data size t s :
  exists new,
    sent_between s (snd (mud_send_path E i now data size t s)) new
    /\ (new = [] \/ exists e, new = [e] /\ via e = i).
Proof.
  unfold mud_send_path, sent_between. destruct (size =? 0).
  - exists []. split; [reflexivity|left; reflexivity].
  - unfold mbind, M_bind, mret, M_ret, modify_path, modify_mud, get_path, sendmsg.
    cbn [fst snd wire log]. eexists [_]. split; [reflexivity|].
    right. eexists. split; reflexivity.
Qed.

(** The first loop of [mud_send] sends on every path at most once, and
    not on the path it chooses. *)
Lemma send_select_once E now pkt size t l :
  NoDup l ->
  forall acc s,
    (forall i, i ∈ l -> is_Some (paths (fst s) !! i)) ->
    (forall j, fst acc = Some j -> j ∉ l) ->
    exists new,
      sent_between s (snd (send_select E now pkt size t l acc s)) new
      /\ NoDup (via <$> new)
      /\ (forall e, e ∈ new -> via e ∈ l)
      /\ (forall j, fst (fst (send_select E now pkt size t l acc s)) = Some j ->
          j ∉ via <$> new)
      /\ (forall j, fst (fst (send_select E now pkt size t l acc s)) = Some j ->
          j ∈ l \/ fst acc = Some j).
Proof.
  intros Hnd. induction Hnd as [|i l Hi Hnd IH]; intros acc s Hin Hacc.
  - exists []. simpl. split; [reflexivity|]. split; [constructor|].
    split; [intros e He; inversion He|]. split.
    + intros j _ Hj. inversion Hj.
    + intros j Hj. right. exact Hj.
  - destruct (Hin i) as [p Hp]; [left|].
    assert (Hin' : forall s' : mud * world,
              length (paths (fst s')) = length (paths (fst s)) ->
              forall j, j ∈ l -> is_Some (paths (fst s') !! j)).
    { intros s' Hlen j Hj. apply lookup_lt_is_Some. rewrite Hlen.
      apply lookup_lt_is_Some. apply Hin. right. exact Hj. }
    assert (Hacc' : forall j, fst acc = Some j -> j ∉ l).
    { intros j Hj Hjl. apply (Hacc j Hj). right. exact Hjl. }
    rewrite (send_select_cons E now pkt size t i l acc s p Hp).
    destruct (negb (bak_local (bak p) =? 0)).
    { destruct (IH acc s (Hin' s eq_refl) Hacc') as (new & H1 & H2 & H3 & H4 & H5).
      exists new. split; [exact H1|]. split; [exact H2|].
      split; [intros e He; right; apply H3, He|]. split; [exact H4|].
      intros j Hj. destruct (H5 j Hj) as [?|?]; [left; right; assumption|right; assumption]. }
    destruct (mud_timeout now (recv_time p) (send_timeout (fst s))).
    + set (step := mud_send_path E i now pkt (u64 size) t;;
                   modify_path i (set_limit (u64 (path_limit now p)))).
      assert (Hlen : length (paths (fst (snd (step s)))) = length (paths (fst s))).
      { symmetry. apply (Forall2_length same_role).
        assert (Hr : preserves (keeps_paths same_role) step) by (subst step; pres).
        apply Hr. }
      assert (Hw : exists new0, sent_between s (snd (step s)) new0
                     /\ (new0 = [] \/ exists e, new0 = [e] /\ via e = i)).
      { subst step. rewrite bind_state.
        destruct (mud_send_path_at_most_one E i now pkt (u64 size) t s)
          as (new0 & Hn0 & Hc0).
        exists new0. split; [|exact Hc0]. unfold sent_between in *.
        rewrite <- Hn0. reflexivity. }
      destruct Hw as (new0 & Hn0 & Hc0).
      destruct (IH acc (snd (step s)) (Hin' _ Hlen) Hacc')
        as (new & H1 & H2 & H3 & H4 & H5).
      exists (new ++ new0). unfold sent_between in *.
      split; [rewrite H1, Hn0, app_assoc; reflexivity|].
      destruct Hc0 as [->|(e & -> & He)].
      * rewrite app_nil_r. split; [exact H2|].
        split; [intros e He; right; apply H3, He|]. split; [exact H4|].
        intros j Hj. destruct (H5 j Hj) as [?|?];
          [left; right; assumption|right; assumption].
      * split.
        { rewrite fmap_app. apply NoDup_app. split; [exact H2|].
          split; [|apply NoDup_singleton].
          intros x Hx Hx'. simpl in Hx'. apply list_elem_of_singleton in Hx'.
          subst x. apply list_elem_of_fmap in Hx as (e' & He' & Hin0).
          apply H3 in Hin0. rewrite <- He', He in Hin0. contradiction. }
        split.
        { intros e' He'. apply elem_of_app in He' as [He'|He'].
          - right. apply H3, He'.
          - apply list_elem_of_singleton in He'. subst e'. rewrite He. left. }
        split.
        { intros j Hj. rewrite fmap_app. intros Hjn.
          apply elem_of_app in Hjn as [Hjn|Hjn]; [exact (H4 j Hj Hjn)|].
          simpl in Hjn. apply list_elem_of_singleton in Hjn. rewrite He in Hjn.
          subst j. destruct (H5 i Hj) as [Hil|Hia]; [contradiction|].
          apply (Hacc i Hia). left. }
        intros j Hj. destruct (H5 j Hj) as [?|?];
          [left; right; assumption|right; assumption].
    + assert (Hcand : forall acc',
                (forall j, fst acc' = Some j -> j = i \/ fst acc = Some j) ->
                exists new,
                  sent_between s (snd (send_select E now pkt size t l acc' s)) new
                  /\ NoDup (via <$> new)
                  /\ (forall e, e ∈ new -> via e ∈ i :: l)
                  /\ (forall j, fst (fst (send_select E now pkt size t l acc' s)) = Some j ->
                      j ∉ via <$> new)
                  /\ (forall j, fst (fst (send_select E now pkt size t l acc' s)) = Some j ->
                      j ∈ i :: l \/ fst acc = Some j)).
      { intros acc' Ha'.
        destruct (IH acc' s (Hin' s eq_refl)) as (new & H1 & H2 & H3 & H4 & H5).
        { intros j Hj Hjl. destruct (Ha' j Hj) as [->|Hja]; [contradiction|].
          apply (Hacc' j Hja Hjl). }
        exists new. split; [exact H1|]. split; [exact H2|].
        split; [intros e He; right; apply H3, He|]. split; [exact H4|].
        intros j Hj. destruct (H5 j Hj) as [?|Hj'];
          [left; right; assumption|].
        destruct (Ha' j Hj') as [->|?]; [left; left|right; assumption]. }
      destruct (_ >? _).
      * apply Hcand. intros j [= <-]. left. reflexivity.
      * apply Hcand. intros j Hj. right. exact Hj.
Qed.

(** X1.  [mud_write48] and [mud_read48] are inverse of each other:
    reading what was written gives the number modulo 2^48, whatever follows
    the six bytes; writing what was read from a buffer of six bytes or more
    gives its first six bytes; and what is read is below 2^48. *)
Theorem mud_write48_read48_inverse :
  (forall x rest, mud_read48 (mud_write48 x ++ rest) = x mod 2 ^ 48)
  /\ (forall src, (6 <= length src)%nat ->
        mud_write48 (mud_read48 src) = take 6 src)
  /\ (forall src, 0 <= mud_read48 src < 2 ^ 48).
Proof.
  split; [exact mud_read48_write48|].
  split; [exact mud_write48_read48|exact mud_read48_range].
Qed.

Lemma mud_write48_read48_inverse_witness :
  mud_write48 (mud_read48 (zeros 6 ++ mud_write48 1000003000))
  = take 6 (zeros 6 ++ mud_write48 1000003000).
Proof.
  apply (proj1 (proj2 mud_write48_read48_inverse)). simpl. lia.
Defined.

(** X2.  The value of [mud_now] is below 2^48, so that the six bytes
    [mud_write48] makes of it read back as the same number; the call only
    counts as one more reading of the clock. *)
Theorem mud_now_fits_wire (E : env) s rest :
  0 <= fst (mud_now E s) < 2 ^ 48
  /\ mud_read48 (mud_write48 (fst (mud_now E s)) ++ rest) = fst (mud_now E s)
  /\ snd (mud_now E s) = (fst s, tick (snd s)).
Proof.
  pose proof (clock_value_range E (clock_reads (snd s))) as H.
  split; [exact H|]. split; [|reflexivity].
  rewrite mud_read48_write48. apply Z.mod_small. exact H.
Qed.

(** X3.  [mud_abs_diff] does not depend on the order of its arguments,
    and on two 64-bit numbers it is the absolute value of their
    difference: the time tolerance of [mud_recv] rejects a send time as far
    in the future as in the past. *)
Theorem mud_abs_diff_symmetric a b :
  mud_abs_diff a b = mud_abs_diff b a
  /\ (0 <= a < 2 ^ 64 -> 0 <= b < 2 ^ 64 -> mud_abs_diff a b = Z.abs (a - b)).
Proof. split; [apply mud_abs_diff_sym|apply mud_abs_diff_abs]. Qed.

Lemma mud_abs_diff_symmetric_witness :
  mud_abs_diff 1000000000 1600000000 = Z.abs (1000000000 - 1600000000).
Proof.
  apply (proj2 (mud_abs_diff_symmetric 1000000000 1600000000)); lia.
Defined.

(** X4.  Two addresses of the size of their family (4 bytes for IPv4,
    16 for IPv6) compare equal, that is [mud_cmp_ipaddr] or [mud_cmp_addr]
    returns 0, exactly when they are the same: same family, same bytes and,
    for [mud_cmp_addr], same port. *)
Theorem mud_cmp_zero_iff_equal :
  (forall a b, wf_ipaddr a -> wf_ipaddr b -> mud_cmp_ipaddr a b = 0 <-> a = b)
  /\ (forall a b, wf_sockaddr a -> wf_sockaddr b ->
        mud_cmp_addr a b = 0 <-> a = b).
Proof. split; [exact mud_cmp_ipaddr_zero|exact mud_cmp_addr_zero]. Qed.

Lemma mud_cmp_zero_iff_equal_witness :
  mud_cmp_addr (Toy.sock4 Scenario.addrB 5000) (Toy.sock4 Scenario.addrA 5000) = 0
  <-> Toy.sock4 Scenario.addrB 5000 = Toy.sock4 Scenario.addrA 5000.
Proof.
  apply (proj2 mud_cmp_zero_iff_equal); reflexivity.
Defined.

(** X5.  [mud_unmapv4] applied twice is [mud_unmapv4] applied once;
    what it returns is never an IPv4-mapped IPv6 address, and the port is
    the one it was given. *)
Theorem mud_unmapv4_idempotent a :
  mud_unmapv4 (mud_unmapv4 a) = mud_unmapv4 a
  /\ (sa_family_of (mud_unmapv4 a) = AF_INET6 ->
      IN6_IS_ADDR_V4MAPPED (sin_addr (mud_unmapv4 a)) = false)
  /\ sin_port (mud_unmapv4 a) = sin_port a.
Proof.
  split; [apply mud_unmapv4_idem|]. unfold mud_unmapv4.
  destruct (decide (sa_family_of a = AF_INET6)) as [H6|H6].
  - rewrite (bool_decide_eq_true_2 _ H6). cbn [negb].
    destruct (IN6_IS_ADDR_V4MAPPED (sin_addr a)) eqn:Hm; cbn [negb].
    + split; [discriminate|reflexivity].
    + split; [intros _; exact Hm|reflexivity].
  - rewrite (bool_decide_eq_false_2 _ H6). cbn [negb].
    split; [intros ?; contradiction|reflexivity].
Qed.

Lemma mud_unmapv4_idempotent_witness :
  IN6_IS_ADDR_V4MAPPED
    (sin_addr (mud_unmapv4 {| sa_family_of := AF_INET6; sin_port := 5000;
                              sin_addr := zeros 15 ++ [x01] |})) = false.
Proof.
  apply (proj1 (proj2 (mud_unmapv4_idempotent
           {| sa_family_of := AF_INET6; sin_port := 5000;
              sin_addr := zeros 15 ++ [x01] |}))).
  reflexivity.
Defined.

(** X6.  When [mud_path] returns a path for a pair of addresses of a
    known family, that path compares equal to the pair, and asking again,
    with or without [create], returns the same path and changes nothing:
    no second path is made for the same pair. *)
Theorem mud_path_finds_again (E : env) l a create s i :
  family l <> AF_UNSPEC ->
  fst (mud_path E l a create s) = Some i ->
  (exists p, paths (fst (snd (mud_path E l a create s))) !! i = Some p
             /\ path_matches l a p)
  /\ forall create',
       mud_path E l a create' (snd (mud_path E l a create s))
       = (Some i, snd (mud_path E l a create s)).
Proof. exact (mud_path_again E l a create s i). Qed.

Lemma mud_path_finds_again_witness :
  mud_path Scenario.EA (Toy.ip4 Scenario.addrA) (Toy.sock4 Scenario.addrB 5000)
    false
    (snd (mud_path Scenario.EA (Toy.ip4 Scenario.addrA)
            (Toy.sock4 Scenario.addrB 5000) true (zero_mud, world0)))
  = (Some 0%nat,
     snd (mud_path Scenario.EA (Toy.ip4 Scenario.addrA)
            (Toy.sock4 Scenario.addrB 5000) true (zero_mud, world0))).
Proof.
  refine (proj2 (mud_path_finds_again Scenario.EA (Toy.ip4 Scenario.addrA)
            (Toy.sock4 Scenario.addrB 5000) true (zero_mud, world0) 0%nat _ _)
            false).
  - discriminate.
  - reflexivity.
Defined.

(** X7.  [mud_path] leaves the engine as it was, or, when asked to
    create and no path matched, puts one new path at the head of the list:
    a path that is not active, not a backup, and has never received nor
    sent.  Without [create] the state is untouched; with addresses of two
    different families the result is the null pointer and the state is
    untouched. *)
Theorem mud_path_adds_at_most_one (E : env) l a create s :
  (fst (snd (mud_path E l a create s)) = fst s
   \/ (create = true
       /\ fst (mud_path E l a create s) = Some 0%nat
       /\ find_path l a (paths (fst s)) = None
       /\ exists p,
            fst (snd (mud_path E l a create s))
            = set_paths (p :: paths (fst s)) (fst s)
            /\ active p = false /\ bak_local (bak p) = 0
            /\ recv_time p = 0 /\ send_time p = 0))
  /\ (create = false -> snd (mud_path E l a create s) = s)
  /\ (family l <> sa_family_of a -> mud_path E l a create s = (None, s)).
Proof. exact (mud_path_frame E l a create s). Qed.

Lemma mud_path_adds_at_most_one_witness :
  mud_path Scenario.EA (Toy.ip4 Scenario.addrA)
    {| sa_family_of := AF_INET6; sin_port := 5000; sin_addr := zeros 16 |}
    true Scenario.a0
  = (None, Scenario.a0).
Proof.
  apply (proj2 (proj2 (mud_path_adds_at_most_one Scenario.EA
           (Toy.ip4 Scenario.addrA)
           {| sa_family_of := AF_INET6; sin_port := 5000; sin_addr := zeros 16 |}
           true Scenario.a0))).
  discriminate.
Defined.

(** ** Peers and configuration *)

Lemma set_active_true_twice p : set_active true (set_active true p) = set_active true p.
Proof. reflexivity. Qed.

(** The two assignments of [mud_peer], done twice. *)
Lemma mud_peer_marks_twice v (i : nat) (ps : list path) :
  alter (set_bak_local v) i (alter (set_active true) i
    (alter (set_bak_local v) i (alter (set_active true) i ps)))
  = alter (set_bak_local v) i (alter (set_active true) i ps).
Proof.
  rewrite !list_alter_alter_eq. apply list_alter_ext; [|reflexivity].
  intros p _. reflexivity.
Qed.

(** The search only looks at the two addresses of a path. *)
Lemma find_path_alter l a (f : path -> path) (i : nat) (ps : list path) :
  (forall p, local_addr (f p) = local_addr p) ->
  (forall p, addr (f p) = addr p) ->
  find_path l a (alter f i ps) = find_path l a ps.
Proof.
  intros H1 H2. revert i.
  induction ps as [|q ps IH]; intros [|i]; try reflexivity.
  - unfold alter. cbn [list_alter find_path]. rewrite H1, H2. reflexivity.
  - specialize (IH i). unfold alter in IH |- *. cbn [list_alter find_path].
    rewrite IH. reflexivity.
Qed.

Lemma find_path_marks l a v (i : nat) (ps : list path) :
  find_path l a (alter (set_bak_local v) i (alter (set_active true) i ps))
  = find_path l a ps.
Proof. rewrite !find_path_alter; reflexivity. Qed.

(** [mud_peer] as one expression. *)
Lemma mud_peer_run E l a backup s :
  mud_peer E l a backup s
  = let r := mud_path E l (mud_unmapv4 a) true s in
    match fst r with
    | Some i =>
        ((0, None),
         (set_paths (alter (set_bak_local (if backup =? 0 then 0 else 1)) i
                       (alter (set_active true) i (paths (fst (snd r)))))
            (fst (snd r)),
          snd (snd r)))
    | None => ((-1, Some ENOMEM), snd r)
    end.
Proof.
  unfold mud_peer, mbind, M_bind. cbv zeta.
  destruct (mud_path E l (mud_unmapv4 a) true s) as [[i|] s1]; reflexivity.
Qed.

(** X8.  A call of [mud_peer] that succeeds leaves a path that compares
    equal to the two addresses (the second one unmapped), is active and has
    [bak.local] set to 0 or 1 as [backup] is zero or not; the same call
    made again succeeds and changes nothing.  A call that fails reports
    [ENOMEM], also when the two addresses are of different families, and
    leaves the engine as it was. *)
Theorem mud_peer_idempotent (E : env) l a backup s :
  (family l <> AF_UNSPEC ->
   fst (mud_peer E l a backup s) = (0, None) ->
   (exists i p,
      paths (fst (snd (mud_peer E l a backup s))) !! i = Some p
      /\ path_matches l (mud_unmapv4 a) p
      /\ active p = true
      /\ bak_local (bak p) = (if backup =? 0 then 0 else 1))
   /\ mud_peer E l a backup (snd (mud_peer E l a backup s))
      = ((0, None), snd (mud_peer E l a backup s)))
  /\ (fst (mud_peer E l a backup s) <> (0, None) ->
      fst (mud_peer E l a backup s) = (-1, Some ENOMEM)
      /\ fst (snd (mud_peer E l a backup s)) = fst s).
Proof.
  rewrite (mud_peer_run E l a backup s). cbv zeta.
  pose proof (mud_path_frame E l (mud_unmapv4 a) true s) as (Hc & _).
  destruct (fst (mud_path E l (mud_unmapv4 a) true s)) as [i|] eqn:Hi.
  - split; [|intros H; contradiction H; reflexivity].
    intros Hf _.
    destruct (mud_path_again E l (mud_unmapv4 a) true s i Hf Hi)
      as ((p & Hpi & Hm) & Hagain).
    set (s1 := snd (mud_path E l (mud_unmapv4 a) true s)) in *.
    cbn [fst snd paths set_paths]. split.
    + exists i, (set_bak_local (if backup =? 0 then 0 else 1)
                   (set_active true p)).
      split; [rewrite !list_lookup_alter_eq, Hpi; reflexivity|].
      split; [exact Hm|]. split; reflexivity.
    + rewrite mud_peer_run. cbv zeta.
      pose proof (Hagain true) as H2. rewrite mud_path_run in H2.
      rewrite mud_path_run.
      destruct (negb (bool_decide (family l = sa_family_of (mud_unmapv4 a))));
        [discriminate|].
      cbn [fst snd paths set_paths]. rewrite find_path_marks.
      destruct (find_path l (mud_unmapv4 a) (paths (fst s1))) as [j|].
      * injection H2 as ->. cbn [fst snd paths set_paths].
        rewrite mud_peer_marks_twice. reflexivity.
      * destruct (calloc_fails E (allocs (snd s1))); [discriminate|].
        destruct s1 as [m1 w1]. injection H2 as _ _ Hw.
        apply (f_equal allocs) in Hw. simpl in Hw. lia.
  - split; [discriminate|]. intros _. cbn [fst snd]. split; [reflexivity|].
    destruct Hc as [Hc|(_ & Hc & _)]; [exact Hc|congruence].
Qed.

Lemma mud_peer_idempotent_witness :
  mud_peer Scenario.EA (Toy.ip4 Scenario.addrA) (Toy.sock4 Scenario.addrB 5000) 1
    (snd (mud_peer Scenario.EA (Toy.ip4 Scenario.addrA)
            (Toy.sock4 Scenario.addrB 5000) 1 (zero_mud, world0)))
  = ((0, None),
     snd (mud_peer Scenario.EA (Toy.ip4 Scenario.addrA)
            (Toy.sock4 Scenario.addrB 5000) 1 (zero_mud, world0))).
Proof.
  refine (proj2 (proj1 (mud_peer_idempotent Scenario.EA (Toy.ip4 Scenario.addrA)
            (Toy.sock4 Scenario.addrB 5000) 1 (zero_mud, world0)) _ _)).
  - discriminate.
  - reflexivity.
Defined.

(** X9.  [mud_peer] checks its arguments before it touches the
    engine.  A null [name] or [host], or a port of zero, gives -1 with
    [EINVAL].  A [name] that is no address gives -1 and [errno] is not set;
    a [host] that is no address gives -1 with [EINVAL].  In all these cases
    the state is as it was: no path, no allocation. *)
Theorem mud_peer_args_invalid (L : libc) (E : env) l0 a0 name host port backup s :
  (name = None \/ host = None \/ port = 0 ->
   mud_peer_args L E l0 a0 name host port backup s = ((-1, Some EINVAL), s))
  /\ (forall n h,
        name = Some n -> host = Some h -> port <> 0 ->
        inet_pton L AF_INET n = None -> inet_pton L AF_INET6 n = None ->
        mud_peer_args L E l0 a0 name host port backup s = ((-1, None), s))
  /\ (forall n h,
        name = Some n -> host = Some h -> port <> 0 ->
        inet_pton L AF_INET n <> None \/ inet_pton L AF_INET6 n <> None ->
        inet_pton L AF_INET h = None -> inet_pton L AF_INET6 h = None ->
        mud_peer_args L E l0 a0 name host port backup s
        = ((-1, Some EINVAL), s)).
Proof.
  unfold mud_peer_args. split; [|split].
  - intros [->|[->| ->]]; [reflexivity|destruct name; reflexivity|].
    destruct name, host; reflexivity.
  - intros n h -> -> Hp H4 H6.
    destruct (Z.eqb_spec port 0); [contradiction|].
    unfold mud_ipaddrinfo. rewrite H4, H6. reflexivity.
  - intros n h -> -> Hp Hn H4 H6.
    destruct (Z.eqb_spec port 0); [contradiction|].
    unfold mud_ipaddrinfo, mud_addrinfo. rewrite H4, H6.
    destruct (inet_pton L AF_INET n); [reflexivity|].
    destruct (inet_pton L AF_INET6 n); [reflexivity|].
    destruct Hn as [Hn|Hn]; contradiction Hn; reflexivity.
Qed.

Lemma mud_peer_args_invalid_witness :
  mud_peer_args ToyC.L Scenario.EA zero_ipaddr zero_sockaddr
    (Some (zeros 3)) (Some Scenario.addrB) 5000 0 Scenario.a0
  = ((-1, None), Scenario.a0).
Proof.
  apply (proj1 (proj2 (mud_peer_args_invalid ToyC.L Scenario.EA zero_ipaddr
           zero_sockaddr (Some (zeros 3)) (Some Scenario.addrB) 5000 0
           Scenario.a0)) (zeros 3) Scenario.addrB);
    first [reflexivity | discriminate].
Defined.

(** X10.  The key that [mud_set_key] has stored is the key that
    [mud_get_key] gives back: the first 32 bytes of what was set, at the
    start of the buffer of the caller, with [*size] set to 32.  With less
    than 32 bytes announced, or with a null pointer, [mud_get_key] returns
    -1 with [EINVAL] and writes nothing; with less than 32 bytes given
    [mud_set_key] returns -1 with [EINVAL] and keeps the old key. *)
Theorem mud_get_key_after_set m :
  (forall k size buf n,
     MUD_KEY_SIZE <= size -> MUD_KEY_SIZE <= n -> (32 <= length k)%nat ->
     mud_get_key (Some buf) (Some n) (snd (mud_set_key k size m))
     = (0, None, Some (take 32 k ++ drop 32 buf), Some MUD_KEY_SIZE))
  /\ (forall buf size,
        buf = None \/ size = None \/ (exists n, size = Some n /\ n < MUD_KEY_SIZE) ->
        mud_get_key buf size m = (-1, Some EINVAL, buf, size))
  /\ (forall k size,
        size < MUD_KEY_SIZE -> mud_set_key k size m = (-1, Some EINVAL, m)).
Proof.
  split; [|split].
  - intros k size buf n Hs Hn Hk. unfold mud_set_key, mud_get_key.
    destruct (Z.ltb_spec size MUD_KEY_SIZE); [lia|].
    destruct (Z.ltb_spec n MUD_KEY_SIZE); [lia|].
    cbn [snd crypto set_crypto private set_ring encrypt key].
    unfold memcpy. rewrite take_app_le by (rewrite length_take; lia).
    rewrite take_take, Nat.min_id. reflexivity.
  - intros buf size [->|[->|(n & -> & Hn)]]; unfold mud_get_key.
    + reflexivity.
    + destruct buf; reflexivity.
    + destruct buf; [|reflexivity].
      destruct (Z.ltb_spec n MUD_KEY_SIZE); [reflexivity|lia].
  - intros k size Hs. unfold mud_set_key.
    destruct (Z.ltb_spec size MUD_KEY_SIZE); [reflexivity|lia].
Qed.

Lemma mud_get_key_after_set_witness :
  mud_get_key (Some (zeros 40)) (Some 40)
    (snd (mud_set_key Toy.psk 32 zero_mud))
  = (0, None, Some (take 32 Toy.psk ++ drop 32 (zeros 40)), Some MUD_KEY_SIZE).
Proof.
  apply (proj1 (mud_get_key_after_set zero_mud) Toy.psk 32 (zeros 40) 40).
  - unfold MUD_KEY_SIZE. lia.
  - unfold MUD_KEY_SIZE. lia.
  - simpl. lia.
Defined.

(** X11.  [mud_set_mtu] accepts the values from 500 to 1450 and no
    other; a value it refuses gives -1 with [EINVAL] and changes nothing.
    A value it accepts becomes [mtu.local]; when it differs from the former
    one and the MTU of the peer is not known, an mtux is due whatever the
    time, it carries the new value, and it is what the control tick
    chooses for an active path unless a keyx is due. *)
Theorem mud_set_mtu_announced v m :
  (fst (fst (mud_set_mtu v m)) = 0 <-> 500 <= v <= 1450)
  /\ (~ 500 <= v <= 1450 -> mud_set_mtu v m = (-1, Some EINVAL, m))
  /\ (500 <= v <= 1450 ->
      mtu_local (mtu (snd (mud_set_mtu v m))) = v
      /\ (v <> mtu_local (mtu m) -> mtu_remote (mtu m) = 0 ->
          forall now p,
            mtux_due (snd (mud_set_mtu v m)) now = true
            /\ mud_read48 (ctrl_payload (snd (mud_set_mtu v m)) p mud_mtux) = v
            /\ (active p = true -> keyx_due (snd (mud_set_mtu v m)) now = false ->
                ctrl_choice (snd (mud_set_mtu v m)) p now = Some mud_mtux))).
Proof.
  unfold mud_set_mtu. change (MUD_PACKET_MAX_SIZE - 50) with 1450.
  destruct (Z.ltb_spec v 500) as [Hlo|Hlo]; cbn [orb].
  { split; [split; [discriminate|lia]|]. split; [reflexivity|lia]. }
  destruct (Z.gtb_spec v 1450) as [Hhi|Hhi].
  { split; [split; [discriminate|lia]|]. split; [reflexivity|lia]. }
  split; [split; [lia|]; intros _; destruct (negb _); reflexivity|].
  split; [lia|]. intros _.
  destruct (Z.eqb_spec (mtu_local (mtu m)) v) as [Heq|Hne]; cbn [negb snd].
  - split; [exact Heq|]. intros Hv. congruence.
  - split; [reflexivity|]. intros _ Hr now p.
    assert (Hdue : mtux_due
              (set_mtu_t (set_mtu_send_time 0 (set_mtu_local v (mtu m))) m) now
            = true).
    { unfold mtux_due. cbn [mtu set_mtu_t mtu_remote mtu_send_time
        set_mtu_send_time set_mtu_local]. rewrite Hr. reflexivity. }
    split; [exact Hdue|]. split.
    + cbn [ctrl_payload mtu set_mtu_t mtu_local set_mtu_send_time set_mtu_local].
      rewrite <- (app_nil_r (mud_write48 _)), mud_read48_write48.
      rewrite u64_small by lia. apply Z.mod_small. lia.
    + intros Ha Hk. unfold ctrl_choice. rewrite Ha, Hk, Hdue. reflexivity.
Qed.

Lemma mud_set_mtu_announced_witness :
  mtu_local (mtu (snd (mud_set_mtu 1200 (fst Scenario.a0)))) = 1200.
Proof.
  apply (proj1 (proj2 (proj2 (mud_set_mtu_announced 1200 (fst Scenario.a0))) ltac:(lia))).
Defined.

(** X12.  The engine that [mud_create] makes has no path, a send
    timeout of one second, a time tolerance of ten minutes, the MTU it was
    given (which is not checked) and no MTU of the peer.  Its four key
    slots hold one and the same ChaCha20 key, drawn at random; [use_next]
    and [bad_key] are clear.  The AES flag is set only when AES was asked
    for and libsodium has it; it is the last byte of [public.send], and
    [public.recv] is zero.  Two draws were made and nothing was sent. *)
Theorem mud_create_state (S : sodium) (E : env) sock want_aes mtu0 s :
  let s' := snd (mud_create S E sock want_aes mtu0 s) in
  let c := crypto (fst s') in
  paths (fst s') = []
  /\ fd (fst s') = sock
  /\ send_timeout (fst s') = 1000000
  /\ time_tolerance (fst s') = 600000000
  /\ mtu_local (mtu (fst s')) = mtu0 /\ mtu_remote (mtu (fst s')) = 0
  /\ one_key (fst s') /\ aes (private c) = 0
  /\ take 32 (key (encrypt (private c)))
     = take 32 (randombytes_buf E (draws (snd s)) 32)
  /\ use_next c = 0 /\ bad_key c = 0
  /\ crypto_aes c
     = (if negb (want_aes =? 0)
           && negb (crypto_aead_aes256gcm_is_available S =? 0)
        then 1 else 0)
  /\ byte_at (pub_send (crypto_public c)) 32 = crypto_aes c
  /\ pub_recv (crypto_public c) = zeros 33
  /\ draws (snd s') = Datatypes.S (Datatypes.S (draws (snd s)))
  /\ wire (snd s') = wire (snd s).
Proof.
  cbv zeta. unfold mud_create, mud_keyx_init.
  unfold mbind, M_bind, mret, M_ret, modify_mud, modify_crypto, draw.
  simpl.
  repeat (split; [reflexivity|]).
  split; [unfold one_key, symmetric; simpl; repeat split|].
  split; [reflexivity|].
  split.
  { unfold memcpy. change (drop 32 (zeros 32)) with (@nil byte).
    rewrite app_nil_r, take_take. reflexivity. }
  repeat (split; [reflexivity|]).
  split; [|repeat split].
  set (a := if _ && _ then 1 else 0).
  unfold byte_at.
  set (out := store _ _).
  assert (Hlen : (32 < length out)%nat).
  { subst out. unfold store. rewrite length_app, length_drop. simpl.
    destruct (Nat.le_gt_cases (length (crypto_scalarmult_base S
       (store (zeros 32) (randombytes_buf E (Datatypes.S (draws (snd s))) 32)))) 33);
      lia. }
  rewrite (nth_lookup_Some _ _ _ (byte_of_Z a)).
  - rewrite Z_of_byte_of_Z. subst a. destruct (_ && _); reflexivity.
  - apply list_lookup_insert_eq. exact Hlen.
Qed.

(** ** Datagrams that [mud_recv] drops *)

(** X13.  When [recvmsg] fails [mud_recv] returns -1; a datagram of 22
    bytes or less makes it return 0; in both cases nothing changes, the
    clock is not even read.  A longer datagram that starts with six zero
    bytes and has less than 28 bytes makes it return 0 after one reading
    of the clock, with the engine and the buffer of the caller as they
    were. *)
Theorem mud_recv_too_short (S : sodium) (E : env) data s :
  mud_recv S E recvmsg_error data s = ((-1, data), s)
  /\ (forall d, len (packet d) <= MUD_PACKET_MIN_SIZE ->
        mud_recv S E (recvmsg_ok d) data s = ((0, data), s))
  /\ (forall d, MUD_PACKET_MIN_SIZE < len (packet d) < 28 ->
        take 6 (packet d) = zeros 6 ->
        mud_recv S E (recvmsg_ok d) data s
        = ((0, data), (fst s, tick (snd s)))).
Proof.
  split; [reflexivity|]. split.
  - intros d Hlen. unfold mud_recv.
    destruct (Z.leb_spec (len (packet d)) MUD_PACKET_MIN_SIZE); [reflexivity|lia].
  - intros d Hlen Hz. unfold mud_recv.
    destruct (Z.leb_spec (len (packet d)) MUD_PACKET_MIN_SIZE); [lia|].
    unfold mbind, M_bind. rewrite recv_admit_run. cbv zeta.
    rewrite (read48_zero_prefix _ Hz). change (0 =? 0) with true.
    change (MUD_PACKET_SIZEOF MUD_U48_SIZE) with 28.
    destruct (Z.ltb_spec (len (packet d)) 28); [reflexivity|lia].
Qed.

Lemma mud_recv_too_short_witness :
  mud_recv Toy.S Scenario.EA
    (recvmsg_ok (Toy.dgram4 (zeros 22) Scenario.addrB Scenario.addrA 5000))
    (zeros 1500) Scenario.a0
  = ((0, zeros 1500), Scenario.a0).
Proof.
  apply (proj1 (proj2 (mud_recv_too_short Toy.S Scenario.EA (zeros 1500)
                         Scenario.a0))).
  vm_compute. discriminate.
Defined.

(** X14.  A datagram of more than 22 bytes that starts with six zero
    bytes and whose MAC the private key does not verify makes [mud_recv]
    return 0 with the engine and the buffer of the caller as they were:
    no path is made, nothing is answered; only the clock has been read. *)
Theorem mud_recv_forged_control (S : sodium) (E : env) d data s :
  MUD_PACKET_MIN_SIZE < len (packet d) ->
  mud_read48 (packet d) = 0 ->
  ~ ctrl_mac_ok S (fst s) (packet d) ->
  mud_recv S E (recvmsg_ok d) data s = ((0, data), (fst s, tick (snd s))).
Proof.
  intros Hlen Hz Hmac. unfold mud_recv.
  destruct (Z.leb_spec (len (packet d)) MUD_PACKET_MIN_SIZE); [lia|].
  unfold mbind, M_bind. rewrite recv_admit_run. cbv zeta.
  rewrite Hz. change (0 =? 0) with true. cbn [andb].
  destruct (_ <? _); [reflexivity|].
  destruct (_ >=? _); [reflexivity|].
  unfold ctrl_mac_ok in Hmac. apply Z.eqb_neq in Hmac. rewrite Hmac.
  reflexivity.
Qed.

Lemma mud_recv_forged_control_witness :
  mud_recv Toy.S Scenario.EA
    (recvmsg_ok (Toy.dgram4 (zeros 12 ++ replicate 16 xff) Scenario.addrB
                   Scenario.addrA 5000))
    (zeros 1500) Scenario.a0
  = ((0, zeros 1500), (fst Scenario.a0, tick (snd Scenario.a0))).
Proof.
  apply (mud_recv_forged_control Toy.S Scenario.EA
           (Toy.dgram4 (zeros 12 ++ replicate 16 xff) Scenario.addrB
              Scenario.addrA 5000) (zeros 1500) Scenario.a0).
  - vm_compute. reflexivity.
  - reflexivity.
  - unfold ctrl_mac_ok. apply Z.eqb_neq. vm_compute. reflexivity.
Defined.

(** X15.  A datagram of more than 22 bytes is dropped, [mud_recv]
    returning 0 with the engine and the buffer as they were, when its
    ancillary data does not tell the local address, and, for a data frame
    (one that does not start with six zero bytes), when no path has the
    two addresses it came with: a data frame never makes a path, whether
    its key is right or not. *)
Theorem mud_recv_unknown_origin (S : sodium) (E : env) d data s :
  MUD_PACKET_MIN_SIZE < len (packet d) ->
  (mud_localaddr (msg_cmsgs d) (sa_family_of (mud_unmapv4 (msg_from d))) = None ->
   mud_recv S E (recvmsg_ok d) data s = ((0, data), (fst s, tick (snd s))))
  /\ (forall l,
        mud_read48 (packet d) <> 0 ->
        mud_localaddr (msg_cmsgs d) (sa_family_of (mud_unmapv4 (msg_from d)))
        = Some l ->
        find_path l (mud_unmapv4 (msg_from d)) (paths (fst s)) = None ->
        mud_recv S E (recvmsg_ok d) data s
        = ((0, data), (fst s, tick (snd s)))).
Proof.
  intros Hlen. unfold mud_recv.
  destruct (Z.leb_spec (len (packet d)) MUD_PACKET_MIN_SIZE); [lia|].
  unfold mbind, M_bind. rewrite recv_admit_run. cbv zeta. split.
  - intros Hl. rewrite Hl.
    destruct (_ && _); [reflexivity|].
    destruct (_ >=? _); [reflexivity|].
    destruct (_ && _); reflexivity.
  - intros l Hd Hl Hfind. rewrite Hl.
    apply Z.eqb_neq in Hd. rewrite Hd. cbn [andb].
    destruct (_ >=? _); [reflexivity|].
    rewrite mud_path_run. cbn [fst snd]. rewrite Hfind.
    destruct (negb _); reflexivity.
Qed.

Lemma mud_recv_unknown_origin_witness :
  mud_recv Toy.S Scenario.EA
    (recvmsg_ok {| packet := replicate 30 xaa;
                   msg_from := Toy.sock4 Scenario.addrB 5000;
                   msg_cmsgs := [] |})
    (zeros 1500) Scenario.a0
  = ((0, zeros 1500), (fst Scenario.a0, tick (snd Scenario.a0))).
Proof.
  apply (proj1 (mud_recv_unknown_origin Toy.S Scenario.EA
           {| packet := replicate 30 xaa;
              msg_from := Toy.sock4 Scenario.addrB 5000;
              msg_cmsgs := [] |} (zeros 1500) Scenario.a0
           ltac:(vm_compute; reflexivity))).
  reflexivity.
Defined.

(** X16.  [mud_recv] never removes a path and never changes the
    addresses nor the [active] flag of one.  It adds at most one path, at
    the head of the list, and only for a datagram that starts with six zero
    bytes, whose send time is within the tolerance and whose MAC the
    private key verifies; the new path is not active. *)
Theorem mud_recv_new_path_authentic (S : sodium) (E : env) r data s :
  exists pre ps',
    paths (fst (snd (mud_recv S E r data s))) = pre ++ ps'
    /\ Forall2 same_endpoints (paths (fst s)) ps'
    /\ (pre = []
        \/ exists d p,
             r = recvmsg_ok d /\ pre = [p] /\ active p = false
             /\ mud_read48 (packet d) = 0
             /\ ctrl_mac_ok S (fst s) (packet d)
             /\ mud_abs_diff (clock_value E (clock_reads (snd s)))
                  (mud_read48 (drop 6 (packet d))) < time_tolerance (fst s)).
Proof.
  assert (Hsame : forall s0 : mud * world,
            exists pre ps', paths (fst s0) = pre ++ ps'
              /\ Forall2 same_endpoints (paths (fst s0)) ps'
              /\ (pre = [] \/ exists d p,
                    r = recvmsg_ok d /\ pre = [p] /\ active p = false
                    /\ mud_read48 (packet d) = 0
                    /\ ctrl_mac_ok S (fst s) (packet d)
                    /\ mud_abs_diff (clock_value E (clock_reads (snd s)))
                         (mud_read48 (drop 6 (packet d)))
                       < time_tolerance (fst s))).
  { intros s0. exists [], (paths (fst s0)). split; [reflexivity|].
    split; [reflexivity|left; reflexivity]. }
  destruct r as [|d]; [apply Hsame|]. unfold mud_recv.
  destruct (_ <=? _); [apply Hsame|].
  rewrite bind_state.
  destruct (fst (recv_admit S E d s)) as [a|] eqn:Ha.
  2: { destruct (recv_admit_none S E d s Ha) as [Hm _]. cbn [mret M_ret snd].
       rewrite Hm. apply Hsame. }
  clear Hsame.
  pose proof (recv_handle_keeps_endpoints S E a (packet d) data
                (snd (recv_admit S E d s))) as Hh.
  unfold keeps_paths in Hh.
  revert Hh.
  generalize (snd (recv_handle S E a (packet d) data (snd (recv_admit S E d s)))).
  intros s2 Hh. revert Ha Hh. rewrite recv_admit_run. cbv zeta.
  destruct (mud_read48 (packet d) =? 0) eqn:Hz; cbn [andb].
  - apply Z.eqb_eq in Hz.
    destruct (_ <? _); [discriminate|].
    destruct (Z.geb_spec (mud_abs_diff (clock_value E (clock_reads (snd s)))
                (mud_read48 (drop 6 (packet d)))) (time_tolerance (fst s)))
      as [?|Htol]; [discriminate|].
    destruct (Z.eqb_spec (fst (mud_decrypt_opt S (private (crypto (fst s)))
                {| src := drop (Z.to_nat (len (packet d) - MUD_MAC_SIZE)) (packet d);
                   ad := take (Z.to_nat (len (packet d) - MUD_MAC_SIZE)) (packet d);
                   npub := zeros 16 |})) 0) as [Hmac|?]; [|discriminate].
    cbn [negb].
    destruct (mud_localaddr _ _) as [l|]; [|discriminate].
    cbn [fst snd]. intros _.
    match goal with |- context [mud_path E l ?a0 true ?s1] =>
      destruct (mud_path_frame E l a0 true s1)
        as ([Hc|(_ & _ & _ & p & Hc & Hact & _)] & _); rewrite Hc
    end.
    + intros Hh. exists [], (paths (fst s2)). split; [reflexivity|].
      split; [exact Hh|left; reflexivity].
    + cbn [paths set_paths fst]. intros Hh.
      apply Forall2_cons_inv_l in Hh as (p' & ps' & (_ & _ & Hact') & Hrest & ->).
      exists [p'], ps'. split; [reflexivity|]. split; [exact Hrest|].
      right. exists d, p'. repeat split; try assumption. congruence.
  - destruct (_ >=? _); [discriminate|].
    destruct (mud_localaddr _ _) as [l|]; [|discriminate].
    cbn [fst snd]. intros _.
    match goal with |- context [mud_path E l ?a0 false ?s1] =>
      destruct (mud_path_frame E l a0 false s1) as (_ & Hc & _);
      rewrite (Hc eq_refl)
    end.
    intros Hh. exists [], (paths (fst s2)). split; [reflexivity|].
    split; [exact Hh|left; reflexivity].
Qed.

(** X17.  Whatever it receives, [mud_recv] leaves the setup of the
    engine alone: the socket, the send timeout, the time tolerance, the
    local MTU, the private key and the AES flag. *)
Theorem mud_recv_leaves_setup (S : sodium) (E : env) r data s :
  setup_of (fst (snd (mud_recv S E r data s))) = setup_of (fst s).
Proof. symmetry. apply (mud_recv_keeps_setup S E r data s). Qed.

(** ** Control packets from one engine to the other *)

(** X18.  A control packet that [mud_ctrl_path] lays out at a time
    below 2^48 is taken by an engine whose private key opens what the
    private key of the sender seals (libsodium opening what it has
    sealed): it has more than 22 bytes, starts with six zero bytes, its
    MAC verifies and the send time read from it is the time of the sender.
    If that time is within the tolerance and the local address is known,
    the packet is admitted on the path that [mud_path] finds or makes, as
    a control packet with that send time. *)
Theorem ctrl_frame_authentic (S : sodium) (E : env) ms p msg now d s :
  aead_correct S ->
  opens (private (crypto ms)) (private (crypto (fst s))) ->
  0 <= now < 2 ^ 48 ->
  packet d = ctrl_frame S ms p msg now ->
  MUD_PACKET_MIN_SIZE < len (packet d)
  /\ mud_read48 (packet d) = 0
  /\ ctrl_mac_ok S (fst s) (packet d)
  /\ wire_send_time (packet d) = now
  /\ (mud_abs_diff (clock_value E (clock_reads (snd s))) now
        < time_tolerance (fst s) ->
      forall l,
        mud_localaddr (msg_cmsgs d) (sa_family_of (mud_unmapv4 (msg_from d)))
        = Some l ->
        fst (recv_admit S E d s)
        = (fun i => {| adm_path := i;
                       adm_now := clock_value E (clock_reads (snd s));
                       adm_send_time := now; adm_mud_packet := true |})
          <$> fst (mud_path E l (mud_unmapv4 (msg_from d)) true
                     (fst s, tick (snd s)))).
Proof.
  intros Haead Hop Hnow Hd.
  pose proof (ctrl_frame_len S ms p msg now Haead) as Hlen.
  pose proof (len_nonneg (ctrl_payload ms p msg)) as Hpl.
  destruct (ctrl_frame_time S ms p msg now) as [Hz Ht].
  rewrite Z.mod_small in Ht by exact Hnow.
  pose proof (ctrl_frame_mac_ok S ms (fst s) p msg now Haead Hop) as Hmac.
  rewrite <- Hd in Hlen, Hz, Ht, Hmac.
  assert (Hmin : MUD_PACKET_MIN_SIZE = 22) by reflexivity.
  split; [lia|]. split; [exact Hz|]. split; [exact Hmac|].
  split; [unfold wire_send_time; rewrite Hz; exact Ht|].
  intros Htol l Hl. rewrite recv_admit_run. cbv zeta.
  rewrite Hz. change (0 =? 0) with true. cbn [andb].
  change (MUD_PACKET_SIZEOF MUD_U48_SIZE) with 28.
  destruct (Z.ltb_spec (len (packet d)) 28); [lia|].
  rewrite Ht.
  destruct (Z.geb_spec (mud_abs_diff (clock_value E (clock_reads (snd s))) now)
              (time_tolerance (fst s))); [lia|].
  unfold ctrl_mac_ok in Hmac. rewrite Hmac. change (0 =? 0) with true.
  cbn [negb]. rewrite Hl. reflexivity.
Qed.

Lemma ctrl_frame_authentic_witness :
  MUD_PACKET_MIN_SIZE
  < len (packet (Toy.dgram4 Scenario.bakx1 Scenario.addrB Scenario.addrA 5000))
  /\ mud_read48
       (packet (Toy.dgram4 Scenario.bakx1 Scenario.addrB Scenario.addrA 5000)) = 0
  /\ ctrl_mac_ok Toy.S (fst Scenario.a0)
       (packet (Toy.dgram4 Scenario.bakx1 Scenario.addrB Scenario.addrA 5000))
  /\ wire_send_time
       (packet (Toy.dgram4 Scenario.bakx1 Scenario.addrB Scenario.addrA 5000))
     = 1000000000.
Proof.
  refine (let H := ctrl_frame_authentic Toy.S Scenario.EA (fst Scenario.b0)
                     (set_bak_local 1 zero_path) mud_bakx 1000000000
                     (Toy.dgram4 Scenario.bakx1 Scenario.addrB Scenario.addrA 5000)
                     Scenario.a0 toy_aead_correct _ _ _ in
          conj (proj1 H) (conj (proj1 (proj2 H))
            (conj (proj1 (proj2 (proj2 H))) (proj1 (proj2 (proj2 (proj2 H))))))).
  - unfold opens. split; vm_compute; reflexivity.
  - lia.
  - reflexivity.
Defined.

(** X19.  A pong as [mud_ctrl_path] lays it out for a path with the
    samples [sdt], [rdt] and [rst], handled by the receiver on its path
    [i] at the time [now], stores these three numbers (modulo 2^48) in
    [r_sdt], [r_rdt] and [r_rst] of that path, sets [rtt] to [now - r_rst]
    and [r_dt] to the send time less [r_rst]; the received samples and the
    role of the path, the keys and the wire are as they were. *)
Theorem pong_round_trip (S : sodium) (E : env) ms p t i now st s q :
  aead_correct S ->
  paths (fst s) !! i = Some q ->
  exists q',
    paths (fst (snd (recv_ctrl S E i now st (ctrl_frame S ms p mud_pong t) s))) !! i
    = Some q'
    /\ r_sdt q' = sdt p mod 2 ^ 48
    /\ r_rdt q' = rdt p mod 2 ^ 48
    /\ r_rst q' = rst p mod 2 ^ 48
    /\ rtt q' = u64 (now - rst p mod 2 ^ 48)
    /\ r_dt q' = s64 (st - rst p mod 2 ^ 48)
    /\ same_samples q q' /\ same_role q q'
    /\ crypto (fst (snd (recv_ctrl S E i now st (ctrl_frame S ms p mud_pong t) s)))
       = crypto (fst s)
    /\ snd (snd (recv_ctrl S E i now st (ctrl_frame S ms p mud_pong t) s)) = snd s.
Proof.
  intros Haead Hq.
  pose proof (ctrl_frame_len S ms p mud_pong t Haead) as Hlen.
  unfold recv_ctrl. rewrite Hlen.
  change (len (ctrl_payload ms p mud_pong) + 28 =? MUD_KEYX_SIZE) with false.
  change (len (ctrl_payload ms p mud_pong) + 28 =? MUD_MTUX_SIZE) with false.
  change (len (ctrl_payload ms p mud_pong) + 28 =? MUD_PONG_SIZE) with true.
  cbv iota.
  assert (H12 : mud_read48 (drop 12 (ctrl_frame S ms p mud_pong t)) = sdt p mod 2 ^ 48).
  { unfold ctrl_frame, ctrl_payload. rewrite <- !app_assoc.
    change (drop 12 (zeros 6 ++ mud_write48 t ++ ?x)) with x.
    apply mud_read48_write48. }
  assert (H18 : mud_read48 (drop 18 (ctrl_frame S ms p mud_pong t)) = rdt p mod 2 ^ 48).
  { unfold ctrl_frame, ctrl_payload. rewrite <- !app_assoc.
    change (drop 18 (zeros 6 ++ mud_write48 t ++ mud_write48 (sdt p) ++ ?x)) with x.
    apply mud_read48_write48. }
  assert (H24 : mud_read48 (drop 24 (ctrl_frame S ms p mud_pong t)) = rst p mod 2 ^ 48).
  { unfold ctrl_frame, ctrl_payload. rewrite <- !app_assoc.
    change (drop 24 (zeros 6 ++ mud_write48 t ++ mud_write48 (sdt p)
                       ++ mud_write48 (rdt p) ++ ?x)) with x.
    apply mud_read48_write48. }
  rewrite H12, H18, H24.
  unfold modify_path, modify_mud. cbn [fst snd paths set_paths crypto set_crypto].
  eexists. split; [rewrite list_lookup_alter_eq, Hq; reflexivity|].
  repeat split.
Qed.

Lemma pong_round_trip_witness :
  exists q',
    paths (fst (snd (recv_ctrl Toy.S Scenario.EA 0 1000000500 1000000000
      (ctrl_frame Toy.S (fst Scenario.b0)
         (set_samples 1001 1002 999999000 999999500 zero_path) mud_pong 1000000000)
      Scenario.a0))) !! 0%nat
    = Some q'
    /\ r_sdt q' = sdt (set_samples 1001 1002 999999000 999999500 zero_path) mod 2 ^ 48.
Proof.
  edestruct (fun q => pong_round_trip Toy.S Scenario.EA (fst Scenario.b0)
               (set_samples 1001 1002 999999000 999999500 zero_path)
               1000000000 0 1000000500 1000000000 Scenario.a0 q
               toy_aead_correct) as (q' & H1 & H2 & _).
  - vm_compute. reflexivity.
  - exists q'. split; [exact H1|exact H2].
Defined.

(** X20.  An mtux as [mud_ctrl_path] lays it out for a sender whose
    local MTU is a number below 2^31, handled by the receiver, stores that
    number as the MTU of the peer and leaves the local MTU alone;
    [mud_get_mtu] is then the smaller of the two, or the local MTU if the
    number is zero. *)
Theorem mtux_round_trip (S : sodium) (E : env) ms p t i now st s :
  aead_correct S ->
  0 <= mtu_local (mtu ms) < 2 ^ 31 ->
  mtu_remote (mtu (fst (snd (recv_ctrl S E i now st
                                (ctrl_frame S ms p mud_mtux t) s))))
  = mtu_local (mtu ms)
  /\ mtu_local (mtu (fst (snd (recv_ctrl S E i now st
                                 (ctrl_frame S ms p mud_mtux t) s))))
     = mtu_local (mtu (fst s))
  /\ mud_get_mtu (fst (snd (recv_ctrl S E i now st
                              (ctrl_frame S ms p mud_mtux t) s)))
     = (if mtu_local (mtu ms) =? 0 then mtu_local (mtu (fst s))
        else Z.min (mtu_local (mtu (fst s))) (mtu_local (mtu ms))).
Proof.
  intros Haead Hv.
  pose proof (ctrl_frame_len S ms p mud_mtux t Haead) as Hlen.
  unfold recv_ctrl. rewrite Hlen.
  change (len (ctrl_payload ms p mud_mtux) + 28 =? MUD_KEYX_SIZE) with false.
  change (len (ctrl_payload ms p mud_mtux) + 28 =? MUD_MTUX_SIZE) with true.
  cbv iota.
  assert (H12 : mud_read48 (drop 12 (ctrl_frame S ms p mud_mtux t))
                = mtu_local (mtu ms)).
  { unfold ctrl_frame, ctrl_payload. rewrite <- !app_assoc.
    change (drop 12 (zeros 6 ++ mud_write48 t ++ ?x)) with x.
    rewrite mud_read48_write48, u64_small by lia. apply Z.mod_small. lia. }
  rewrite H12, int32_small by exact Hv.
  rewrite bind_state.
  set (s1 := snd (modify_mtu (set_mtu_remote (mtu_local (mtu ms))) s)).
  assert (Hrest : keeps_config s1
            (snd ((p0 ← get_path i;
                   if negb (active p0) then mud_ctrl_path S E mud_mtux i now
                   else mret ()) s1))).
  { generalize s1. change (preserves keeps_config
      (p0 ← get_path i;
       if negb (active p0) then mud_ctrl_path S E mud_mtux i now else mret ())).
    pres. }
  destruct Hrest as (Hl & Hr & _).
  assert (Hl1 : mtu_local (mtu (fst s1)) = mtu_local (mtu (fst s))) by reflexivity.
  assert (Hr1 : mtu_remote (mtu (fst s1)) = mtu_local (mtu ms)) by reflexivity.
  split; [congruence|]. split; [congruence|].
  unfold mud_get_mtu. rewrite <- Hl, <- Hr, Hl1, Hr1.
  destruct (Z.eqb_spec (mtu_local (mtu ms)) 0); cbn [orb]; [reflexivity|].
  destruct (Z.ltb_spec (mtu_local (mtu (fst s))) (mtu_local (mtu ms))); lia.
Qed.

Lemma mtux_round_trip_witness :
  mtu_remote (mtu (fst (snd (recv_ctrl Toy.S Scenario.EA 0 1000000500 1000000000
     (ctrl_frame Toy.S (fst Scenario.b0) zero_path mud_mtux 1000000000)
     Scenario.a0))))
  = mtu_local (mtu (fst Scenario.b0)).
Proof.
  apply (proj1 (mtux_round_trip Toy.S Scenario.EA (fst Scenario.b0) zero_path
           1000000000 0 1000000500 1000000000 Scenario.a0 toy_aead_correct
           ltac:(vm_compute; split; [discriminate|reflexivity]))).
Defined.

(** ** Key agreement and delivery *)

(** X21.  Key agreement.  Two engines with the same private key take
    each other's keyx: what each receives starts with the [public.send] of
    the other, the two scalar multiplications succeed and give the same
    shared secret, the generic hash returns 32 bytes and the keys of the
    two [next] slots have 32 bytes.  Then the slot [next] of each opens what
    the slot [next] of the other seals: same cipher, and the encryption key
    of the one is the decryption key of the other. *)
Theorem keyx_agreement (S : sodium) (E : env) iA iB nowA nowB dA dB sA sB :
  let cA := crypto (fst sA) in
  let cB := crypto (fst sB) in
  key (encrypt (private cA)) = key (encrypt (private cB)) ->
  take 33 dA = take 33 (pub_send (crypto_public cB)) ->
  take 33 dB = take 33 (pub_send (crypto_public cA)) ->
  fst (crypto_scalarmult S (secret cA) (take 32 (take 33 dA))) = 0 ->
  fst (crypto_scalarmult S (secret cB) (take 32 (take 33 dB))) = 0 ->
  snd (crypto_scalarmult S (secret cA) (take 32 (take 33 dA)))
  = snd (crypto_scalarmult S (secret cB) (take 32 (take 33 dB))) ->
  (forall input k, length (crypto_generichash S 32 input k) = 32%nat) ->
  length (key (encrypt (next cA))) = 32%nat ->
  length (key (decrypt (next cA))) = 32%nat ->
  length (key (encrypt (next cB))) = 32%nat ->
  length (key (decrypt (next cB))) = 32%nat ->
  opens (next (crypto (fst (snd (mud_recv_keyx S E iA nowA dA sA)))))
        (next (crypto (fst (snd (mud_recv_keyx S E iB nowB dB sB)))))
  /\ opens (next (crypto (fst (snd (mud_recv_keyx S E iB nowB dB sB)))))
           (next (crypto (fst (snd (mud_recv_keyx S E iA nowA dA sA))))).
Proof.
  intros cA cB Hsalt HA HB HsA HsB Hq Hh L1 L2 L3 L4.
  rewrite (mud_recv_keyx_slot S E iA nowA dA sA HsA).
  rewrite (mud_recv_keyx_slot S E iB nowB dB sB HsB).
  cbv zeta. fold cA cB. rewrite Hq, Hsalt, HA, HB.
  rewrite !store_whole by (rewrite Hh; assumption).
  set (a1 := byte_at (take 33 (pub_send (crypto_public cB))) 32 =? 1).
  set (a2 := byte_at (take 33 (pub_send (crypto_public cA))) 32 =? 1).
  rewrite (andb_comm a2 a1).
  unfold opens. cbn [aes encrypt decrypt key state].
  destruct (a1 && a2); cbn [Z.eqb]; repeat split; reflexivity.
Qed.

Lemma toy_digest_length n input k : length (Toy.digest n input k) = n.
Proof. unfold Toy.digest. rewrite length_fmap, length_seq. reflexivity. Qed.

Lemma keyx_agreement_witness :
  opens (next (crypto (fst (snd (mud_recv_keyx Toy.S Scenario.EA 0 1000002000
                                   (drop 12 Scenario.keyx2) Scenario.a1)))))
        (next (crypto (fst (snd (mud_recv_keyx Toy.S Scenario.EA 0 1000001000
                                   (drop 12 Scenario.keyx1) Scenario.b0)))))
  /\ opens (next (crypto (fst (snd (mud_recv_keyx Toy.S Scenario.EA 0 1000001000
                                      (drop 12 Scenario.keyx1) Scenario.b0)))))
           (next (crypto (fst (snd (mud_recv_keyx Toy.S Scenario.EA 0 1000002000
                                      (drop 12 Scenario.keyx2) Scenario.a1))))).
Proof.
  apply (keyx_agreement Toy.S Scenario.EA 0 0 1000002000 1000001000
           (drop 12 Scenario.keyx2) (drop 12 Scenario.keyx1)
           Scenario.a1 Scenario.b0).
  - vm_compute. reflexivity.
  - vm_compute. reflexivity.
  - vm_compute. reflexivity.
  - vm_compute. reflexivity.
  - vm_compute. reflexivity.
  - vm_compute. reflexivity.
  - intros input k. apply toy_digest_length.
  - vm_compute. reflexivity.
  - vm_compute. reflexivity.
  - vm_compute. reflexivity.
  - vm_compute. reflexivity.
Defined.

(** X22.  Delivery.  A frame that [mud_encrypt] makes of a plaintext
    [P] that is not empty, at a time between 1 and 2^48 - 1, reaches an
    engine whose slot [current] opens what the sender seals with.  If
    [mud_recv] admits it and the buffer of the caller holds [P], the result
    is the length of [P] and the buffer starts with [P]; the keys of the
    receiver are as they were. *)
Theorem mud_recv_delivers (S : sodium) (E : env) ms P t dst d data s a :
  aead_correct S ->
  opens (send_slot ms) (current (crypto (fst s))) ->
  0 < t < 2 ^ 48 ->
  0 < len P ->
  len P + MUD_PACKET_MIN_SIZE <= len dst -> len dst < 2 ^ 31 ->
  len P <= len data ->
  packet d = take (Z.to_nat (fst (mud_encrypt S ms t dst P)))
               (snd (mud_encrypt S ms t dst P)) ->
  fst (recv_admit S E d s) = Some a ->
  fst (mud_recv S E (recvmsg_ok d) data s) = (len P, P ++ drop (length P) data)
  /\ crypto (fst (snd (mud_recv S E (recvmsg_ok d) data s))) = crypto (fst s).
Proof.
  intros Haead Hop Ht HP Hfit Hdst Hbuf Hd Ha.
  destruct (mud_encrypt_frame S ms t dst P Haead ltac:(lia) Hfit Hdst)
    as (_ & Hframe & Hc).
  cbv zeta in Hframe, Hc. fold (send_slot ms) in Hframe, Hc.
  rewrite Hframe in Hd.
  set (c := snd (mud_encrypt_opt S (send_slot ms) _)) in *.
  assert (Hmin : MUD_PACKET_MIN_SIZE = 22) by reflexivity.
  assert (Hlen : len (packet d) - MUD_PACKET_MIN_SIZE = len P).
  { rewrite Hd, len_app. unfold len at 2. rewrite Hc. unfold len. simpl. lia. }
  assert (Hkind : adm_mud_packet a = false).
  { rewrite (recv_admit_kind S E d s a Ha), Hd, mud_read48_write48.
    rewrite Z.mod_small by lia. apply Z.eqb_neq. lia. }
  unfold mud_recv.
  destruct (Z.leb_spec (len (packet d)) MUD_PACKET_MIN_SIZE); [lia|].
  rewrite bind_value, bind_state, Ha.
  pose proof (recv_admit_keeps_crypto S E d s) as Hc1.
  unfold recv_handle. rewrite Hkind, bind_value, bind_state.
  pose proof (recv_path_update_keeps_crypto S E (adm_path a) (adm_now a)
                (adm_send_time a) (snd (recv_admit S E d s))) as Hc2.
  unfold keeps_crypto in Hc1, Hc2.
  set (s2 := snd (recv_path_update S E _ _ _ _)) in *.
  assert (Hsz : u64 (len (packet d) - MUD_PACKET_MIN_SIZE) <= len data).
  { rewrite Hlen, u64_small; lia. }
  assert (Hacc : mud_decrypt_opt S (current (crypto (fst s2)))
                   (frame_opt (packet d)) = (0, P)).
  { rewrite <- Hc2, <- Hc1, Hd. unfold frame_opt.
    change (drop 6 (mud_write48 t ++ c)) with c.
    change (take 6 (mud_write48 t ++ c)) with (mud_write48 t).
    change (memcpy (zeros 16) (mud_write48 t ++ c) 6)
      with (mud_write48 t ++ zeros 10).
    apply seal_opens; assumption. }
  destruct (mud_decrypt_cases S E data (packet d) s2 Hsz) as (H1 & _).
  destruct H1 as [Hv Hs].
  { unfold accepts. rewrite Hacc. reflexivity. }
  rewrite Hacc in Hv. cbn [snd] in Hv.
  rewrite Hlen, u64_small, int32_small in Hv by lia.
  rewrite bind_value, bind_state, Hv, Hs. cbn [fst snd].
  destruct (Z.eqb_spec (len P) (-1)); [lia|]. cbn [mret M_ret fst snd].
  split; [reflexivity|]. rewrite Hc1, Hc2. reflexivity.
Qed.

Lemma mud_recv_delivers_witness :
  fst (mud_recv Toy.S Scenario.EB
         (recvmsg_ok (Toy.dgram4
            (take (Z.to_nat (fst (mud_encrypt Toy.S (fst Scenario.a0) 1000000000
                                    (zeros 2048) Scenario.payload)))
               (snd (mud_encrypt Toy.S (fst Scenario.a0) 1000000000
                       (zeros 2048) Scenario.payload)))
            Scenario.addrA Scenario.addrB 5000))
         (zeros 1500) Scenario.b0)
  = (len Scenario.payload,
     Scenario.payload ++ drop (length Scenario.payload) (zeros 1500)).
Proof.
  eapply (proj1 (mud_recv_delivers Toy.S Scenario.EB (fst Scenario.a0)
            Scenario.payload 1000000000 (zeros 2048)
            (Toy.dgram4
               (take (Z.to_nat (fst (mud_encrypt Toy.S (fst Scenario.a0) 1000000000
                                       (zeros 2048) Scenario.payload)))
                  (snd (mud_encrypt Toy.S (fst Scenario.a0) 1000000000
                          (zeros 2048) Scenario.payload)))
               Scenario.addrA Scenario.addrB 5000)
            (zeros 1500) Scenario.b0 _ toy_aead_correct _ _ _ _ _ _ _ _)).
  Unshelve.
  all: try (vm_compute; reflexivity).
  - unfold opens. split; vm_compute; reflexivity.
  - lia.
  - vm_compute. discriminate.
  - vm_compute. discriminate.
Defined.

(** X23.  A data frame (of at most 1500 bytes, the size of the buffer
    of [recvmsg]) that [mud_recv] admits but whose plaintext is longer than
    the buffer of the caller is dropped: the result is 0, the buffer and
    the keys are as they were, no slot is tried and [bad_key] is not
    set. *)
Theorem mud_recv_small_buffer (S : sodium) (E : env) d data s a :
  MUD_PACKET_MIN_SIZE < len (packet d) <= MUD_PACKET_MAX_SIZE ->
  fst (recv_admit S E d s) = Some a ->
  adm_mud_packet a = false ->
  len data < len (packet d) - MUD_PACKET_MIN_SIZE ->
  fst (mud_recv S E (recvmsg_ok d) data s) = (0, data)
  /\ crypto (fst (snd (mud_recv S E (recvmsg_ok d) data s))) = crypto (fst s).
Proof.
  intros Hlen Ha Hkind Hbuf. unfold mud_recv.
  destruct (Z.leb_spec (len (packet d)) MUD_PACKET_MIN_SIZE); [lia|].
  rewrite bind_value, bind_state, Ha.
  pose proof (recv_admit_keeps_crypto S E d s) as Hc1.
  unfold recv_handle. rewrite Hkind, bind_value, bind_state.
  pose proof (recv_path_update_keeps_crypto S E (adm_path a) (adm_now a)
                (adm_send_time a) (snd (recv_admit S E d s))) as Hc2.
  unfold keeps_crypto in Hc1, Hc2.
  set (s2 := snd (recv_path_update S E _ _ _ _)) in *.
  assert (Hd : mud_decrypt S E data (packet d) s2 = ((0, data), s2)).
  { unfold mud_decrypt.
    unfold MUD_PACKET_MAX_SIZE, MUD_PACKET_MIN_SIZE, MUD_U48_SIZE, MUD_MAC_SIZE in *.
    rewrite u64_small by lia.
    destruct (Z.gtb_spec (len (packet d) - (6 + 16)) (len data));
      [reflexivity|lia]. }
  rewrite bind_value, bind_state, Hd. cbn [fst snd mret M_ret Z.eqb].
  split; [reflexivity|]. rewrite Hc1, Hc2. reflexivity.
Qed.

Lemma mud_recv_small_buffer_witness :
  fst (mud_recv Toy.S Scenario.EB
         (recvmsg_ok (Toy.dgram4
            (take (Z.to_nat (fst (mud_encrypt Toy.S (fst Scenario.a0) 1000000000
                                    (zeros 2048) Scenario.payload)))
               (snd (mud_encrypt Toy.S (fst Scenario.a0) 1000000000
                       (zeros 2048) Scenario.payload)))
            Scenario.addrA Scenario.addrB 5000))
         (zeros 10) Scenario.b0)
  = (0, zeros 10).
Proof.
  eapply (proj1 (mud_recv_small_buffer Toy.S Scenario.EB
            (Toy.dgram4
               (take (Z.to_nat (fst (mud_encrypt Toy.S (fst Scenario.a0) 1000000000
                                       (zeros 2048) Scenario.payload)))
                  (snd (mud_encrypt Toy.S (fst Scenario.a0) 1000000000
                          (zeros 2048) Scenario.payload)))
               Scenario.addrA Scenario.addrB 5000)
            (zeros 10) Scenario.b0 _ _ _ _ _)).
  Unshelve.
  all: try (vm_compute; reflexivity).
  - vm_compute. split; [reflexivity|discriminate].
Defined.

(** ** Sending *)

(** X24.  With no data [mud_send] runs the control tick and returns 0.
    With data that the MTU allows it returns -1 with [EINVAL], in the state
    that the control tick leaves and after one reading of the clock, when
    that reading is zero or when the data and the 22 bytes of the envelope
    do not fit the 2048 bytes of its buffer: no data frame is sent. *)
Theorem mud_send_early_exits (S : sodium) (E : env) data t s :
  (len data = 0 ->
   mud_send S E data t s = ((0, None), snd (mud_send_ctrl S E s)))
  /\ (len data <> 0 -> len data <= u64 (mud_get_mtu (fst s)) ->
      clock_value E (clock_reads (snd (snd (mud_send_ctrl S E s)))) = 0
      \/ 2048 < u64 (len data + MUD_PACKET_MIN_SIZE) ->
      mud_send S E data t s
      = ((-1, Some EINVAL),
         (fst (snd (mud_send_ctrl S E s)),
          tick (snd (snd (mud_send_ctrl S E s)))))).
Proof.
  pose proof (mud_send_ctrl_keeps_config S E s) as Hc.
  apply mud_get_mtu_config in Hc.
  rewrite mud_send_run.
  set (s1 := snd (mud_send_ctrl S E s)) in *.
  split.
  - intros Hz. unfold send_data. rewrite Hz. reflexivity.
  - intros Hnz Hmtu Hbad. apply send_data_no_frame; [exact Hnz|congruence|].
    unfold mud_encrypt. destruct Hbad as [->|Hbig]; [reflexivity|].
    destruct (_ =? 0); [reflexivity|].
    change (len (zeros 2048)) with 2048.
    destruct (Z.gtb_spec (u64 (len data + MUD_PACKET_MIN_SIZE)) 2048);
      [reflexivity|lia].
Qed.

Lemma mud_send_early_exits_witness :
  mud_send Toy.S Scenario.EA [] 0 Scenario.a2
  = ((0, None), snd (mud_send_ctrl Toy.S Scenario.EA Scenario.a2)).
Proof.
  apply (proj1 (mud_send_early_exits Toy.S Scenario.EA [] 0 Scenario.a2)).
  reflexivity.
Defined.



(** X26.  Sending changes neither the keys (the key pair, the four
    slots, [use_next]) nor the setup of the engine (socket, timeouts, local
    MTU, private key, AES flag) nor the MTU of the peer, and it leaves every
    path with its addresses, its [active] flag and its backup flags; the
    number of paths is the same. *)
Theorem mud_send_leaves_keys (S : sodium) (E : env) data t s :
  keys_of (fst (snd (mud_send S E data t s))) = keys_of (fst s)
  /\ setup_of (fst (snd (mud_send S E data t s))) = setup_of (fst s)
  /\ mtu_remote (mtu (fst (snd (mud_send S E data t s))))
     = mtu_remote (mtu (fst s))
  /\ Forall2 same_role (paths (fst s)) (paths (fst (snd (mud_send S E data t s)))).
Proof.
  split; [symmetry; apply (mud_send_keeps_keys S E data t s)|].
  split; [symmetry; apply (mud_send_keeps_setup S E data t s)|].
  split; [|apply (mud_send_keeps_role S E data t s)].
  destruct (mud_send_keeps_config S E data t s) as (_ & H & _). symmetry. exact H.
Qed.

(** X27.  Every datagram that [mud_send] hands to [sendmsg] after the
    control tick, for less than 2^31 bytes of data, is the frame that
    [mud_encrypt] made at the time [now] of the call: its first six bytes
    are [now], which is not zero, so that no receiver takes it for a
    control packet. *)
Theorem mud_send_data_frames (S : sodium) (E : env) data t s :
  len data < 2 ^ 31 ->
  wire_grows
    (fun e =>
       msg_data e
       = take (Z.to_nat (fst (mud_encrypt S (fst (snd (mud_send_ctrl S E s)))
                 (clock_value E (clock_reads (snd (snd (mud_send_ctrl S E s)))))
                 (zeros 2048) data)))
           (snd (mud_encrypt S (fst (snd (mud_send_ctrl S E s)))
                   (clock_value E (clock_reads (snd (snd (mud_send_ctrl S E s)))))
                   (zeros 2048) data))
       /\ mud_read48 (msg_data e)
          = clock_value E (clock_reads (snd (snd (mud_send_ctrl S E s))))
       /\ ~ is_ctrl_frame e)
    (snd (mud_send_ctrl S E s)) (snd (mud_send S E data t s)).
Proof.
  intros Hdata. rewrite mud_send_run.
  generalize (snd (mud_send_ctrl S E s)). clear s. intros s.
  unfold send_data.
  destruct (len data =? 0); [reflexivity|].
  rewrite bind_state. cbn [get_mud fst snd].
  destruct (len data >? u64 (mud_get_mtu (fst s))); [reflexivity|].
  rewrite bind_state. cbn [mud_now fst snd].
  pose proof (clock_value_range E (clock_reads (snd s))) as Hnow.
  set (now := clock_value E (clock_reads (snd s))) in *.
  pose proof (mud_encrypt_head S (fst s) now (zeros 2048) data
                ltac:(simpl; lia) ltac:(vm_compute; reflexivity) Hdata) as Hhead.
  set (enc := mud_encrypt S (fst s) now (zeros 2048) data) in *.
  destruct (Z.eqb_spec (fst enc) 0) as [|Hnz].
  { exists []. split; [reflexivity|constructor]. }
  destruct (Hhead Hnz) as (Hn0 & Hsize & Hfit & Htake). clear Hhead.
  pose proof (len_nonneg data) as Hd0.
  assert (Hmin : MUD_PACKET_MIN_SIZE = 22) by reflexivity.
  set (P := fun e : sent =>
              msg_data e = take (Z.to_nat (fst enc)) (snd enc)
              /\ mud_read48 (msg_data e) = now /\ ~ is_ctrl_frame e).
  assert (HP : forall i a c,
            P {| via := i; msg_name := a; msg_control := c;
                 msg_data := take (Z.to_nat (u64 (fst enc))) (snd enc) |}).
  { intros i a c. unfold P, is_ctrl_frame. cbn [msg_data].
    rewrite u64_small by lia.
    assert (H6 : take 6 (take (Z.to_nat (fst enc)) (snd enc)) = mud_write48 now).
    { rewrite take_take, Nat.min_l by lia. exact Htake. }
    assert (Hr : mud_read48 (take (Z.to_nat (fst enc)) (snd enc)) = now).
    { rewrite <- (take_drop 6 (take (Z.to_nat (fst enc)) (snd enc))), H6.
      rewrite mud_read48_write48. apply Z.mod_small. exact Hnow. }
    split; [reflexivity|]. split; [exact Hr|].
    intros Hz. apply read48_zero_prefix in Hz. congruence. }
  rewrite bind_state.
  assert (H0 : wire_grows P s (fst s, tick (snd s))).
  { destruct s as [m w]. apply blind. reflexivity. }
  pose proof (send_select_wire E P now (snd enc) (fst enc) t
                (seq 0 (length (paths (fst s)))) (None, INT64_MAX) HP
                (fst s, tick (snd s))) as Hsel.
  set (r := send_select E now (snd enc) (fst enc) t _ _ _) in *.
  rewrite bind_state. cbn [get_mud fst snd].
  assert (Hfin : forall j, preserves (wire_grows P)
            (r0 ← mud_send_path E j now (snd enc) (u64 (fst enc)) t;
             (if r0 =? fst enc
              then modify_path j (set_limit (u64 (snd (fst r)))) else mret ());;
             mret (int32 r0, @None errno))).
  { intros j. pres. apply mud_send_path_wire. intros a c. apply HP. }
  etrans; [exact H0|]. etrans; [exact Hsel|].
  destruct (fst (fst r)) as [j|]; [apply Hfin|].
  destruct (first_backup (paths (fst (snd r)))) as [j|]; [apply Hfin|reflexivity].
Qed.

Lemma mud_send_data_frames_witness :
  wire_grows
    (fun e =>
       msg_data e
       = take (Z.to_nat (fst (mud_encrypt Toy.S
                 (fst (snd (mud_send_ctrl Toy.S Scenario.EA Scenario.a2)))
                 (clock_value Scenario.EA
                    (clock_reads (snd (snd (mud_send_ctrl Toy.S Scenario.EA
                                              Scenario.a2)))))
                 (zeros 2048) Scenario.payload)))
           (snd (mud_encrypt Toy.S
                   (fst (snd (mud_send_ctrl Toy.S Scenario.EA Scenario.a2)))
                   (clock_value Scenario.EA
                      (clock_reads (snd (snd (mud_send_ctrl Toy.S Scenario.EA
                                                Scenario.a2)))))
                   (zeros 2048) Scenario.payload))
       /\ mud_read48 (msg_data e)
          = clock_value Scenario.EA
              (clock_reads (snd (snd (mud_send_ctrl Toy.S Scenario.EA Scenario.a2))))
       /\ ~ is_ctrl_frame e)
    (snd (mud_send_ctrl Toy.S Scenario.EA Scenario.a2))
    (snd (mud_send Toy.S Scenario.EA Scenario.payload 0 Scenario.a2)).
Proof.
  apply (mud_send_data_frames Toy.S Scenario.EA Scenario.payload 0 Scenario.a2).
  vm_compute. reflexivity.
Defined.

(** X28.  In one call of [mud_send] the data frame goes out at most
    once on each path: no two datagrams sent after the control tick use
    the same path. *)
Theorem mud_send_once_per_path (S : sodium) (E : env) data t s :
  exists new,
    sent_between (snd (mud_send_ctrl S E s)) (snd (mud_send S E data t s)) new
    /\ NoDup (via <$> new).
Proof.
  rewrite mud_send_run.
  generalize (snd (mud_send_ctrl S E s)). clear s. intros s.
  assert (Hnil : forall s' : mud * world, wire (snd s') = wire (snd s) ->
            exists new, sent_between s s' new /\ NoDup (via <$> new)).
  { intros s' Hw. exists []. split; [exact Hw|constructor]. }
  unfold send_data.
  destruct (len data =? 0); [apply Hnil; reflexivity|].
  rewrite bind_state. cbn [get_mud fst snd].
  destruct (len data >? u64 (mud_get_mtu (fst s))); [apply Hnil; reflexivity|].
  rewrite bind_state. cbn [mud_now fst snd].
  set (now := clock_value E (clock_reads (snd s))) in *.
  set (enc := mud_encrypt S (fst s) now (zeros 2048) data) in *.
  destruct (fst enc =? 0); [apply Hnil; reflexivity|].
  clear Hnil. rewrite bind_state.
  set (l := seq 0 (length (paths (fst s)))).
  assert (Hin : forall i, i ∈ l -> is_Some (paths (fst s) !! i)).
  { intros j Hj. apply lookup_lt_is_Some. apply elem_of_seq in Hj. lia. }
  destruct (send_select_once E now (snd enc) (fst enc) t l (NoDup_seq _ _)
              (None, INT64_MAX) (fst s, tick (snd s)) Hin)
    as (new & Hnew & Hnd & Hvia & Hpick & _); [discriminate|].
  destruct (send_select_spec E (paths (fst s)) (send_timeout (fst s)) now
              (snd enc) (fst enc) t l (NoDup_seq _ _) Hin (None, INT64_MAX)
              (fst s, tick (snd s)))
    as ((new' & Hnew' & Hnb) & Hrole & _).
  { reflexivity. }
  { reflexivity. }
  { intros j _. reflexivity. }
  { reflexivity. }
  assert (new' = new).
  { unfold sent_between in *. rewrite Hnew in Hnew'.
    apply app_inv_tail in Hnew'. symmetry. exact Hnew'. }
  subst new'.
  set (r := send_select E now (snd enc) (fst enc) t l _ _) in *.
  rewrite bind_state. cbn [get_mud fst snd].
  assert (Hfin : forall j, j ∉ via <$> new ->
            exists new1,
              sent_between s
                (snd ((r0 ← mud_send_path E j now (snd enc) (u64 (fst enc)) t;
                       (if r0 =? fst enc
                        then modify_path j (set_limit (u64 (snd (fst r))))
                        else mret ());;
                       mret (int32 r0, @None errno)) (snd r))) new1
              /\ NoDup (via <$> new1)).
  { intros j Hj. rewrite !bind_state.
    destruct (mud_send_path_at_most_one E j now (snd enc) (u64 (fst enc)) t (snd r))
      as (new0 & Hn0 & Hc0).
    exists (new0 ++ new). unfold sent_between in *. split.
    - destruct (_ =? _); cbn [snd mret M_ret modify_path modify_mud wire];
        rewrite Hn0, Hnew, app_assoc; reflexivity.
    - destruct Hc0 as [->|(e & -> & He)]; [exact Hnd|].
      simpl. constructor; [rewrite He; exact Hj|exact Hnd]. }
  destruct (fst (fst r)) as [j|] eqn:Hj; [apply Hfin, Hpick; reflexivity|].
  destruct (first_backup (paths (fst (snd r)))) as [b|] eqn:Hb.
  - apply Hfin. intros Hbn.
    apply list_elem_of_fmap in Hbn as (e & He & Hen).
    rewrite Forall_forall in Hnb. destruct (Hnb e Hen) as (p & Hp & Hbak).
    unfold first_backup in Hb.
    destruct (list_find _ (paths (fst (snd r)))) as [[b' pb]|] eqn:Hfind;
      [|discriminate].
    injection Hb as ->. apply list_find_Some in Hfind as (Hpb & Hbk & _).
    unfold keeps_paths in Hrole. cbn [fst] in Hrole.
    rewrite <- He in Hp.
    destruct (Forall2_lookup_l _ _ _ _ _ Hrole Hp) as (pb' & Hpb' & (_ & _ & _ & Hl & _)).
    rewrite Hpb in Hpb'. injection Hpb' as <-. congruence.
  - exists new. split; [exact Hnew|exact Hnd].
Qed.

(** X29.  The MTU that an mtux announces is taken as it comes: the low
    32 bits of the number in the packet, read as an [int].  When that is
    negative and the local MTU is not, [mud_get_mtu] returns the negative
    number, and the test of [mud_send] on the size, made on [size_t], lets
    every size below 2^63 through. *)
Theorem mtux_unchecked (S : sodium) (E : env) i now st pkt s :
  len pkt = MUD_MTUX_SIZE ->
  mtu_remote (mtu (fst (snd (recv_ctrl S E i now st pkt s))))
  = int32 (mud_read48 (drop 12 pkt))
  /\ (int32 (mud_read48 (drop 12 pkt)) < 0 ->
      0 <= mtu_local (mtu (fst s)) ->
      mud_get_mtu (fst (snd (recv_ctrl S E i now st pkt s)))
      = int32 (mud_read48 (drop 12 pkt))
      /\ forall data, len data < 2 ^ 63 ->
           (len data >? u64 (mud_get_mtu (fst (snd (recv_ctrl S E i now st pkt s)))))
           = false).
Proof.
  intros Hlen. unfold recv_ctrl. rewrite Hlen.
  change (MUD_MTUX_SIZE =? MUD_KEYX_SIZE) with false.
  change (MUD_MTUX_SIZE =? MUD_MTUX_SIZE) with true. cbv iota.
  set (v := int32 (mud_read48 (drop 12 pkt))).
  rewrite bind_state.
  set (s1 := snd (modify_mtu (set_mtu_remote v) s)).
  assert (Hrest : keeps_config s1
            (snd ((p0 ← get_path i;
                   if negb (active p0) then mud_ctrl_path S E mud_mtux i now
                   else mret ()) s1))).
  { generalize s1. change (preserves keeps_config
      (p0 ← get_path i;
       if negb (active p0) then mud_ctrl_path S E mud_mtux i now else mret ())).
    pres. }
  destruct Hrest as (Hl & Hr & _).
  assert (Hl1 : mtu_local (mtu (fst s1)) = mtu_local (mtu (fst s))) by reflexivity.
  assert (Hr1 : mtu_remote (mtu (fst s1)) = v) by reflexivity.
  split; [congruence|]. intros Hneg Hloc.
  assert (Hv : -2 ^ 31 <= v).
  { subst v. unfold int32.
    pose proof (Z.mod_pos_bound (mud_read48 (drop 12 pkt)) (2 ^ 32) ltac:(lia)).
    destruct (Z.ltb_spec (mud_read48 (drop 12 pkt) mod 2 ^ 32) (2 ^ 31)); lia. }
  assert (Hget : mud_get_mtu (fst (snd ((p0 ← get_path i;
                   if negb (active p0) then mud_ctrl_path S E mud_mtux i now
                   else mret ()) s1))) = v).
  { unfold mud_get_mtu. rewrite <- Hl, <- Hr, Hl1, Hr1.
    destruct (Z.eqb_spec v 0); [lia|]. cbn [orb].
    destruct (Z.ltb_spec (mtu_local (mtu (fst s))) v); [lia|reflexivity]. }
  split; [exact Hget|]. intros data Hd. rewrite Hget.
  assert (Hu : u64 v = v + 2 ^ 64).
  { unfold u64. symmetry. apply Z.mod_unique with (q := -1); lia. }
  rewrite Hu. destruct (Z.gtb_spec (len data) (v + 2 ^ 64)); [lia|reflexivity].
Qed.

Lemma mtux_unchecked_witness :
  mtu_remote (mtu (fst (snd (recv_ctrl Toy.S Scenario.EA 0 1000000500 1000000000
     (zeros 12 ++ mud_write48 2147483648 ++ zeros 16) Scenario.a0))))
  = int32 (mud_read48 (drop 12 (zeros 12 ++ mud_write48 2147483648 ++ zeros 16))).
Proof.
  apply (proj1 (mtux_unchecked Toy.S Scenario.EA 0 1000000500 1000000000
           (zeros 12 ++ mud_write48 2147483648 ++ zeros 16) Scenario.a0
           ltac:(reflexivity))).
Defined.
